(** * go-ssz: the reflective Simple Serialize codec, embedded in Rocq

    The development follows the Go sources:
    - [ssz.go]                     the facade [Marshal] / [Unmarshal];
    - [types/slice_basic.go]       [basicSliceSSZ];
    - [types/array_basic.go]       [basicArraySSZ];
    - [types/array_composite.go]   [compositeArraySSZ], [structSSZ],
                                   [determineFieldCapacity];
    - the composite slice codec    [compositeSliceSSZ];
    - [types/string.go]            [stringSSZ];
    - [decode.go]                  the older closure based decoders.

    Conventions of the embedding.
    - [uint64] values are [Z] with the wrap-around written out ([add64],
      [sub64], [mul64]); [uint32(x)] is [x mod 2^32].
    - A byte slice is a [list byte].  A slice is represented by its visible
      elements only: its capacity is taken to be its length, so a slice
      expression [s[lo:hi]] with [hi > len(s)] is the run-time panic.
    - A [reflect.Value] is a [value]; the [reflect.Type] travels next to it.
      A nil slice and an empty slice are both [VList []].
    - In place mutation of the output buffer and of the destination is
      explicit state passing: a codec returns the new buffer (the new value)
      together with the index it reached.
    - A Go [error] is [Err msg], a run-time panic is [Panic].
    - Struct fields carry no [ssz-size] directive: [parseSSZFieldTags]
      finds nothing and [determineFieldType] is the declared type.  The
      [ssz-max] directive is kept, as the string found by [Tag.Lookup]. *)

From Stdlib Require Import ZArith List String Ascii Lia Bool.
From Stdlib.Strings Require Import Byte.
Import ListNotations.
Open Scope list_scope.
Open Scope Z_scope.
Set Warnings "-register-all".

(* ------------------------------------------------------------------ *)
(** ** Results: value, error, panic *)

Inductive result (A : Type) : Type :=
| Ok (a : A)
| Err (msg : string)
| Panic.
Arguments Ok {A} a.
Arguments Err {A} msg.
Arguments Panic {A}.

Definition bind {A B} (r : result A) (k : A -> result B) : result B :=
  match r with
  | Ok a => k a
  | Err m => Err m
  | Panic => Panic
  end.

Notation "x <- r ;; k" := (bind r (fun x => k))
  (at level 61, r at next level, right associativity).
Notation "' p <- r ;; k" := (bind r (fun p => k))
  (at level 61, p pattern, r at next level, right associativity).

(** [errors.Wrapf(err, msg)]: the message is put in front of the cause.
    The type name printed by the [%v] verb is not rendered. *)
Definition Wrapf {A} (r : result A) (msg : string) : result A :=
  match r with
  | Err m => Err (msg ++ ": " ++ m)%string
  | other => other
  end.

Definition of_option {A} (o : option A) : result A :=
  match o with Some a => Ok a | None => Panic end.

(* ------------------------------------------------------------------ *)
(** ** Machine integers and bytes *)

Definition u64 (z : Z) : Z := z mod 2 ^ 64.
Definition add64 (a b : Z) : Z := u64 (a + b).
Definition sub64 (a b : Z) : Z := u64 (a - b).
Definition mul64 (a b : Z) : Z := u64 (a * b).
Definition uint32 (z : Z) : Z := z mod 2 ^ 32.

Definition Z_of_byte (b : byte) : Z := Z.of_N (Byte.to_N b).

(** [uint8(z)]: the low eight bits. *)
Definition byte_of_Z (z : Z) : byte :=
  match Byte.of_N (Z.to_N (z mod 256)) with
  | Some b => b
  | None => x00
  end.

Definition len {A} (l : list A) : Z := Z.of_nat (List.length l).

(** [s[lo:hi]] *)
Definition slice {A} (s : list A) (lo hi : Z) : result (list A) :=
  if (0 <=? lo) && (lo <=? hi) && (hi <=? len s)
  then Ok (firstn (Z.to_nat (hi - lo)) (skipn (Z.to_nat lo) s))
  else Panic.

(** [s[i]] *)
Definition elem_at {A} (s : list A) (i : Z) : result A :=
  if (0 <=? i) && (i <? len s)
  then of_option (nth_error s (Z.to_nat i))
  else Panic.

(** [s[i] = x] *)
Definition store {A} (s : list A) (i : Z) (x : A) : result (list A) :=
  if (0 <=? i) && (i <? len s)
  then Ok (firstn (Z.to_nat i) s ++ x :: skipn (S (Z.to_nat i)) s)
  else Panic.

(** [copy(buf[lo:lo+len(src)], src)] *)
Definition copy_at (buf : list byte) (lo : Z) (src : list byte)
  : result (list byte) :=
  if (0 <=? lo) && (lo + len src <=? len buf)
  then Ok (firstn (Z.to_nat lo) buf ++ src
           ++ skipn (Z.to_nat (lo + len src)) buf)
  else Panic.

(** [make([]byte, n)] *)
Definition make_bytes (n : Z) : list byte := repeat x00 (Z.to_nat n).

(** *** [encoding/binary], little endian *)

Fixpoint le_bytes (n : nat) (v : Z) : list byte :=
  match n with
  | O => []
  | S n' => byte_of_Z v :: le_bytes n' (Z.shiftr v 8)
  end.

Fixpoint le_value (bs : list byte) : Z :=
  match bs with
  | [] => 0
  | b :: bs' => Z_of_byte b + Z.shiftl (le_value bs') 8
  end.

(** [binary.LittleEndian.PutUintN] on a fresh buffer of N/8 bytes *)
Definition PutUint16 (v : Z) : list byte := le_bytes 2 v.
Definition PutUint32 (v : Z) : list byte := le_bytes 4 v.
Definition PutUint64 (v : Z) : list byte := le_bytes 8 v.

(** [binary.LittleEndian.UintN(b)]: reads the first N/8 bytes of [b]; the
    bounds check [_ = b[N/8-1]] panics on a shorter slice. *)
Definition read_le (n : nat) (b : list byte) : result Z :=
  if (Z.of_nat n <=? len b) then Ok (le_value (firstn n b)) else Panic.

Definition Uint16 := read_le 2.
Definition Uint32 := read_le 4.
Definition Uint64 := read_le 8.

Definition BytesPerLengthOffset : Z := 4.

(** [strings.Contains] *)
Fixpoint Contains (s sub : string) : bool :=
  String.prefix sub s ||
  match s with
  | EmptyString => false
  | String _ s' => Contains s' sub
  end.

(** [strconv.ParseUint(s, 10, 64)]: decimal digits only, at least one,
    value below 2^64. *)
Definition digit_of (c : ascii) : option Z :=
  let n := Z.of_N (N_of_ascii c) in
  if (48 <=? n) && (n <=? 57) then Some (n - 48) else None.

Fixpoint parse_digits (s : string) (acc : Z) : option Z :=
  match s with
  | EmptyString => Some acc
  | String c s' =>
      match digit_of c with
      | Some d =>
          let acc' := acc * 10 + d in
          if acc' <? 2 ^ 64 then parse_digits s' acc' else None
      | None => None
      end
  end.

Definition ParseUint (s : string) : option Z :=
  match s with
  | EmptyString => None
  | _ => parse_digits s 0
  end.

(* ------------------------------------------------------------------ *)
(** ** The [reflect] view of Go types and values *)

Module reflect.

Inductive Kind :=
| Bool | Uint8 | Uint16 | Uint32 | Uint64 | Complex128
| String | Slice | Array | Struct | Ptr.

Definition Kind_eqb (a b : Kind) : bool :=
  match a, b with
  | Bool, Bool | Uint8, Uint8 | Uint16, Uint16 | Uint32, Uint32
  | Uint64, Uint64 | Complex128, Complex128 | String, String
  | Slice, Slice | Array, Array | Struct, Struct | Ptr, Ptr => true
  | _, _ => false
  end.

End reflect.

(** [reflect.StructField]: the name, the declared type and the value of
    [Tag.Lookup("ssz-max")]. *)
Record StructField_ (T : Type) : Type := mkField {
  Name : string;
  FType : T;
  Tag_ssz_max : option string
}.
Arguments mkField {T}.
Arguments Name {T}.
Arguments FType {T}.
Arguments Tag_ssz_max {T}.

Inductive type : Type :=
| TBool
| TUint8
| TUint16
| TUint32
| TUint64
| TComplex128
| TString
| TSlice (elem : type)
| TArray (n : nat) (elem : type)
| TStruct (fields : list (StructField_ type))
| TPtr (elem : type).

Definition StructField := StructField_ type.

Inductive value : Type :=
| VBool (b : bool)
| VUint (n : Z)
| VComplex
| VString (s : list byte)
| VList (items : list value)
| VStruct (fields : list value)
| VPtr (target : option value).

Definition Kind (t : type) : reflect.Kind :=
  match t with
  | TBool => reflect.Bool
  | TUint8 => reflect.Uint8
  | TUint16 => reflect.Uint16
  | TUint32 => reflect.Uint32
  | TUint64 => reflect.Uint64
  | TComplex128 => reflect.Complex128
  | TString => reflect.String
  | TSlice _ => reflect.Slice
  | TArray _ _ => reflect.Array
  | TStruct _ => reflect.Struct
  | TPtr _ => reflect.Ptr
  end.

(** [typ.Elem()] panics unless the type is a slice, array or pointer. *)
Definition Elem (t : type) : result type :=
  match t with
  | TSlice e | TArray _ e | TPtr e => Ok e
  | _ => Panic
  end.

(** The fields of [typ]: [typ.NumField()] and [typ.Field(i)]. *)
Definition Fields (t : type) : result (list StructField) :=
  match t with
  | TStruct fs => Ok fs
  | _ => Panic
  end.

(** The elements behind [val.Len()] and [val.Index(i)]. *)
Definition Items (v : value) : result (list value) :=
  match v with
  | VList items => Ok items
  | VString s => Ok (map (fun b => VUint (Z_of_byte b)) s)
  | _ => Panic
  end.

(** The elements of a slice or array destination: [val.Index(i)] is
    settable. *)
Definition SliceItems (v : value) : result (list value) :=
  match v with
  | VList items => Ok items
  | _ => Panic
  end.

(** The slots behind [val.Field(i)]. *)
Definition FieldValues (v : value) : result (list value) :=
  match v with
  | VStruct vs => Ok vs
  | _ => Panic
  end.

(** [val.IsNil()] *)
Definition IsNil (v : value) : result bool :=
  match v with
  | VPtr None => Ok true
  | VPtr (Some _) => Ok false
  | VList [] => Ok true
  | VList _ => Ok false
  | _ => Panic
  end.

(** [val.Uint()] *)
Definition ValUint (v : value) : result Z :=
  match v with
  | VUint n => Ok n
  | _ => Panic
  end.

(** The zero value of a type: [reflect.New(typ).Elem()] and the elements
    of [reflect.MakeSlice]. *)
Fixpoint zero (t : type) : value :=
  match t with
  | TBool => VBool false
  | TUint8 | TUint16 | TUint32 | TUint64 => VUint 0
  | TComplex128 => VComplex
  | TString => VString []
  | TSlice _ => VList []
  | TArray n e => VList (repeat (zero e) n)
  | TStruct fs => VStruct (map (fun f => zero (FType f)) fs)
  | TPtr _ => VPtr None
  end.

(** [reflect.MakeSlice(typ, n, n)] followed by [reflect.Copy(newVal, val)]
    and [val.Set(newVal)]: the pattern written out in [decode.go], and the
    body of the helper [growConcreteSliceType(val, typ, n)]. *)
Definition growConcreteSliceType (val : value) (typ : type) (n : Z)
  : result value :=
  items <- SliceItems val ;;
  e <- match typ with TSlice e => Ok e | _ => Panic end ;;
  if n <? 0 then Panic else
  Ok (VList (firstn (Z.to_nat n) items
             ++ repeat (zero e) (Z.to_nat n - List.length items))).

(** Modelled from the spec: [instantiateConcreteTypeForElement(val, typ)]
    is not among the sources.  "At decode time a nil destination field is
    instantiated if the schema requires traversal into it": a nil pointer
    is replaced by a pointer to the zero value of [typ]. *)
Definition instantiateConcreteTypeForElement (val : value) (typ : type)
  : result value :=
  match val with
  | VPtr None => Ok (VPtr (Some (zero typ)))
  | VPtr (Some v) => Ok (VPtr (Some v))
  | _ => Panic
  end.

(* ------------------------------------------------------------------ *)
(** ** The schema introspector *)

(** Modelled from the spec: [isVariableSizeType] is not among the sources.
    "is_fixed": booleans and unsigned integers are fixed; a list is not; a
    vector is fixed iff its element is; a container iff every field is.  A
    pointer is read through to its pointee; a string has no fixed size. *)
Fixpoint isVariableSizeType (typ : type) : bool :=
  match typ with
  | TBool | TUint8 | TUint16 | TUint32 | TUint64 | TComplex128 => false
  | TString => true
  | TSlice _ => true
  | TArray _ e => isVariableSizeType e
  | TStruct fs => existsb (fun f => isVariableSizeType (FType f)) fs
  | TPtr e => isVariableSizeType e
  end.

(** Modelled from the spec: [determineFixedSize] is not among the sources.
    "fixed_size(schema): sum over container fields, product for vectors";
    it is meaningful for fixed-size schemas only and is 0 otherwise. *)
Fixpoint fixed_size (typ : type) : Z :=
  match typ with
  | TBool | TUint8 => 1
  | TUint16 => 2
  | TUint32 => 4
  | TUint64 => 8
  | TArray n e => Z.of_nat n * fixed_size e
  | TStruct fs => fold_right (fun f acc => fixed_size (FType f) + acc) 0 fs
  | TPtr e => fixed_size e
  | TComplex128 | TString | TSlice _ => 0
  end.

Definition determineFixedSize (val : value) (typ : type) : Z :=
  fixed_size typ.

(** Modelled from the spec: [DetermineSize] is not among the sources.
    "schema_size(v)", with "len(marshal(v)) == schema_size(v)": every
    variable-size child of a composite costs one 4-byte offset plus its
    own size; a null pointer has the size of the zero value of the
    pointee. *)
Fixpoint determineSize (typ : type) (val : value) {struct typ} : Z :=
  match typ with
  | TBool | TUint8 => 1
  | TUint16 => 2
  | TUint32 => 4
  | TUint64 => 8
  | TComplex128 => 0
  | TString => match val with VString s => len s | _ => 0 end
  | TSlice e | TArray _ e =>
      let per := if isVariableSizeType e then BytesPerLengthOffset else 0 in
      match val with
      | VList items =>
          fold_right (fun v acc => per + determineSize e v + acc) 0 items
      | _ => 0
      end
  | TStruct fs =>
      (fix go (fs : list StructField) (vs : list value) {struct fs} : Z :=
         match fs, vs with
         | f :: fs', v :: vs' =>
             (if isVariableSizeType (FType f)
              then BytesPerLengthOffset else 0)
             + determineSize (FType f) v + go fs' vs'
         | _, _ => 0
         end) fs (match val with VStruct vs => vs | _ => [] end)
  | TPtr e =>
      match val with
      | VPtr (Some v) => determineSize e v
      | _ => determineSize e (zero e)
      end
  end.

Definition DetermineSize (val : value) (typ : type) : Z :=
  determineSize typ val.

(** [determineFieldType]: without an [ssz-size] directive the declared
    type. *)
Definition determineFieldType (field : StructField) : result type :=
  Ok (FType field).

(** [determineFieldCapacity] *)
Definition determineFieldCapacity (field : StructField) : Z :=
  match Tag_ssz_max field with
  | None => 0
  | Some tag =>
      match ParseUint tag with
      | None => 0
      | Some val => val
      end
  end.

(* ------------------------------------------------------------------ *)
(** ** The codecs behind the [SSZAble] interface *)

Inductive SSZAble :=
| basictype
| stringtype
| basicsliceType
| compositesliceType
| basicarrayType
| compositearrayType
| structType.

(** Modelled from the spec: [SSZFactory] is not among the sources.  The
    primitive codec serves booleans and unsigned integers; homogeneous
    collections are "dispatched on is_fixed(elem)"; a container goes to the
    structure codec; a pointer is resolved through its pointee; any other
    kind is "UnsupportedKind". *)
Fixpoint SSZFactory (val : value) (typ : type) : result SSZAble :=
  match typ with
  | TBool | TUint8 | TUint16 | TUint32 | TUint64 => Ok basictype
  | TString => Ok stringtype
  | TSlice e =>
      if isVariableSizeType e then Ok compositesliceType
      else Ok basicsliceType
  | TArray _ e =>
      if isVariableSizeType e then Ok compositearrayType
      else Ok basicarrayType
  | TStruct _ => Ok structType
  | TPtr e =>
      SSZFactory (match val with VPtr (Some v) => v | _ => zero e end) e
  | TComplex128 => Err "unsupported kind: complex128"
  end.

(** Modelled from the spec: the primitive codec [basicSSZ] is not among
    the sources.  "Bool: encode false->0x00, true->0x01.  Decode: fails
    with InvalidBool on any byte other than 0x00/0x01.  Uint{8,16,32,64}:
    little-endian, width bytes, no sign."  Too few remaining bytes are
    "ShortInput". *)
Definition basic_width (typ : type) : option nat :=
  match typ with
  | TBool | TUint8 => Some 1%nat
  | TUint16 => Some 2%nat
  | TUint32 => Some 4%nat
  | TUint64 => Some 8%nat
  | _ => None
  end.

Definition basicSSZ_Marshal (val : value) (typ : type) (buf : list byte)
  (startOffset : Z) : result (Z * list byte) :=
  match typ, val with
  | TBool, VBool b =>
      buf' <- copy_at buf startOffset [if b then x01 else x00] ;;
      Ok (add64 startOffset 1, buf')
  | TBool, _ => Panic
  | _, VUint n =>
      match basic_width typ with
      | Some w =>
          buf' <- copy_at buf startOffset (le_bytes w n) ;;
          Ok (add64 startOffset (Z.of_nat w), buf')
      | None => Panic
      end
  | _, _ => Panic
  end.

Definition basicSSZ_Unmarshal (val : value) (typ : type) (input : list byte)
  (startOffset : Z) : result (Z * value) :=
  match basic_width typ with
  | None => Panic
  | Some w =>
      let offset := add64 startOffset (Z.of_nat w) in
      if (len input <? startOffset + Z.of_nat w) then Err "short input"
      else
        bs <- slice input startOffset offset ;;
        match typ with
        | TBool =>
            let v := le_value bs in
            if v =? 0 then Ok (offset, VBool false)
            else if v =? 1 then Ok (offset, VBool true)
            else Err "expect 0 or 1 for decoding bool"
        | _ => Ok (offset, VUint (le_value bs))
        end
  end.

(** *** [types/string.go] *)

Fixpoint stringSSZ_Marshal_loop (items : list value) (buf : list byte)
  (startOffset : Z) (i : Z) : result (list byte) :=
  match items with
  | [] => Ok buf
  | c :: rest =>
      n <- ValUint c ;;
      buf' <- store buf (startOffset + i) (byte_of_Z n) ;;
      stringSSZ_Marshal_loop rest buf' startOffset (i + 1)
  end.

Definition stringSSZ_Marshal (val : value) (typ : type) (buf : list byte)
  (startOffset : Z) : result (Z * list byte) :=
  items <- Items val ;;
  buf' <- stringSSZ_Marshal_loop items buf startOffset 0 ;;
  Ok (add64 startOffset (len items), buf').

Definition stringSSZ_Unmarshal (val : value) (typ : type) (input : list byte)
  (startOffset : Z) : result (Z * value) :=
  let offset := add64 startOffset (len input) in
  s <- slice input startOffset offset ;;
  match val with
  | VString _ => Ok (offset, VString s)
  | _ => Panic
  end.

Section Codecs.

(** The two methods of the [SSZAble] interface, reached through a
    factory returned by [SSZFactory]. *)
Variable Marshal_ :
  SSZAble -> value -> type -> list byte -> Z -> result (Z * list byte).
Variable Unmarshal_ :
  SSZAble -> value -> type -> list byte -> Z -> result (Z * value).

(** The loop
    [for i := 0; i < val.Len(); i++ {
       index, err = factory.Marshal(val.Index(i), typ.Elem(), buf, index) }] *)
Fixpoint marshal_each (factory : SSZAble) (e : type) (items : list value)
  (buf : list byte) (index : Z) : result (Z * list byte) :=
  match items with
  | [] => Ok (index, buf)
  | v :: rest =>
      '(index', buf') <- Marshal_ factory v e buf index ;;
      marshal_each factory e rest buf' index'
  end.

(** The offset writing loop of the composite collections. *)
Fixpoint marshal_offsets (factory : SSZAble) (e : type)
  (items : list value) (buf : list byte)
  (startOffset fixedIndex currentOffsetIndex : Z)
  : result (Z * list byte) :=
  match items with
  | [] => Ok (currentOffsetIndex, buf)
  | v :: rest =>
      '(nextOffsetIndex, buf1) <-
        Marshal_ factory v e buf currentOffsetIndex ;;
      let offsetBuf :=
        PutUint32 (uint32 (sub64 currentOffsetIndex startOffset)) in
      buf2 <- copy_at buf1 fixedIndex offsetBuf ;;
      marshal_offsets factory e rest buf2 startOffset
        (add64 fixedIndex BytesPerLengthOffset) nextOffsetIndex
  end.

(** *** [types/slice_basic.go], [types/array_basic.go] *)

Definition basicSliceSSZ_Marshal (val : value) (typ : type)
  (buf : list byte) (startOffset : Z) : result (Z * list byte) :=
  items <- Items val ;;
  if len items =? 0 then Ok (startOffset, buf) else
  v0 <- elem_at items 0 ;;
  e <- Elem typ ;;
  factory <- SSZFactory v0 e ;;
  marshal_each factory e items buf startOffset.

Definition basicArraySSZ_Marshal (val : value) (typ : type)
  (buf : list byte) (startOffset : Z) : result (Z * list byte) :=
  items <- Items val ;;
  if len items =? 0 then Ok (startOffset, buf) else
  v0 <- elem_at items 0 ;;
  e <- Elem typ ;;
  factory <- SSZFactory v0 e ;;
  marshal_each factory e items buf startOffset.

(** [if val.Index(i).Kind() == reflect.Ptr {
      instantiateConcreteTypeForElement(val.Index(i), typ.Elem()) }] where
    [typ] is the type of the slot. *)
Definition instantiate_if_ptr (d : value) (typ : type) : result value :=
  match typ with
  | TPtr ee => instantiateConcreteTypeForElement d ee
  | _ => Ok d
  end.

(** The loop [for i < endOffset] of [basicSliceSSZ.Unmarshal], entered
    with [i = 1]; [count] is the number of iterations left. *)
Fixpoint basicSlice_decode_rest (factory : SSZAble) (typ e : type)
  (input : list byte) (count : nat) (i : Z) (val : value) (index : Z)
  : result (Z * value) :=
  match count with
  | O => Ok (index, val)
  | S count' =>
      val1 <- growConcreteSliceType val typ (i + 1) ;;
      items <- SliceItems val1 ;;
      d <- elem_at items i ;;
      '(index', d') <- Unmarshal_ factory d e input index ;;
      items' <- store items i d' ;;
      basicSlice_decode_rest factory typ e input count' (i + 1)
        (VList items') index'
  end.

Definition basicSliceSSZ_Unmarshal (val : value) (typ : type)
  (input : list byte) (startOffset : Z) : result (Z * value) :=
  if len input =? 0 then
    _ <- SliceItems val ;;
    Ok (0, VList [])
  else
    val1 <- growConcreteSliceType val typ 1 ;;
    items1 <- SliceItems val1 ;;
    v0 <- elem_at items1 0 ;;
    e <- Elem typ ;;
    factory <- SSZFactory v0 e ;;
    '(index, v0') <- Unmarshal_ factory v0 e input startOffset ;;
    items2 <- store items1 0 v0' ;;
    let elementSize := sub64 index startOffset in
    if elementSize =? 0 then Panic else
    let endOffset := len input / elementSize in
    basicSlice_decode_rest factory typ e input
      (Z.to_nat (endOffset - 1)) 1 (VList items2) index.

(** The loop [for i < size] of [basicArraySSZ.Unmarshal]. *)
Fixpoint basicArray_decode (e : type) (input : list byte) (todo : nat)
  (i : Z) (items : list value) (index : Z) : result (Z * list value) :=
  match todo with
  | O => Ok (index, items)
  | S todo' =>
      d <- elem_at items i ;;
      d1 <- instantiate_if_ptr d e ;;
      factory <-
        match e with
        | TPtr ee => SSZFactory d1 ee
        | _ => SSZFactory d1 e
        end ;;
      '(index', d') <- Unmarshal_ factory d1 e input index ;;
      items' <- store items i d' ;;
      basicArray_decode e input todo' (i + 1) items' index'
  end.

Definition basicArraySSZ_Unmarshal (val : value) (typ : type)
  (input : list byte) (startOffset : Z) : result (Z * value) :=
  items <- SliceItems val ;;
  if len items =? 0 then Ok (startOffset, val) else
  e <- Elem typ ;;
  '(index, items') <-
    basicArray_decode e input (List.length items) 0 items startOffset ;;
  Ok (index, VList items').

(** The offset following the slot at [nextIndex]: the end of the input
    for the last slot, the stored offset otherwise. *)
Definition next_offset (input : list byte)
  (startOffset firstOffset endOffset nextIndex : Z) : result Z :=
  if nextIndex =? firstOffset then Ok endOffset
  else
    nextOffsetVal <-
      slice input nextIndex (add64 nextIndex BytesPerLengthOffset) ;;
    o <- Uint32 nextOffsetVal ;;
    Ok (add64 startOffset o).

(** *** The composite collections *)

Definition compositeSliceSSZ_Marshal (val : value) (typ : type)
  (buf : list byte) (startOffset : Z) : result (Z * list byte) :=
  items <- Items val ;;
  if len items =? 0 then Ok (startOffset, buf) else
  v0 <- elem_at items 0 ;;
  e <- Elem typ ;;
  factory <- SSZFactory v0 e ;;
  if negb (isVariableSizeType e) then
    marshal_each factory e items buf startOffset
  else
    let fixedIndex := startOffset in
    let currentOffsetIndex :=
      add64 startOffset (mul64 (len items) BytesPerLengthOffset) in
    marshal_offsets factory e items buf startOffset fixedIndex
      currentOffsetIndex.

Definition compositeArraySSZ_Marshal (val : value) (typ : type)
  (buf : list byte) (startOffset : Z) : result (Z * list byte) :=
  items <- Items val ;;
  if len items =? 0 then Ok (startOffset, buf) else
  v0 <- elem_at items 0 ;;
  e <- Elem typ ;;
  factory <- SSZFactory v0 e ;;
  if negb (isVariableSizeType e) then
    marshal_each factory e items buf startOffset
  else
    let fixedIndex := startOffset in
    let currentOffsetIndex :=
      add64 startOffset (mul64 (len items) BytesPerLengthOffset) in
    marshal_offsets factory e items buf startOffset fixedIndex
      currentOffsetIndex.

(** The loop [for currentIndex < firstOffset] of
    [compositeSliceSSZ.Unmarshal].  Every pass but the last reads four
    bytes of the input at [nextIndex], so the loop is over after at most
    [len(input)/4 + 1] passes: [fuel] starts above that. *)
Fixpoint compositeSlice_loop (typ e : type) (input : list byte)
  (startOffset firstOffset endOffset : Z) (fuel : nat) (i : Z)
  (val : value) (currentIndex currentOffset : Z) : result (Z * value) :=
  if currentIndex <? firstOffset then
    match fuel with
    | O => Panic
    | S fuel' =>
        let nextIndex := add64 currentIndex BytesPerLengthOffset in
        nextOffset <-
          next_offset input startOffset firstOffset endOffset nextIndex ;;
        if nextOffset <? currentOffset then Ok (currentIndex, val)
        else
          val1 <- growConcreteSliceType val typ (i + 1) ;;
          items <- SliceItems val1 ;;
          d <- elem_at items i ;;
          factory <- SSZFactory d e ;;
          sub <- slice input currentOffset nextOffset ;;
          '(_, d') <- Unmarshal_ factory d e sub 0 ;;
          items' <- store items i d' ;;
          compositeSlice_loop typ e input startOffset firstOffset
            endOffset fuel' (i + 1) (VList items') nextIndex nextOffset
    end
  else Ok (currentIndex, val).

Definition compositeSliceSSZ_Unmarshal (val : value) (typ : type)
  (input : list byte) (startOffset : Z) : result (Z * value) :=
  if len input =? 0 then
    _ <- SliceItems val ;;
    Ok (0, VList [])
  else
    val1 <- growConcreteSliceType val typ 1 ;;
    let endOffset := len input in
    offsetVal <-
      slice input startOffset (add64 startOffset BytesPerLengthOffset) ;;
    o <- Uint32 offsetVal ;;
    let firstOffset := add64 startOffset o in
    e <- Elem typ ;;
    compositeSlice_loop typ e input startOffset firstOffset endOffset
      (S (List.length input)) 0 val1 startOffset firstOffset.

(** The loop of [compositeArraySSZ.Unmarshal]: no comparison of the two
    offsets before the slice expression. *)
Fixpoint compositeArray_loop (factory : SSZAble) (e : type)
  (input : list byte) (startOffset firstOffset endOffset : Z)
  (fuel : nat) (i : Z) (items : list value)
  (currentIndex currentOffset : Z) : result (Z * list value) :=
  if currentIndex <? firstOffset then
    match fuel with
    | O => Panic
    | S fuel' =>
        let nextIndex := add64 currentIndex BytesPerLengthOffset in
        nextOffset <-
          next_offset input startOffset firstOffset endOffset nextIndex ;;
        d <- elem_at items i ;;
        d1 <- instantiate_if_ptr d e ;;
        sub <- slice input currentOffset nextOffset ;;
        '(_, d') <- Unmarshal_ factory d1 e sub 0 ;;
        items' <- store items i d' ;;
        compositeArray_loop factory e input startOffset firstOffset
          endOffset fuel' (i + 1) items' nextIndex nextOffset
    end
  else Ok (currentIndex, items).

Definition compositeArraySSZ_Unmarshal (val : value) (typ : type)
  (input : list byte) (startOffset : Z) : result (Z * value) :=
  offsetVal <-
    slice input startOffset (add64 startOffset BytesPerLengthOffset) ;;
  o <- Uint32 offsetVal ;;
  let firstOffset := add64 startOffset o in
  let endOffset := len input in
  match typ with
  | TSlice _ => Panic
  | _ =>
      items <- SliceItems val ;;
      v0 <- elem_at items 0 ;;
      e <- Elem typ ;;
      factory <- SSZFactory v0 e ;;
      '(currentIndex, items') <-
        compositeArray_loop factory e input startOffset firstOffset
          endOffset (S (List.length input)) 0 items startOffset
          firstOffset ;;
      Ok (currentIndex, VList items')
  end.

(** *** [structSSZ] *)

(** First loop of [structSSZ.Marshal]: the length of the fixed part. *)
Fixpoint struct_fixedLength (typ : type) (val : value)
  (fs : list StructField) (i : Z) (fixedLength : Z) : result Z :=
  match fs with
  | [] => Ok fixedLength
  | f :: fs' =>
      fType <- determineFieldType f ;;
      if isVariableSizeType fType then
        struct_fixedLength typ val fs' (i + 1)
          (add64 fixedLength BytesPerLengthOffset)
      else
        isNilPtr <-
          match typ with
          | TPtr _ => IsNil val
          | _ => Ok false
          end ;;
        if isNilPtr then
          e <- Elem typ ;;
          let elem := zero e in
          struct_fixedLength typ val fs' (i + 1)
            (add64 fixedLength (determineFixedSize elem fType))
        else
          vs <- FieldValues val ;;
          v <- elem_at vs i ;;
          struct_fixedLength typ val fs' (i + 1)
            (add64 fixedLength (determineFixedSize v fType))
  end.

(** Second loop of [structSSZ.Marshal]: the two cursors. *)
Fixpoint struct_marshal_fields (val : value) (fs : list StructField)
  (i : Z) (buf : list byte) (startOffset fixedIndex currentOffsetIndex : Z)
  : result (Z * list byte) :=
  match fs with
  | [] => Ok (currentOffsetIndex, buf)
  | f :: fs' =>
      fType <- determineFieldType f ;;
      vs <- FieldValues val ;;
      v <- elem_at vs i ;;
      factory <- SSZFactory v fType ;;
      if negb (isVariableSizeType fType) then
        '(fixedIndex', buf') <- Marshal_ factory v fType buf fixedIndex ;;
        struct_marshal_fields val fs' (i + 1) buf' startOffset
          fixedIndex' currentOffsetIndex
      else
        '(nextOffsetIndex, buf1) <-
          Marshal_ factory v fType buf currentOffsetIndex ;;
        let offsetBuf :=
          PutUint32 (uint32 (sub64 currentOffsetIndex startOffset)) in
        buf2 <- copy_at buf1 fixedIndex offsetBuf ;;
        struct_marshal_fields val fs' (i + 1) buf2 startOffset
          (add64 fixedIndex BytesPerLengthOffset) nextOffsetIndex
  end.

Definition structSSZ_Marshal (val : value) (typ : type)
  (buf : list byte) (startOffset : Z) : result (Z * list byte) :=
  match typ with
  | TPtr e =>
      isnil <- IsNil val ;;
      if isnil then
        let newVal := zero e in
        Marshal_ structType newVal e buf startOffset
      else
        match val with
        | VPtr (Some v) => Marshal_ structType v e buf startOffset
        | _ => Panic
        end
  | _ =>
      fs <- Fields typ ;;
      fixedLength <- struct_fixedLength typ val fs 0 0 ;;
      let currentOffsetIndex := add64 startOffset fixedLength in
      struct_marshal_fields val fs 0 buf startOffset startOffset
        currentOffsetIndex
  end.

(** The fields counted by the first loop of [structSSZ.Unmarshal]. *)
Definition countFields (fs : list StructField) : nat :=
  List.length (filter (fun f => negb (Contains (Name f) "XXX_")) fs).

(** Second loop of [structSSZ.Unmarshal]: the map [fixedSizes], as the
    list of its entries for [i = 0 .. numFields-1] ([None]: no entry).
    Pointer slots of fixed-size fields are instantiated on the way. *)
Fixpoint struct_fixedSizes (fs : list StructField) (i : Z)
  (vs : list value) : result (list value * list (option Z)) :=
  match fs with
  | [] => Ok (vs, [])
  | f :: fs' =>
      fType <- determineFieldType f ;;
      if isVariableSizeType fType then
        '(vs', m) <- struct_fixedSizes fs' (i + 1) vs ;;
        Ok (vs', None :: m)
      else
        d <- elem_at vs i ;;
        d1 <- instantiate_if_ptr d fType ;;
        vs1 <- store vs i d1 ;;
        let concreteVal := d1 in
        let fixedSz := determineFixedSize concreteVal fType in
        '(vs', m) <- struct_fixedSizes fs' (i + 1) vs1 ;;
        Ok (vs', Some fixedSz :: m)
  end.

(** Third loop: the offsets read from the fixed part. *)
Fixpoint struct_offsets (fixedSizes : list (option Z)) (input : list byte)
  (startOffset offsetIndexCounter : Z) (offsets : list Z)
  : result (list Z) :=
  match fixedSizes with
  | [] => Ok offsets
  | Some item :: rest =>
      struct_offsets rest input startOffset
        (add64 offsetIndexCounter item) offsets
  | None :: rest =>
      if add64 offsetIndexCounter BytesPerLengthOffset >? len input then
        struct_offsets rest input startOffset
          (add64 offsetIndexCounter BytesPerLengthOffset) offsets
      else
        offsetVal <-
          slice input offsetIndexCounter
            (add64 offsetIndexCounter BytesPerLengthOffset) ;;
        o <- Uint32 offsetVal ;;
        struct_offsets rest input startOffset
          (add64 offsetIndexCounter BytesPerLengthOffset)
          (offsets ++ [add64 startOffset o])
  end.

(** Fourth loop: the fields are decoded. *)
Fixpoint struct_decode (fs : list StructField)
  (fixedSizes : list (option Z)) (i : Z) (input : list byte)
  (offsets : list Z) (offsetIndex : Z) (vs : list value)
  (currentIndex : Z) : result (Z * list value) :=
  match fs, fixedSizes with
  | [], _ => Ok (currentIndex, vs)
  | _ :: _, [] => Panic
  | f :: fs', entry :: rest =>
      fType <- determineFieldType f ;;
      d <- elem_at vs i ;;
      d1 <- instantiate_if_ptr d fType ;;
      vs1 <- store vs i d1 ;;
      factory <- SSZFactory d1 fType ;;
      match entry with
      | Some item =>
          if item =? 0 then
            struct_decode fs' rest (i + 1) input offsets offsetIndex vs1
              currentIndex
          else
            let nextIndex := add64 currentIndex item in
            sub <- slice input currentIndex nextIndex ;;
            '(_, d') <- Unmarshal_ factory d1 fType sub 0 ;;
            vs2 <- store vs1 i d' ;;
            struct_decode fs' rest (i + 1) input offsets offsetIndex vs2
              nextIndex
      | None =>
          firstOff <- elem_at offsets offsetIndex ;;
          if firstOff =? len input then
            struct_decode fs' rest (i + 1) input offsets offsetIndex vs1
              (add64 currentIndex BytesPerLengthOffset)
          else
            nextOff <- elem_at offsets (offsetIndex + 1) ;;
            if nextOff >? len input then
              Err "slice bounds out of range"
            else
              sub <- slice input firstOff nextOff ;;
              '(_, d') <- Unmarshal_ factory d1 fType sub 0 ;;
              vs2 <- store vs1 i d' ;;
              struct_decode fs' rest (i + 1) input offsets
                (offsetIndex + 1) vs2
                (add64 currentIndex BytesPerLengthOffset)
      end
  end.

Definition structSSZ_Unmarshal (val : value) (typ : type)
  (input : list byte) (startOffset : Z) : result (Z * value) :=
  match typ with
  | TPtr e =>
      isnil <- IsNil val ;;
      if isnil then Ok (startOffset, val)
      else
        match val with
        | VPtr (Some v) =>
            '(index, v') <- Unmarshal_ structType v e input startOffset ;;
            Ok (index, VPtr (Some v'))
        | _ => Panic
        end
  | _ =>
      let endOffset := len input in
      fs <- Fields typ ;;
      let numFields := countFields fs in
      let fs := firstn numFields fs in
      vs <- FieldValues val ;;
      '(vs1, fixedSizes) <- struct_fixedSizes fs 0 vs ;;
      offsets <- struct_offsets fixedSizes input startOffset startOffset [] ;;
      let offsets := offsets ++ [endOffset] in
      '(currentIndex, vs2) <-
        struct_decode fs fixedSizes 0 input offsets 0 vs1 startOffset ;;
      Ok (currentIndex, VStruct vs2)
  end.

End Codecs.

(** The method call [factory.Marshal(...)]: dynamic dispatch on the codec
    returned by [SSZFactory].  [fuel] bounds the nesting of the calls; the
    facade starts it above the depth of the type. *)
Fixpoint SSZAble_Marshal (fuel : nat) (factory : SSZAble) (val : value)
  (typ : type) (buf : list byte) (startOffset : Z)
  : result (Z * list byte) :=
  match fuel with
  | O => Panic
  | S fuel' =>
      let rec := SSZAble_Marshal fuel' in
      match factory with
      | basictype => basicSSZ_Marshal val typ buf startOffset
      | stringtype => stringSSZ_Marshal val typ buf startOffset
      | basicsliceType => basicSliceSSZ_Marshal rec val typ buf startOffset
      | compositesliceType =>
          compositeSliceSSZ_Marshal rec val typ buf startOffset
      | basicarrayType => basicArraySSZ_Marshal rec val typ buf startOffset
      | compositearrayType =>
          compositeArraySSZ_Marshal rec val typ buf startOffset
      | structType => structSSZ_Marshal rec val typ buf startOffset
      end
  end.

Fixpoint SSZAble_Unmarshal (fuel : nat) (factory : SSZAble) (val : value)
  (typ : type) (input : list byte) (startOffset : Z)
  : result (Z * value) :=
  match fuel with
  | O => Panic
  | S fuel' =>
      let rec := SSZAble_Unmarshal fuel' in
      match factory with
      | basictype => basicSSZ_Unmarshal val typ input startOffset
      | stringtype => stringSSZ_Unmarshal val typ input startOffset
      | basicsliceType =>
          basicSliceSSZ_Unmarshal rec val typ input startOffset
      | compositesliceType =>
          compositeSliceSSZ_Unmarshal rec val typ input startOffset
      | basicarrayType =>
          basicArraySSZ_Unmarshal rec val typ input startOffset
      | compositearrayType =>
          compositeArraySSZ_Unmarshal rec val typ input startOffset
      | structType => structSSZ_Unmarshal rec val typ input startOffset
      end
  end.

(** The nesting depth of a type. *)
Fixpoint type_depth (typ : type) : nat :=
  match typ with
  | TSlice e | TArray _ e | TPtr e => S (type_depth e)
  | TStruct fs =>
      S (fold_right (fun f acc => Nat.max (type_depth (FType f)) acc) O fs)
  | _ => O
  end.

(* ------------------------------------------------------------------ *)
(** ** [ssz.go]: the facade *)

(** An [interface{}] argument: untyped nil, or a value with its dynamic
    type and the optional fast-path methods [MarshalSSZ] / [UnmarshalSSZ]
    of [fssz.Marshaler] / [fssz.Unmarshaler]. *)
Record dynamic := mkDynamic {
  dyn_value : value;
  dyn_type : type;
  MarshalSSZ : option (result (list byte));
  UnmarshalSSZ : option (list byte -> result value)
}.

Definition plain (v : value) (t : type) : option dynamic :=
  Some (mkDynamic v t None None).

(** The method calls [factory.Marshal] and [factory.Unmarshal] as the
    facade issues them. *)
Definition factory_Marshal (factory : SSZAble) (val : value) (typ : type)
  (buf : list byte) (startOffset : Z) : result (Z * list byte) :=
  SSZAble_Marshal (S (S (type_depth typ))) factory val typ buf startOffset.

Definition factory_Unmarshal (factory : SSZAble) (val : value) (typ : type)
  (input : list byte) (startOffset : Z) : result (Z * value) :=
  SSZAble_Unmarshal (S (S (type_depth typ))) factory val typ input
    startOffset.

Section Facade.

Variable codec_Marshal :
  SSZAble -> value -> type -> list byte -> Z -> result (Z * list byte).
Variable codec_Unmarshal :
  SSZAble -> value -> type -> list byte -> Z -> result (Z * value).

Definition Marshal_with (val : option dynamic) : result (list byte) :=
  match val with
  | None => Err "untyped-value nil cannot be marshaled"
  | Some d =>
      match MarshalSSZ d with
      | Some r => r
      | None =>
          let rval := dyn_value d in
          let rtyp := dyn_type d in
          let buf := make_bytes (DetermineSize rval rtyp) in
          factory <- SSZFactory rval rtyp ;;
          match rtyp with
          | TPtr e =>
              isnil <- IsNil rval ;;
              if isnil then Ok buf
              else
                match rval with
                | VPtr (Some v) =>
                    '(_, buf') <-
                      Wrapf (codec_Marshal factory v e buf 0)
                        "failed to marshal for type" ;;
                    Ok buf'
                | _ => Panic
                end
          | _ =>
              '(_, buf') <-
                Wrapf (codec_Marshal factory rval rtyp buf 0)
                  "failed to marshal for type" ;;
              Ok buf'
          end
      end
  end.

(** [Unmarshal] returns the destination as it is after the call. *)
Definition Unmarshal_with (input : list byte) (val : option dynamic)
  : result value :=
  match val with
  | None => Err "cannot unmarshal into untyped, nil value"
  | Some d =>
      match UnmarshalSSZ d with
      | Some m => m input
      | None =>
          if len input =? 0 then
            Err "no data to unmarshal from, input is an empty byte slice []byte{}"
          else
            let rval := dyn_value d in
            let rtyp := dyn_type d in
            match rtyp with
            | TPtr e =>
                match rval with
                | VPtr None => Err "cannot output to pointer of nil value"
                | VPtr (Some v) =>
                    factory <- SSZFactory v e ;;
                    '(_, v') <-
                      Wrapf (codec_Unmarshal factory v e input 0)
                        "could not unmarshal input into type" ;;
                    let rval' := VPtr (Some v') in
                    let fixedSize := DetermineSize rval' rtyp in
                    let totalLength := len input in
                    if negb (totalLength =? fixedSize) then
                      Err "unexpected amount of data"
                    else Ok rval'
                | _ => Panic
                end
            | _ => Err "can only unmarshal into a pointer target"
            end
      end
  end.

End Facade.

Definition Marshal := Marshal_with factory_Marshal.
Definition Unmarshal := Unmarshal_with factory_Unmarshal.

(* ------------------------------------------------------------------ *)
(** ** [decode.go]: the closure based decoders *)

Definition decoder := list byte -> value -> Z -> result (Z * value).

(** [val.SetBool], [val.SetUint], [val.SetBytes]: each panics on a value of
    another kind. *)
Definition SetBool (val : value) (b : bool) : result value :=
  match val with VBool _ => Ok (VBool b) | _ => Panic end.

Definition SetUint (val : value) (n : Z) : result value :=
  match val with VUint _ => Ok (VUint n) | _ => Panic end.

Definition SetBytes (val : value) (bs : list byte) : result value :=
  match val with
  | VList _ => Ok (VList (map (fun b => VUint (Z_of_byte b)) bs))
  | _ => Panic
  end.

Definition decodeBool : decoder := fun input val startOffset =>
  b <- elem_at input startOffset ;;
  let v := Z_of_byte b in
  if v =? 0 then
    val' <- SetBool val false ;; Ok (add64 startOffset 1, val')
  else if v =? 1 then
    val' <- SetBool val true ;; Ok (add64 startOffset 1, val')
  else Err "expect 0 or 1 for decoding bool".

Definition decodeUint8 : decoder := fun input val startOffset =>
  b <- elem_at input startOffset ;;
  val' <- SetUint val (Z_of_byte b) ;;
  Ok (add64 startOffset 1, val').

Definition decodeUint16 : decoder := fun input val startOffset =>
  let offset := add64 startOffset 2 in
  buf <- slice input startOffset offset ;;
  n <- Uint16 buf ;;
  val' <- SetUint val n ;;
  Ok (offset, val').

Definition decodeUint32 : decoder := fun input val startOffset =>
  let offset := add64 startOffset 4 in
  buf <- slice input startOffset offset ;;
  n <- Uint32 buf ;;
  val' <- SetUint val n ;;
  Ok (offset, val').

Definition decodeUint64 : decoder := fun input val startOffset =>
  let offset := add64 startOffset 8 in
  buf <- slice input startOffset offset ;;
  n <- Uint64 buf ;;
  val' <- SetUint val n ;;
  Ok (offset, val').

Definition makeByteSliceDecoder : decoder := fun input val startOffset =>
  let offset := add64 startOffset (len input) in
  bs <- slice input startOffset offset ;;
  val' <- SetBytes val bs ;;
  Ok (offset, val').

(** [fmt.Errorf("failed to decode element of slice: %v", err)] *)
Definition Errorf {A} (msg : string) (r : result A) : result A :=
  match r with
  | Err m => Err (msg ++ ": " ++ m)%string
  | other => other
  end.

Section Decoders.

(** [typ], and the decoder of its element type:
    [elemSSZUtils.decoder]. *)
Variable typ : type.
Variable elem_decoder : decoder.

Fixpoint basicSliceDecoder_rest (input : list byte) (count : nat) (i : Z)
  (items : list value) (index : Z) : result (Z * list value) :=
  match count with
  | O => Ok (index, items)
  | S count' =>
      d <- elem_at items i ;;
      '(index', d') <-
        Errorf "failed to decode element of slice"
          (elem_decoder input d index) ;;
      items' <- store items i d' ;;
      basicSliceDecoder_rest input count' (i + 1) items' index'
  end.

Definition makeBasicSliceDecoder : decoder :=
  fun input val startOffset =>
    val1 <- growConcreteSliceType val typ 1 ;;
    items1 <- SliceItems val1 ;;
    d <- elem_at items1 0 ;;
    '(index, d') <-
      Errorf "failed to decode element of slice"
        (elem_decoder input d startOffset) ;;
    items2 <- store items1 0 d' ;;
    let elementSize := sub64 index startOffset in
    if elementSize =? 0 then Panic else
    let endOffset := len input / elementSize in
    val2 <- growConcreteSliceType (VList items2) typ endOffset ;;
    items3 <- SliceItems val2 ;;
    '(index', items4) <-
      basicSliceDecoder_rest input (Z.to_nat (endOffset - 1)) 1 items3
        index ;;
    Ok (index', VList items4).

Fixpoint compositeSliceDecoder_loop (input : list byte)
  (startOffset firstOffset endOffset : Z) (fuel : nat) (i : Z)
  (val : value) (currentIndex currentOffset : Z) : result (Z * value) :=
  if currentIndex <? firstOffset then
    match fuel with
    | O => Panic
    | S fuel' =>
        if currentOffset >? endOffset then Err "offset out of bounds"
        else
          let nextIndex := add64 currentIndex BytesPerLengthOffset in
          nextOffset <-
            next_offset input startOffset firstOffset endOffset nextIndex ;;
          if currentOffset >? nextOffset then
            Err "offsets must be increasing"
          else
            val1 <- growConcreteSliceType val typ (i + 1) ;;
            items <- SliceItems val1 ;;
            d <- elem_at items i ;;
            sub <- slice input currentOffset nextOffset ;;
            '(_, d') <-
              Errorf "failed to decode element of slice"
                (elem_decoder sub d 0) ;;
            items' <- store items i d' ;;
            compositeSliceDecoder_loop input startOffset firstOffset
              endOffset fuel' (i + 1) (VList items') nextIndex nextOffset
    end
  else Ok (currentIndex, val).

Definition makeCompositeSliceDecoder : decoder :=
  fun input val startOffset =>
    val1 <- growConcreteSliceType val typ 1 ;;
    let endOffset := len input in
    offsetVal <-
      slice input startOffset (add64 startOffset BytesPerLengthOffset) ;;
    o <- Uint32 offsetVal ;;
    let firstOffset := add64 startOffset o in
    compositeSliceDecoder_loop input startOffset firstOffset endOffset
      (S (List.length input)) 0 val1 startOffset firstOffset.

End Decoders.

(** A field of [structFields(typ)]: its name, the type of [val.Field(i)]
    and [f.sszUtils.decoder]. *)
Record field := mkDecField {
  field_name : string;
  field_type : type;
  sszUtils_decoder : decoder
}.

Section StructDecoder.

(** [structFields(typ)], and the two helpers of package [ssz] that are
    not among the sources, as they are applied to [val.Field(i)] and its
    type. *)
Variable fields : list field.
Variable determineFixedSize_ : value -> type -> Z.
Variable isVariableSizeType_ : value -> type -> bool.

(** [fixedSizes[i]] for [i = 0 .. len(fields)-1] *)
Fixpoint decoder_fixedSizes (fs : list field) (i : Z) (vs : list value)
  : result (list Z) :=
  match fs with
  | [] => Ok []
  | f :: fs' =>
      v <- elem_at vs i ;;
      let t := field_type f in
      let fixedSz := determineFixedSize_ v t in
      rest <- decoder_fixedSizes fs' (i + 1) vs ;;
      if negb (isVariableSizeType_ v t) && (fixedSz >? 0)
      then Ok (fixedSz :: rest)
      else Ok (0 :: rest)
  end.

(** The loop [for i, item := range fixedSizes]: the offset of a variable
    field is read at [input[i : i+BytesPerLengthOffset]], [i] being the
    index of the field, with [binary.LittleEndian.Uint64]. *)
Fixpoint decoder_offsets (fixedSizes : list Z) (i : Z) (input : list byte)
  (startOffset : Z) (offsets : list Z) (fixedEnd : Z)
  : result (list Z) :=
  match fixedSizes with
  | [] => Ok offsets
  | item :: rest =>
      if item >? 0 then
        decoder_offsets rest (i + 1) input startOffset offsets
          (add64 fixedEnd (add64 i item))
      else
        offsetVal <- slice input i (i + BytesPerLengthOffset) ;;
        o <- Uint64 offsetVal ;;
        decoder_offsets rest (i + 1) input startOffset
          (offsets ++ [add64 startOffset o])
          (add64 fixedEnd (u64 (i + BytesPerLengthOffset)))
  end.

Fixpoint decoder_fields (fs : list field) (fixedSizes : list Z) (i : Z)
  (input : list byte) (offsets : list Z) (offsetIndex : Z)
  (vs : list value) (currentIndex : Z) : result (list value) :=
  match fs, fixedSizes with
  | [], _ => Ok vs
  | _ :: _, [] => Panic
  | f :: fs', fieldSize :: rest =>
      if fieldSize >? 0 then
        let nextIndex := add64 currentIndex fieldSize in
        sub <- slice input currentIndex nextIndex ;;
        d <- elem_at vs i ;;
        '(_, d') <- sszUtils_decoder f sub d 0 ;;
        vs' <- store vs i d' ;;
        decoder_fields fs' rest (i + 1) input offsets offsetIndex vs'
          nextIndex
      else
        firstOff <- elem_at offsets offsetIndex ;;
        nextOff <- elem_at offsets (offsetIndex + 1) ;;
        sub <- slice input firstOff nextOff ;;
        d <- elem_at vs i ;;
        '(_, d') <- sszUtils_decoder f sub d 0 ;;
        vs' <- store vs i d' ;;
        decoder_fields fs' rest (i + 1) input offsets (offsetIndex + 1)
          vs' (add64 currentIndex BytesPerLengthOffset)
  end.

Definition makeStructDecoder : decoder :=
  fun input val startOffset =>
    let endOffset := len input in
    vs <- FieldValues val ;;
    fixedSizes <- decoder_fixedSizes fields 0 vs ;;
    offsets <- decoder_offsets fixedSizes 0 input startOffset [] 0 ;;
    let offsets := offsets ++ [endOffset] in
    vs' <- decoder_fields fields fixedSizes 0 input offsets 0 vs
             startOffset ;;
    Ok (0, VStruct vs').

End StructDecoder.

(* ------------------------------------------------------------------ *)
(** ** Concrete types, values and inputs *)

Definition bytes_of (l : list Z) : list byte := map byte_of_Z l.

Definition bytes_value (l : list Z) : value := VList (map VUint l).

(** [[][]byte] *)
Definition byteLists : type := TSlice (TSlice TUint8).

(** Offset table [8, 4]: the second offset is below the first. *)
Definition decreasing_offsets : list byte := bytes_of [8; 0; 0; 0; 4; 0; 0; 0].

(** [struct { A []byte }] *)
Definition structA : type := TStruct [mkField "A" (TSlice TUint8) None].

Definition fieldA : field := mkDecField "A" (TSlice TUint8) makeByteSliceDecoder.

(** [struct { L [][]byte `ssz-max:"1"` }] *)
Definition fieldL : StructField := mkField "L" byteLists (Some "1"%string).
Definition structL : type := TStruct [fieldL].

(** Three bytes for a [[]uint16]: one element and a half. *)
Definition three_bytes : list byte := bytes_of [1; 2; 3].

(** One offset, 8, and four bytes nobody reads. *)
Definition offset_and_rest : list byte :=
  bytes_of [8; 0; 0; 0; 222; 173; 190; 239].

(** A [[][]byte] of two elements inside [structL], whose limit is 1. *)
Definition two_elements : list byte :=
  bytes_of [4; 0; 0; 0; 8; 0; 0; 0; 9; 0; 0; 0; 1; 2].

(* ------------------------------------------------------------------ *)
(** ** Schemas, typed values and the byte layout, for the statements *)

(** The schemas of the data model: booleans, unsigned integers, vectors of
    at least one element, lists, containers of at least one field whose
    names do not carry the [XXX_] marker. *)
Fixpoint supported (t : type) : bool :=
  match t with
  | TBool | TUint8 | TUint16 | TUint32 | TUint64 => true
  | TSlice e => supported e
  | TArray n e => supported e && negb (Nat.eqb n 0)
  | TStruct fs =>
      negb (Nat.eqb (List.length fs) 0)
      && forallb (fun f => supported (FType f)
                           && negb (Contains (Name f) "XXX_")) fs
  | TComplex128 | TString | TPtr _ => false
  end.

Definition in_range (bits n : Z) : bool := (0 <=? n) && (n <? 2 ^ bits).

(** [has_type t v]: [v] is a value of the Go type [t]. *)
Fixpoint has_type (t : type) (v : value) {struct t} : bool :=
  match t, v with
  | TBool, VBool _ => true
  | TUint8, VUint n => in_range 8 n
  | TUint16, VUint n => in_range 16 n
  | TUint32, VUint n => in_range 32 n
  | TUint64, VUint n => in_range 64 n
  | TSlice e, VList items => forallb (has_type e) items
  | TArray n e, VList items =>
      Nat.eqb (List.length items) n && forallb (has_type e) items
  | TStruct fs, VStruct vs =>
      (fix go (fs : list StructField) (vs : list value) {struct fs} : bool :=
         match fs, vs with
         | [], [] => true
         | f :: fs', v :: vs' => has_type (FType f) v && go fs' vs'
         | _, _ => false
         end) fs vs
  | _, _ => false
  end.

(** The two-part layout of a composite.  Each child comes with its bytes
    and a flag telling whether it is variable-size: a fixed-size child
    sits in the fixed part, a variable-size child leaves its offset there
    and its bytes in the variable part. *)
Definition child := (bool * list byte)%type.

Fixpoint fixed_length (parts : list child) : Z :=
  match parts with
  | [] => 0
  | (true, _) :: rest => BytesPerLengthOffset + fixed_length rest
  | (false, b) :: rest => len b + fixed_length rest
  end.

Fixpoint fixed_part (parts : list child) (off : Z) : list byte :=
  match parts with
  | [] => []
  | (true, b) :: rest => PutUint32 off ++ fixed_part rest (off + len b)
  | (false, b) :: rest => b ++ fixed_part rest off
  end.

Fixpoint variable_part (parts : list child) : list byte :=
  match parts with
  | [] => []
  | (true, b) :: rest => b ++ variable_part rest
  | (false, _) :: rest => variable_part rest
  end.

Definition layout (parts : list child) : list byte :=
  fixed_part parts (fixed_length parts) ++ variable_part parts.

(** The serialization of a typed value, as a function. *)
Fixpoint enc (t : type) (v : value) {struct t} : list byte :=
  match t, v with
  | TBool, VBool b => [if b then x01 else x00]
  | TUint8, VUint n => le_bytes 1 n
  | TUint16, VUint n => le_bytes 2 n
  | TUint32, VUint n => le_bytes 4 n
  | TUint64, VUint n => le_bytes 8 n
  | TSlice e, VList items | TArray _ e, VList items =>
      layout (map (fun v => (isVariableSizeType e, enc e v)) items)
  | TStruct fs, VStruct vs =>
      layout
        ((fix go (fs : list StructField) (vs : list value) {struct fs}
            : list child :=
            match fs, vs with
            | f :: fs', v :: vs' =>
                (isVariableSizeType (FType f), enc (FType f) v) :: go fs' vs'
            | _, _ => []
            end) fs vs)
  | _, _ => []
  end.

(** The first [n] little-endian 32-bit numbers of [buf] from [pos] on. *)
Fixpoint offsets_at (buf : list byte) (pos : nat) (n : nat) : list Z :=
  match n with
  | O => []
  | S n' => le_value (firstn 4 (skipn pos buf)) :: offsets_at buf (pos + 4) n'
  end.

Fixpoint nondecreasing (l : list Z) : bool :=
  match l with
  | a :: ((b :: _) as rest) => (a <=? b) && nondecreasing rest
  | _ => true
  end.

(** The same type with every [ssz-max] directive replaced by [tag]. *)
Fixpoint retag (tag : option string) (t : type) : type :=
  match t with
  | TSlice e => TSlice (retag tag e)
  | TArray n e => TArray n (retag tag e)
  | TStruct fs =>
      TStruct (map (fun f => mkField (Name f) (retag tag (FType f)) tag) fs)
  | TPtr e => TPtr (retag tag e)
  | other => other
  end.

(** The children of a container and of a collection, one per field or
    element. *)
Fixpoint struct_children (fs : list StructField) (vs : list value)
  : list child :=
  match fs, vs with
  | f :: fs', v :: vs' =>
      (isVariableSizeType (FType f), enc (FType f) v) :: struct_children fs' vs'
  | _, _ => []
  end.

Definition list_children (e : type) (items : list value) : list child :=
  map (fun v => (isVariableSizeType e, enc e v)) items.

Fixpoint has_type_fields (fs : list StructField) (vs : list value) : bool :=
  match fs, vs with
  | [], [] => true
  | f :: fs', v :: vs' => has_type (FType f) v && has_type_fields fs' vs'
  | _, _ => false
  end.

Fixpoint size_fields (fs : list StructField) (vs : list value) : Z :=
  match fs, vs with
  | f :: fs', v :: vs' =>
      (if isVariableSizeType (FType f) then BytesPerLengthOffset else 0)
      + determineSize (FType f) v + size_fields fs' vs'
  | _, _ => 0
  end.

Definition supported_field (f : StructField) : bool :=
  supported (FType f) && negb (Contains (Name f) "XXX_").

(** A codec method that writes the serialization of every value of type
    [t] in place: the bytes displaced are [mid], the rest of the buffer is
    untouched and the index returned is the end of what was written. *)
Definition writes
  (Marshal_ : SSZAble -> value -> type -> list byte -> Z
              -> result (Z * list byte)) (t : type) : Prop :=
  forall v f pre mid post,
    has_type t v = true ->
    SSZFactory v t = Ok f ->
    len mid = len (enc t v) ->
    len (pre ++ mid ++ post) < 2 ^ 32 ->
    Marshal_ f v t (pre ++ mid ++ post) (len pre)
    = Ok (len pre + len (enc t v), pre ++ enc t v ++ post).

(** The codec [SSZFactory] selects for a supported schema. *)
Definition factory_of (t : type) : SSZAble :=
  match t with
  | TSlice e =>
      if isVariableSizeType e then compositesliceType else basicsliceType
  | TArray _ e =>
      if isVariableSizeType e then compositearrayType else basicarrayType
  | TStruct _ => structType
  | TString => stringtype
  | _ => basictype
  end.

(** The offsets of the children of a composite whose children are all
    variable-size: each is the previous one plus the size of the previous
    child. *)
Fixpoint running_offsets (parts : list child) (off : Z) : list Z :=
  match parts with
  | [] => []
  | (_, b) :: rest => off :: running_offsets rest (off + len b)
  end.

(** In a container whose first slots are [a], the slot after them is a
    field of type [*S]: stated for the fields [fs] that begin at index
    [i]. *)
Definition pointer_slot (S : type) (a : list value)
  (fs : list StructField) (i : Z) : Prop :=
  forall (j : nat) (f : StructField),
    i + Z.of_nat j = len a -> nth_error fs j = Some f -> FType f = TPtr S.

(** [struct { Slot uint64; Root [4]byte; Body *struct { Epoch uint64 } }] *)
Definition exampleBody : type := TStruct [mkField "Epoch" TUint64 None].
Definition example : type :=
  TStruct [mkField "Slot" TUint64 None;
           mkField "Root" (TArray 4 TUint8) None;
           mkField "Body" (TPtr exampleBody) None].

(** A codec method that reads back, into a zero destination, every value
    of the fixed-size type [t] from its serialization in the middle of the
    input, and returns the index after it. *)
Definition reads_fixed
  (Unmarshal_ : SSZAble -> value -> type -> list byte -> Z
                -> result (Z * value)) (t : type) : Prop :=
  forall v pre post,
    has_type t v = true ->
    len (pre ++ enc t v ++ post) < 2 ^ 32 ->
    Unmarshal_ (factory_of t) (zero t) t (pre ++ enc t v ++ post) (len pre)
    = Ok (len pre + len (enc t v), v).

(** A codec method that reads back, into a zero destination, every value
    of the variable-size type [t] from an input that is its
    serialization. *)
Definition reads_variable
  (Unmarshal_ : SSZAble -> value -> type -> list byte -> Z
                -> result (Z * value)) (t : type) : Prop :=
  forall v,
    has_type t v = true ->
    len (enc t v) < 2 ^ 32 ->
    exists index,
      Unmarshal_ (factory_of t) (zero t) t (enc t v) 0 = Ok (index, v).

Definition reads
  (Unmarshal_ : SSZAble -> value -> type -> list byte -> Z
                -> result (Z * value)) (t : type) : Prop :=
  (isVariableSizeType t = false -> reads_fixed Unmarshal_ t)
  /\ (isVariableSizeType t = true -> reads_variable Unmarshal_ t).

(** The offsets stored for the variable-size children. *)
Fixpoint var_offsets (parts : list child) (off : Z) : list Z :=
  match parts with
  | [] => []
  | (true, b) :: rest => off :: var_offsets rest (off + len b)
  | (false, _) :: rest => var_offsets rest off
  end.

(** The map [fixedSizes] of [structSSZ.Unmarshal] for the fields [fs], and
    the zero slots of a fresh destination. *)
Definition fixedSizes_of (fs : list StructField) : list (option Z) :=
  map (fun f => if isVariableSizeType (FType f) then None
                else Some (fixed_size (FType f))) fs.

Definition zero_fields (fs : list StructField) : list value :=
  map (fun f => zero (FType f)) fs.

(** [struct { a uint16; b []byte; c bool; d []uint32 }] and a value of it *)
Definition mixed : type :=
  TStruct [mkField "a" TUint16 None;
           mkField "b" (TSlice TUint8) None;
           mkField "c" TBool None;
           mkField "d" (TSlice TUint32) None].

Definition mixed_value : value :=
  VStruct [VUint 7; bytes_value [1; 2]; VBool true;
           VList [VUint 5; VUint 70000]].

(** The field [f] as [retag] rewrites it, and [structL] without its
    limit. *)
Definition retag_field (tag : option string) (f : StructField)
  : StructField :=
  mkField (Name f) (retag tag (FType f)) tag.

Definition structL_unlimited : type :=
  TStruct [mkField "L" byteLists None].

(* ------------------------------------------------------------------ *)
(** ** Further definitions for the statements *)

(** A [Marshal] method that leaves the length of the buffer as it is. *)
Definition keeps_length
  (Marshal_ : SSZAble -> value -> type -> list byte -> Z
              -> result (Z * list byte)) : Prop :=
  forall f v t buf off idx buf',
    Marshal_ f v t buf off = Ok (idx, buf') -> len buf' = len buf.

(** No field of [fs] carries the [XXX_] marker; every field of [fs]
    does. *)
Definition XXX_free (fs : list StructField) : bool :=
  forallb (fun f => negb (Contains (Name f) "XXX_")) fs.

Definition XXX_only (fs : list StructField) : bool :=
  forallb (fun f => Contains (Name f) "XXX_") fs.


(* ------------------------------------------------------------------ *)
(** ** [decode.go]: the array decoders *)

Section ArrayDecoders.

(** The decoder of the element type: [elemSSZUtils.decoder]. *)
Variable elem_decoder : decoder.

(** The loop [for i < size] of [makeBasicArrayDecoder]. *)
Fixpoint basicArrayDecoder_loop (input : list byte) (todo : nat) (i : Z)
  (items : list value) (index : Z) : result (Z * list value) :=
  match todo with
  | O => Ok (index, items)
  | S todo' =>
      d <- elem_at items i ;;
      '(index', d') <-
        Errorf "failed to decode element of array"
          (elem_decoder input d index) ;;
      items' <- store items i d' ;;
      basicArrayDecoder_loop input todo' (i + 1) items' index'
  end.

Definition makeBasicArrayDecoder : decoder :=
  fun input val startOffset =>
    items <- SliceItems val ;;
    '(index, items') <-
      basicArrayDecoder_loop input (List.length items) 0 items
        startOffset ;;
    Ok (index, VList items').

(** The loop [for currentIndex < firstOffset] of
    [makeCompositeArrayDecoder]; as in [compositeSlice_loop], [fuel]
    starts above the number of passes. *)
Fixpoint compositeArrayDecoder_loop (input : list byte)
  (startOffset firstOffset endOffset : Z) (fuel : nat) (i : Z)
  (val : value) (currentIndex currentOffset : Z) : result (Z * value) :=
  if currentIndex <? firstOffset then
    match fuel with
    | O => Panic
    | S fuel' =>
        if currentOffset >? endOffset then Err "offset out of bounds"
        else
          let nextIndex := add64 currentIndex BytesPerLengthOffset in
          nextOffset <-
            next_offset input startOffset firstOffset endOffset nextIndex ;;
          if currentOffset >? nextOffset then
            Err "offsets must be increasing"
          else
            sub <- slice input currentOffset nextOffset ;;
            items <- SliceItems val ;;
            d <- elem_at items i ;;
            '(_, d') <-
              Errorf "failed to decode element of slice"
                (elem_decoder sub d 0) ;;
            items' <- store items i d' ;;
            compositeArrayDecoder_loop input startOffset firstOffset
              endOffset fuel' (i + 1) (VList items') nextIndex nextOffset
    end
  else Ok (currentIndex, val).

Definition makeCompositeArrayDecoder : decoder :=
  fun input val startOffset =>
    offsetVal <-
      slice input startOffset (add64 startOffset BytesPerLengthOffset) ;;
    o <- Uint32 offsetVal ;;
    let firstOffset := add64 startOffset o in
    let endOffset := len input in
    compositeArrayDecoder_loop input startOffset firstOffset endOffset
      (S (List.length input)) 0 val startOffset firstOffset.

End ArrayDecoders.

(** The element decoder that goes through the codecs of package [types]:
    [SSZFactory(val, typ)] and then [factory.Unmarshal]. *)
Definition codec_decoder
  (Unmarshal_ : SSZAble -> value -> type -> list byte -> Z
                -> result (Z * value)) (e : type) : decoder :=
  fun input d startOffset =>
    factory <- SSZFactory d e ;;
    Unmarshal_ factory d e input startOffset.

(** The decoders [makeDecoder] returns for the unsigned integers wider
    than a byte, with the number of bytes each reads. *)
Definition uint_decoders : list (type * nat * decoder) :=
  [(TUint16, 2%nat, decodeUint16);
   (TUint32, 4%nat, decodeUint32);
   (TUint64, 8%nat, decodeUint64)].

(** The bytes of the [w]-byte little-endian numbers [ns], one after the
    other, and the numbers that fit [w] bytes. *)
Definition uints_bytes (w : nat) (ns : list Z) : list byte :=
  List.concat (map (le_bytes w) ns).

Definition all_below (w : nat) (ns : list Z) : Prop :=
  Forall (fun n => 0 <= n < 2 ^ (8 * Z.of_nat w)) ns.

(** [example] with a nil [Body]. *)
Definition example_nil_body : value :=
  VStruct [VUint 5; bytes_value [1; 2; 3; 4]; VPtr None].

(* ------------------------------------------------------------------ *)
(** ** [types/array_roots.go] *)

(** The Go [int] of a 64-bit platform: a two's complement number of 64
    bits, as the [Z] it stands for. *)
Definition int64 (z : Z) : Z := (z + 2 ^ 63) mod 2 ^ 64 - 2 ^ 63.

(** [isPowerOf2]: [n != 0 && (n&(n-1)) == 0] *)
Definition isPowerOf2 (n : Z) : bool :=
  negb (n =? 0) && (Z.land n (int64 (n - 1)) =? 0).

(** [toBytes32], as [ssz_test.go] writes it: [var y [32]byte] and
    [copy(y[:], x)]. *)
Definition toBytes32 (x : list byte) : list byte :=
  firstn 32 x ++ repeat x00 (32 - List.length x).

(** The field [layers] of [rootsArraySSZ], a [map[string][][][]byte]: a
    key without an entry reads as the nil slice. *)
Definition layers_map := string -> list (list (list byte)).

(** [a.layers[fieldName][i] = layer] *)
Definition set_layer (layers : layers_map) (fieldName : string) (i : Z)
  (layer : list (list byte)) : result layers_map :=
  l <- store (layers fieldName) i layer ;;
  Ok (fun name => if String.eqb name fieldName then l else layers name).

Section Merkleize.

(** Three names of package [types] that are not among the sources: the
    hash function (its [[32]byte] result as a byte list), the size of a
    chunk and the switch of the cache. *)
Variable hash : list byte -> list byte.
Variable BytesPerChunk : Z.
Variable enableCache : bool.

(** The loop [for !isPowerOf2(len(chunks))]: one zero chunk is appended
    per pass.  [fuel] bounds the passes; [merkleize] starts it above the
    number of chunks. *)
Fixpoint pad_chunks (fuel : nat) (chunks : list (list byte))
  : result (list (list byte)) :=
  if isPowerOf2 (len chunks) then Ok chunks
  else
    match fuel with
    | O => Panic
    | S fuel' => pad_chunks fuel' (chunks ++ [make_bytes BytesPerChunk])
    end.

(** The inner loop [for i := 0; i < len(hashLayer); i += 2]: the chunks
    are hashed two by two; [hashLayer[i+1]] is out of range when the
    number of chunks is odd. *)
Fixpoint hash_pairs (hashLayer : list (list byte))
  : result (list (list byte)) :=
  match hashLayer with
  | [] => Ok []
  | [_] => Panic
  | a :: b :: rest =>
      layer <- hash_pairs rest ;;
      Ok (hash (a ++ b) :: layer)
  end.

(** The loop [for len(hashLayer) > 1]; [i] is the index of the layer that
    is computed next. *)
Fixpoint merkleize_layers (fuel : nat) (fieldName : string) (i : Z)
  (hashLayer : list (list byte)) (layers : layers_map)
  : result (list (list byte) * layers_map) :=
  if len hashLayer >? 1 then
    match fuel with
    | O => Panic
    | S fuel' =>
        layer <- hash_pairs hashLayer ;;
        layers' <-
          (if enableCache && negb (String.eqb fieldName "")
           then set_layer layers fieldName i layer
           else Ok layers) ;;
        merkleize_layers fuel' fieldName (i + 1) layer layers'
    end
  else Ok (hashLayer, layers).

(** [merkleize]: the root and the cache as the call leaves it. *)
Definition merkleize (chunks : list (list byte)) (fieldName : string)
  (layers : layers_map) : result (list byte * layers_map) :=
  if len chunks =? 1 then
    c <- elem_at chunks 0 ;;
    Ok (toBytes32 c, layers)
  else
    chunks' <- pad_chunks (S (List.length chunks)) chunks ;;
    let hashLayer := chunks' in
    layers0 <-
      (if enableCache && negb (String.eqb fieldName "")
       then set_layer layers fieldName 0 hashLayer
       else Ok layers) ;;
    '(top, layers') <-
      merkleize_layers (List.length hashLayer) fieldName 1 hashLayer
        layers0 ;;
    c <- elem_at top 0 ;;
    Ok (toBytes32 c, layers').

End Merkleize.

(** The root of the full binary tree of depth [k] over [2^k] chunks: a
    node is the hash of its two children, one after the other. *)
Fixpoint tree_root (hash : list byte -> list byte) (k : nat)
  (chunks : list (list byte)) : list byte :=
  match k with
  | O => match chunks with c :: _ => c | [] => [] end
  | S k' =>
      hash (tree_root hash k' (firstn (2 ^ k') chunks)
            ++ tree_root hash k' (skipn (2 ^ k') chunks))
  end.

(** The bytes of a [[32]byte] or [[]byte] value. *)
Fixpoint uint8s (items : list value) : result (list byte) :=
  match items with
  | [] => Ok []
  | VUint n :: rest =>
      bs <- uint8s rest ;;
      Ok (byte_of_Z n :: bs)
  | _ :: _ => Panic
  end.

Definition value_bytes (v : value) : result (list byte) :=
  match v with
  | VList items => uint8s items
  | _ => Panic
  end.

(** The two type assertions of [rootsArraySSZ.Marshal] on an element of
    type [e]: a [[32]byte] is taken as it is, a [[]byte] goes through
    [toBytes32], anything else is the error. *)
Definition root_item (e : type) (v : value) : result (list byte) :=
  match e with
  | TArray n TUint8 =>
      if Nat.eqb n 32 then value_bytes v
      else Err "expected array or slice of len 32"
  | TSlice TUint8 =>
      res <- value_bytes v ;;
      Ok (toBytes32 res)
  | _ => Err "expected array or slice of len 32"
  end.

Fixpoint rootsArray_marshal_loop (e : type) (items : list value)
  (buf : list byte) (index : Z) : result (Z * list byte) :=
  match items with
  | [] => Ok (index, buf)
  | v :: rest =>
      item <- root_item e v ;;
      buf' <- copy_at buf index item ;;
      rootsArray_marshal_loop e rest buf' (add64 index 32)
  end.

Definition rootsArraySSZ_Marshal (val : value) (typ : type)
  (buf : list byte) (startOffset : Z) : result (Z * list byte) :=
  items <- Items val ;;
  if len items =? 0 then Ok (startOffset, buf) else
  e <- Elem typ ;;
  rootsArray_marshal_loop e items buf startOffset.

(** The loop [for i < val.Len()] of [rootsArraySSZ.Unmarshal];
    [SetBytes] panics unless the element is a slice of bytes. *)
Fixpoint rootsArray_unmarshal_loop (typ : type) (input : list byte)
  (todo : nat) (i : Z) (items : list value) (index : Z)
  : result (Z * list value) :=
  match todo with
  | O => Ok (index, items)
  | S todo' =>
      d <- elem_at items i ;;
      bs <- slice input index (add64 index 32) ;;
      e <- Elem typ ;;
      d' <- match e with
            | TSlice TUint8 => SetBytes d bs
            | _ => Panic
            end ;;
      items' <- store items i d' ;;
      rootsArray_unmarshal_loop typ input todo' (i + 1) items'
        (add64 index 32)
  end.

Definition rootsArraySSZ_Unmarshal (val : value) (typ : type)
  (input : list byte) (startOffset : Z) : result (Z * value) :=
  items <- SliceItems val ;;
  '(index, items') <-
    rootsArray_unmarshal_loop typ input (List.length items) 0 items
      startOffset ;;
  Ok (index, VList items').

(** The value [SetBytes] stores for the bytes [bs]. *)
Definition value_of_bytes (bs : list byte) : value :=
  VList (map (fun b => VUint (Z_of_byte b)) bs).

(** [[][]byte] *)
Definition roots_type : type := TSlice (TSlice TUint8).

(** What [rootsArraySSZ.Marshal] writes for the roots: each one through
    [toBytes32]. *)
Definition roots_bytes (roots : list (list byte)) : list byte :=
  List.concat (map toBytes32 roots).


(* ------------------------------------------------------------------ *)
(** ** [types/array_composite.go]: the [ssz-size] directive *)

(** A [reflect.StructField] together with what [Tag.Lookup] finds under
    the key [ssz-size]. *)
Record SizedField := mkSized {
  sized_field : StructField;
  Tag_ssz_size : option string
}.

Definition UnboundedSSZFieldSizeMarker : string := "?".

(** [strings.Split(s, ",")] *)
Fixpoint Split_comma (s : string) : list string :=
  match s with
  | EmptyString => [EmptyString]
  | String c s' =>
      if Ascii.eqb c "," then EmptyString :: Split_comma s'
      else
        match Split_comma s' with
        | item :: items => String c item :: items
        | [] => [String c EmptyString]
        end
  end.

(** The loop of [parseSSZFieldTags] over the items of the tag. *)
Fixpoint parse_sizes (items : list string) : result (list Z) :=
  match items with
  | [] => Ok []
  | item :: rest =>
      if String.eqb item UnboundedSSZFieldSizeMarker then
        sizes <- parse_sizes rest ;;
        Ok (0 :: sizes)
      else
        match ParseUint item with
        | Some n =>
            sizes <- parse_sizes rest ;;
            Ok (n :: sizes)
        | None => Err "strconv.ParseUint"
        end
  end.

(** [parseSSZFieldTags]: the sizes with the flag [exists] as an option. *)
Definition parseSSZFieldTags (field : SizedField)
  : result (option (list Z)) :=
  match Tag_ssz_size field with
  | None => Ok None
  | Some tag =>
      sizes <- parse_sizes (Split_comma tag) ;;
      Ok (Some sizes)
  end.

Section InferFieldType.

(** [reflect.ArrayOf], a function of the Go library: it panics on a
    negative length and on an array that exceeds the address space. *)
Variable ArrayOf : Z -> type -> result type.

(** [innerElement = innerElement.Elem()], [n] times. *)
Fixpoint Elem_times (n : nat) (t : type) : result type :=
  match n with
  | O => Ok t
  | S n' => e <- Elem t ;; Elem_times n' e
  end.

(** The loop [for i := len(sizes) - 1; i >= 0; i--], over the sizes from
    the last to the first. *)
Fixpoint wrap_sizes (reversed : list Z) (currentType : type)
  : result type :=
  match reversed with
  | [] => Ok currentType
  | size :: rest =>
      t <- (if size =? 0 then Ok (TSlice currentType)
            else ArrayOf (int64 size) currentType) ;;
      wrap_sizes rest t
  end.

Definition inferFieldTypeFromSizeTags (field : SizedField)
  (sizes : list Z) : result type :=
  innerElement <- Elem (FType (sized_field field)) ;;
  innerElement <- Elem_times (List.length sizes - 1) innerElement ;;
  wrap_sizes (rev sizes) innerElement.

(** [determineFieldType] for a field that may carry the directive. *)
Definition determineFieldType_sized (field : SizedField) : result type :=
  match parseSSZFieldTags field with
  | Err m => Err ("could not parse ssz struct field tags: " ++ m)%string
  | Panic => Panic
  | Ok (Some fieldSizeTags) =>
      inferFieldTypeFromSizeTags field fieldSizeTags
  | Ok None => Ok (FType (sized_field field))
  end.

End InferFieldType.

(** The text of a decimal number from its digits, the number it writes,
    and the items of a tag: [None] is the marker [?]. *)
Definition digit_char (d : Z) : ascii := ascii_of_N (Z.to_N (48 + d)).

Fixpoint string_of_digits (ds : list Z) : string :=
  match ds with
  | [] => EmptyString
  | d :: rest => String (digit_char d) (string_of_digits rest)
  end.

Definition digits_value (ds : list Z) : Z :=
  fold_left (fun acc d => acc * 10 + d) ds 0.

Definition is_digits (ds : list Z) : Prop :=
  ds <> [] /\ Forall (fun d => 0 <= d <= 9) ds.

Definition item_string (item : option (list Z)) : string :=
  match item with
  | None => "?"
  | Some ds => string_of_digits ds
  end.

Definition item_value (item : option (list Z)) : Z :=
  match item with
  | None => 0
  | Some ds => digits_value ds
  end.

Definition is_item (item : option (list Z)) : Prop :=
  match item with
  | None => True
  | Some ds => is_digits ds /\ digits_value ds < 2 ^ 64
  end.

Fixpoint join_comma (items : list string) : string :=
  match items with
  | [] => EmptyString
  | [item] => item
  | item :: rest => (item ++ "," ++ join_comma rest)%string
  end.

(** The type that has the levels [sizes] around [inner]: a slice for the
    size 0, an array otherwise. *)
Fixpoint nest (sizes : list Z) (inner : type) : type :=
  match sizes with
  | [] => inner
  | size :: rest =>
      if size =? 0 then TSlice (nest rest inner)
      else TArray (Z.to_nat size) (nest rest inner)
  end.

(** Some character of the string is not a decimal digit. *)
Fixpoint has_non_digit (s : string) : bool :=
  match s with
  | EmptyString => false
  | String c s' =>
      match digit_of c with
      | Some _ => has_non_digit s'
      | None => true
      end
  end.

(** A string without a comma, and an item of a tag that is neither the
    marker nor a decimal number. *)
Definition no_comma (s : string) : Prop :=
  forall (i : nat), String.get i s <> Some ","%char.

Definition bad_item (item : string) : Prop :=
  item <> UnboundedSSZFieldSizeMarker
  /\ (item = EmptyString \/ has_non_digit item = true).

(** A codec method whose result on the fixed-size type [t] does not
    depend on what a destination of that type holds. *)
Definition ignores_destination
  (Unmarshal_ : SSZAble -> value -> type -> list byte -> Z
                -> result (Z * value)) (t : type) : Prop :=
  forall d input off,
    has_type t d = true ->
    Unmarshal_ (factory_of t) d t input off
    = Unmarshal_ (factory_of t) (zero t) t input off.

Section RecomputeRoot.

Variable hash : list byte -> list byte.

(** [1 << uint64(i)] as a [uint64] *)
Definition shl1 (i : Z) : Z := u64 (2 ^ i).

(** The loop of [recomputeRoot]: [todo] passes are left, [i] is the
    layer of [root]. *)
Fixpoint recomputeRoot_loop (fieldName : string) (idx : Z) (todo : nat)
  (i : Z) (root : list byte) (layers : layers_map)
  : result (list byte * layers_map) :=
  match todo with
  | O => Ok (root, layers)
  | S todo' =>
      if shl1 i =? 0 then Panic else
      let subIndex := Z.lxor (u64 idx / shl1 i) 1 in
      let isLeft := u64 idx / shl1 i in
      if shl1 (i + 1) =? 0 then Panic else
      let parentIdx := u64 idx / shl1 (i + 1) in
      layer <- elem_at (layers fieldName) i ;;
      item <- elem_at layer subIndex ;;
      let root' :=
        if negb (isLeft mod 2 =? 0) then hash (item ++ root)
        else hash (root ++ item) in
      parents <- elem_at (layers fieldName) (i + 1) ;;
      parents' <- store parents parentIdx root' ;;
      layers' <- set_layer layers fieldName (i + 1) parents' ;;
      recomputeRoot_loop fieldName idx todo' (i + 1) root' layers'
  end.

(** [recomputeRoot]: the root and the cache as the call leaves it. *)
Definition recomputeRoot (idx : Z) (chunks : list (list byte))
  (fieldName : string) (layers : layers_map)
  : result (list byte * layers_map) :=
  root <- elem_at chunks idx ;;
  '(root', layers') <-
    recomputeRoot_loop fieldName idx
      (Z.to_nat (len (layers fieldName) - 1)) 0 root layers ;;
  Ok (toBytes32 root', layers').

End RecomputeRoot.

(** The layer above a layer, the layers of the full tree of depth [k]
    from the leaves up to the root, and a list with one element
    replaced. *)
Fixpoint pairs (hash : list byte -> list byte) (l : list (list byte))
  : list (list byte) :=
  match l with
  | a :: b :: rest => hash (a ++ b) :: pairs hash rest
  | _ => []
  end.

Fixpoint tree_layers (hash : list byte -> list byte) (k : nat)
  (leaves : list (list byte)) : list (list (list byte)) :=
  match k with
  | O => [leaves]
  | S k' => leaves :: tree_layers hash k' (pairs hash leaves)
  end.

Definition replace_at {A} (l : list A) (i : nat) (x : A) : list A :=
  firstn i l ++ x :: skipn (S i) l.

(** The sibling of the node [p] of a layer, and the hash of the node of
    content [x] with its sibling in the layer [l], the left one first. *)
Definition sibling (p : nat) : nat :=
  if Nat.even p then S p else pred p.

Definition parent_hash (hash : list byte -> list byte)
  (l : list (list byte)) (p : nat) (x : list byte) : list byte :=
  if Nat.even p then hash (x ++ nth (S p) l [])
  else hash (nth (pred p) l [] ++ x).

(* ------------------------------------------------------------------ *)
(** * Properties *)

(** ** Bytes and little-endian numbers *)

Lemma Z_of_byte_range (b : byte) : 0 <= Z_of_byte b < 256.
Proof.
  unfold Z_of_byte. pose proof (Byte.to_N_bounded b). lia.
Qed.

Lemma Z_of_byte_of_Z (z : Z) : Z_of_byte (byte_of_Z z) = z mod 256.
Proof.
  unfold Z_of_byte, byte_of_Z.
  assert (Hr : 0 <= z mod 256 < 256) by (apply Z.mod_pos_bound; lia).
  destruct (Byte.of_N (Z.to_N (z mod 256))) as [b|] eqn:E.
  - apply Byte.to_of_N in E. rewrite E. lia.
  - apply Byte.of_N_None_iff in E. lia.
Qed.

Lemma byte_of_Z_of_byte (b : byte) : byte_of_Z (Z_of_byte b) = b.
Proof.
  unfold byte_of_Z, Z_of_byte.
  pose proof (Byte.to_N_bounded b).
  rewrite Z.mod_small by lia.
  rewrite N2Z.id, Byte.of_to_N. reflexivity.
Qed.

Lemma length_le_bytes (n : nat) (v : Z) : List.length (le_bytes n v) = n.
Proof.
  revert v. induction n as [|n IH]; intros v; simpl; [reflexivity|].
  now rewrite IH.
Qed.

Lemma le_value_le_bytes (n : nat) (v : Z) :
  le_value (le_bytes n v) = v mod 2 ^ (8 * Z.of_nat n).
Proof.
  revert v. induction n as [|n IH]; intros v.
  - simpl. now rewrite Z.mod_1_r.
  - cbn [le_bytes le_value]. rewrite IH, Z_of_byte_of_Z.
    rewrite Z.shiftl_mul_pow2, Z.shiftr_div_pow2 by lia.
    replace (8 * Z.of_nat (S n)) with (8 + 8 * Z.of_nat n) by lia.
    rewrite Z.pow_add_r by lia.
    change (2 ^ 8) with 256.
    rewrite Z.rem_mul_r by lia.
    lia.
Qed.

Lemma le_value_le_bytes_small (n : nat) (v : Z) :
  0 <= v < 2 ^ (8 * Z.of_nat n) -> le_value (le_bytes n v) = v.
Proof.
  intros H. rewrite le_value_le_bytes. now apply Z.mod_small.
Qed.

Lemma u64_small (z : Z) : 0 <= z < 2 ^ 64 -> u64 z = z.
Proof. intros H. unfold u64. now apply Z.mod_small. Qed.

Lemma add64_small (a b : Z) : 0 <= a + b < 2 ^ 64 -> add64 a b = a + b.
Proof. intros H. unfold add64. now apply u64_small. Qed.

Lemma sub64_small (a b : Z) : 0 <= a - b < 2 ^ 64 -> sub64 a b = a - b.
Proof. intros H. unfold sub64. now apply u64_small. Qed.

(** ** Lists as Go slices *)

Lemma len_app {A} (l1 l2 : list A) : len (l1 ++ l2) = len l1 + len l2.
Proof. unfold len. rewrite length_app. lia. Qed.

Lemma len_nonneg {A} (l : list A) : 0 <= len l.
Proof. unfold len. lia. Qed.

Lemma len_cons {A} (x : A) (l : list A) : len (x :: l) = 1 + len l.
Proof. unfold len. cbn [List.length]. lia. Qed.

Lemma len_nil {A} : len (@nil A) = 0.
Proof. reflexivity. Qed.

Lemma len_map {A B} (f : A -> B) (l : list A) : len (map f l) = len l.
Proof. unfold len. now rewrite length_map. Qed.

Lemma len_repeat {A} (x : A) (n : nat) : len (repeat x n) = Z.of_nat n.
Proof. unfold len. now rewrite repeat_length. Qed.

Lemma len_le_bytes (n : nat) (v : Z) : len (le_bytes n v) = Z.of_nat n.
Proof. unfold len. now rewrite length_le_bytes. Qed.

Lemma firstn_len_app {A} (l1 l2 : list A) :
  firstn (Z.to_nat (len l1)) (l1 ++ l2) = l1.
Proof.
  unfold len. rewrite Nat2Z.id.
  rewrite firstn_app, Nat.sub_diag, firstn_all. simpl. apply app_nil_r.
Qed.

Lemma skipn_len_app {A} (l1 l2 : list A) :
  skipn (Z.to_nat (len l1)) (l1 ++ l2) = l2.
Proof.
  unfold len. rewrite Nat2Z.id.
  rewrite skipn_app, Nat.sub_diag, skipn_all. reflexivity.
Qed.

Lemma slice_app {A} (pre mid post : list A) (lo hi : Z) :
  lo = len pre -> hi = len pre + len mid ->
  slice (pre ++ mid ++ post) lo hi = Ok mid.
Proof.
  intros -> ->. unfold slice.
  pose proof (len_nonneg pre). pose proof (len_nonneg mid).
  pose proof (len_nonneg post).
  rewrite !len_app.
  replace ((0 <=? len pre) && (len pre <=? len pre + len mid)
           && (len pre + len mid <=? len pre + (len mid + len post)))
    with true
    by (symmetry; rewrite !andb_true_iff, !Z.leb_le; lia).
  rewrite skipn_len_app.
  replace (len pre + len mid - len pre) with (len mid) by lia.
  now rewrite firstn_len_app.
Qed.

Lemma slice_all {A} (l : list A) : slice l 0 (len l) = Ok l.
Proof.
  pose proof (slice_app [] l [] 0 (len l) eq_refl eq_refl) as H.
  simpl in H. now rewrite app_nil_r in H.
Qed.

Lemma slice_prefix {A} (mid post : list A) (hi : Z) :
  hi = len mid -> slice (mid ++ post) 0 hi = Ok mid.
Proof.
  intros ->. now apply (slice_app [] mid post).
Qed.

Lemma copy_at_app (pre mid post src : list byte) (lo : Z) :
  lo = len pre -> len mid = len src ->
  copy_at (pre ++ mid ++ post) lo src = Ok (pre ++ src ++ post).
Proof.
  intros -> Hl. unfold copy_at.
  pose proof (len_nonneg pre). pose proof (len_nonneg mid).
  pose proof (len_nonneg post).
  rewrite !len_app.
  replace ((0 <=? len pre)
           && (len pre + len src <=? len pre + (len mid + len post)))
    with true
    by (symmetry; rewrite !andb_true_iff, !Z.leb_le; lia).
  rewrite firstn_len_app.
  replace (len pre + len src) with (len (pre ++ mid))
    by (rewrite len_app; lia).
  replace (skipn (Z.to_nat (len (pre ++ mid))) (pre ++ mid ++ post))
    with post; [reflexivity|].
  rewrite (app_assoc pre mid post). now rewrite skipn_len_app.
Qed.

Lemma store_app {A} (pre post : list A) (x y : A) (i : Z) :
  i = len pre ->
  store (pre ++ x :: post) i y = Ok (pre ++ y :: post).
Proof.
  intros ->. unfold store.
  pose proof (len_nonneg pre). pose proof (len_nonneg post).
  rewrite len_app, len_cons.
  replace ((0 <=? len pre) && (len pre <? len pre + (1 + len post)))
    with true
    by (symmetry; rewrite andb_true_iff, Z.leb_le, Z.ltb_lt; lia).
  rewrite firstn_len_app.
  replace (S (Z.to_nat (len pre))) with (Z.to_nat (len (pre ++ [x])))
    by (rewrite len_app, len_cons, len_nil; lia).
  replace (pre ++ x :: post) with ((pre ++ [x]) ++ post)
    by (now rewrite <- app_assoc).
  now rewrite skipn_len_app.
Qed.

Lemma elem_at_app {A} (pre post : list A) (x : A) (i : Z) :
  i = len pre -> elem_at (pre ++ x :: post) i = Ok x.
Proof.
  intros ->. unfold elem_at.
  pose proof (len_nonneg pre). pose proof (len_nonneg post).
  rewrite len_app, len_cons.
  replace ((0 <=? len pre) && (len pre <? len pre + (1 + len post)))
    with true
    by (symmetry; rewrite andb_true_iff, Z.leb_le, Z.ltb_lt; lia).
  unfold len. rewrite Nat2Z.id, nth_error_app2 by lia.
  now rewrite Nat.sub_diag.
Qed.

(** ** [stringSSZ] *)

Lemma stringSSZ_Marshal_loop_spec (s : list byte) :
  forall (pre done mid post : list byte),
    len mid = len s ->
    stringSSZ_Marshal_loop (map (fun b => VUint (Z_of_byte b)) s)
      (pre ++ done ++ mid ++ post) (len pre) (len done)
    = Ok (pre ++ done
          ++ map (fun c => byte_of_Z (Z_of_byte c)) s ++ post).
Proof.
  induction s as [|c s IH]; intros pre done mid post Hl.
  - destruct mid as [|m mid]; [reflexivity|].
    rewrite len_cons, len_nil in Hl. pose proof (len_nonneg mid). lia.
  - destruct mid as [|m mid].
    { rewrite len_cons, len_nil in Hl. pose proof (len_nonneg s). lia. }
    rewrite !len_cons in Hl.
    cbn [map stringSSZ_Marshal_loop ValUint bind].
    replace (pre ++ done ++ (m :: mid) ++ post)
      with ((pre ++ done) ++ m :: (mid ++ post))
      by (now rewrite <- app_assoc).
    rewrite (store_app (pre ++ done) (mid ++ post) m)
      by (rewrite len_app; lia).
    cbn [bind].
    replace ((pre ++ done) ++ byte_of_Z (Z_of_byte c) :: mid ++ post)
      with (pre ++ (done ++ [byte_of_Z (Z_of_byte c)]) ++ mid ++ post)
      by (now rewrite <- !app_assoc).
    replace (len done + 1) with (len (done ++ [byte_of_Z (Z_of_byte c)]))
      by (rewrite len_app, len_cons, len_nil; lia).
    rewrite IH by lia.
    now rewrite <- !app_assoc.
Qed.

(** C10.  [stringSSZ] on a string [s] (a Go string is its bytes): [Marshal]
    writes exactly [len(s)] bytes at [startOffset], the low eight bits of
    each character in order, which are the characters themselves, and
    leaves the rest of the buffer alone; [Unmarshal] of those bytes
    restores a string equal to [s]. *)
Theorem stringSSZ_roundtrip (s d pre mid post : list byte) :
  len mid = len s ->
  len pre + len s < 2 ^ 64 ->
  let written := map (fun c => byte_of_Z (Z_of_byte c)) s in
  stringSSZ_Marshal (VString s) TString (pre ++ mid ++ post) (len pre)
    = Ok (len pre + len s, pre ++ written ++ post)
  /\ len written = len s
  /\ stringSSZ_Unmarshal (VString d) TString written 0
     = Ok (len s, VString s).
Proof.
  intros Hl Hb written.
  pose proof (len_nonneg pre). pose proof (len_nonneg s).
  assert (Hw : written = s).
  { unfold written. rewrite <- (map_id s) at 2. apply map_ext.
    intros c. apply byte_of_Z_of_byte. }
  split; [|split].
  - unfold stringSSZ_Marshal. cbn [Items bind].
    pose proof (stringSSZ_Marshal_loop_spec s pre [] mid post Hl) as L.
    cbn [app] in L. rewrite len_nil in L. rewrite L. cbn [bind].
    rewrite len_map, add64_small by lia. reflexivity.
  - unfold written. apply len_map.
  - rewrite Hw. unfold stringSSZ_Unmarshal.
    rewrite add64_small by lia. cbn [Z.add].
    rewrite slice_all. reflexivity.
Qed.

Lemma stringSSZ_roundtrip_witness :
  let s := ["h"%byte; "i"%byte] in
  stringSSZ_Marshal (VString s) TString
    ([x00] ++ [x00; x00] ++ [x00]) (len [x00])
    = Ok (len [x00] + len s, [x00] ++ s ++ [x00])
  /\ stringSSZ_Unmarshal (VString []) TString s 0 = Ok (len s, VString s).
Proof.
  pose proof (stringSSZ_roundtrip ["h"%byte; "i"%byte] [] [x00] [x00; x00]
                [x00] eq_refl eq_refl) as H.
  cbv zeta in H. destruct H as [H1 [_ H3]].
  split; [exact H1 | exact H3].
Defined.

(** ** The facade on a typed nil pointer *)



(** ** Offsets that decrease *)

(** C3.  The offset table [8, 4] read as a [[][]byte].
    [compositeSliceSSZ.Unmarshal] leaves its loop at the decreasing pair
    and returns without an error, with the destination as it was grown
    before the loop; through the facade, a destination whose stale content
    has the size of the input makes [Unmarshal] succeed.  The sibling
    decoder of [decode.go] reports "offsets must be increasing" on the same
    input; [compositeArraySSZ.Unmarshal] has no comparison and runs into
    the slice expression with [low > high]. *)
Theorem compositeSlice_decreasing_offsets_accepted :
  factory_Unmarshal compositesliceType (VList []) byteLists
    decreasing_offsets 0 = Ok (0, VList [VList []])
  /\ Unmarshal decreasing_offsets
       (plain (VPtr (Some (VList [bytes_value [1; 2; 3; 4]])))
          (TPtr byteLists))
     = Ok (VPtr (Some (VList [bytes_value [1; 2; 3; 4]])))
  /\ makeCompositeSliceDecoder byteLists makeByteSliceDecoder
       decreasing_offsets (VList []) 0 = Err "offsets must be increasing"
  /\ factory_Unmarshal compositearrayType (VList [VList []; VList []])
       (TArray 2 (TSlice TUint8)) decreasing_offsets 0 = Panic.
Proof.
  repeat split; vm_compute; reflexivity.
Qed.

(** ** The structure decoder of [decode.go] *)

Lemma Uint64_of_offset_slice (input : list byte) (i : Z) :
  (offsetVal <- slice input i (i + BytesPerLengthOffset) ;; Uint64 offsetVal)
  = Panic.
Proof.
  unfold slice, BytesPerLengthOffset.
  destruct ((0 <=? i) && (i <=? i + 4) && (i + 4 <=? len input)) eqn:E;
    [|reflexivity].
  rewrite !andb_true_iff, !Z.leb_le in E. destruct E as [[H0 _] H2].
  cbn [bind]. unfold Uint64, read_le.
  replace (Z.of_nat 8 <=? _) with false; [reflexivity|].
  symmetry. apply Z.leb_gt. unfold len in *.
  rewrite length_firstn, length_skipn. lia.
Qed.

Lemma decoder_offsets_panics (fixedSizes : list Z) :
  forall i input startOffset offsets fixedEnd,
    Exists (fun item => item <= 0) fixedSizes ->
    decoder_offsets fixedSizes i input startOffset offsets fixedEnd = Panic.
Proof.
  induction fixedSizes as [|item rest IH];
    intros i input startOffset offsets fixedEnd HE.
  - inversion HE.
  - cbn [decoder_offsets].
    destruct (item >? 0) eqn:E.
    + apply IH. inversion HE; subst; [lia | assumption].
    + pose proof (Uint64_of_offset_slice input i) as P.
      destruct (slice input i (i + BytesPerLengthOffset)) as [l| |];
        cbn [bind] in *; try reflexivity; try discriminate.
      rewrite P. reflexivity.
Qed.

Lemma decoder_fixedSizes_variable dfs ivs (f : field) (fs : list field) :
  forall i vs sizes,
    In f fs ->
    (forall v, ivs v (field_type f) = true) ->
    decoder_fixedSizes dfs ivs fs i vs = Ok sizes ->
    Exists (fun item => item <= 0) sizes.
Proof.
  induction fs as [|g fs IH]; intros i vs sizes Hin Hv H; [inversion Hin|].
  cbn [decoder_fixedSizes] in H.
  destruct (elem_at vs i) as [v| |]; cbn [bind] in H; try discriminate.
  destruct (decoder_fixedSizes dfs ivs fs (i + 1) vs) as [rest| |] eqn:R;
    cbn [bind] in H; try discriminate.
  destruct Hin as [-> | Hin].
  - rewrite Hv in H. cbn in H. inversion H; subst.
    apply Exists_cons_hd. lia.
  - destruct (negb _ && _); inversion H; subst;
      apply Exists_cons_tl; eapply IH; eauto.
Qed.

(** C4.  [makeStructDecoder] reads the offset of a variable-size field
    with [binary.LittleEndian.Uint64] on a slice of
    [BytesPerLengthOffset = 4] bytes: for a structure with a variable-size
    field the decoder panics on every input, where the 4-byte read of the
    claim would return the offset. *)
Theorem makeStructDecoder_wide_offset_read
  (fields : list field) (dfs : value -> type -> Z)
  (ivs : value -> type -> bool) (f : field) :
  In f fields ->
  (forall v, ivs v (field_type f) = true) ->
  forall input val startOffset,
    makeStructDecoder fields dfs ivs input val startOffset = Panic.
Proof.
  intros Hin Hv input val startOffset. unfold makeStructDecoder.
  destruct (FieldValues val) as [vs| |] eqn:FV; cbn [bind];
    [|destruct val; discriminate | reflexivity].
  destruct (decoder_fixedSizes dfs ivs fields 0 vs) as [sizes| |] eqn:S;
    cbn [bind]; [| |reflexivity].
  - rewrite decoder_offsets_panics; [reflexivity|].
    eapply decoder_fixedSizes_variable; eauto.
  - exfalso. clear -S. revert S. generalize 0 as i.
    induction fields as [|g fs IH]; intros i S; [discriminate|].
    cbn [decoder_fixedSizes] in S.
    destruct (elem_at vs i) as [v| |] eqn:EA; cbn [bind] in S.
    + destruct (decoder_fixedSizes dfs ivs fs (i + 1) vs) eqn:R;
        cbn [bind] in S; try discriminate.
      * destruct (negb _ && _); discriminate.
      * inversion S; subst. eapply IH; eauto.
    + unfold elem_at in EA. destruct (_ && _); [|discriminate].
      destruct (nth_error vs (Z.to_nat i)); discriminate.
    + discriminate.
Qed.

Lemma makeStructDecoder_wide_offset_read_witness :
  makeStructDecoder [fieldA] determineFixedSize
    (fun _ t => isVariableSizeType t)
    (bytes_of [4; 0; 0; 0; 1; 2; 3; 4]) (VStruct [VList []]) 0 = Panic
  /\ factory_Unmarshal structType (VStruct [VList []]) structA
       (bytes_of [4; 0; 0; 0; 1; 2; 3; 4]) 0
     = Ok (4, VStruct [bytes_value [1; 2; 3; 4]]).
Proof.
  split.
  - apply (makeStructDecoder_wide_offset_read [fieldA] determineFixedSize
             (fun _ t => isVariableSizeType t) fieldA).
    + left. reflexivity.
    + intros v. reflexivity.
  - vm_compute. reflexivity.
Defined.

(** ** Lists of fixed-size elements *)

Lemma grow_append (items : list value) (e : type) (n k : Z) :
  0 <= k -> n = len items + k ->
  growConcreteSliceType (VList items) (TSlice e) n
  = Ok (VList (items ++ repeat (zero e) (Z.to_nat k))).
Proof.
  intros Hk ->. unfold growConcreteSliceType. cbn [SliceItems bind].
  pose proof (len_nonneg items).
  replace (len items + k <? 0) with false by (symmetry; apply Z.ltb_ge; lia).
  unfold len in *.
  rewrite firstn_all2 by lia.
  do 4 f_equal. lia.
Qed.

Lemma grow_one (e : type) :
  growConcreteSliceType (VList []) (TSlice e) 1 = Ok (VList [zero e]).
Proof. reflexivity. Qed.

Section FixedSizeElements.

Variable e : type.
Variable sz : Z.
Variable input : list byte.
Hypothesis sz_pos : 0 < sz.
Hypothesis input_bound : len input < 2 ^ 64.

(** [decode.go] *)
Variable elem_decoder : decoder.
Hypothesis elem_decoder_fixed :
  forall idx, 0 <= idx -> idx + sz <= len input ->
    exists d', elem_decoder input (zero e) idx = Ok (idx + sz, d').

Lemma basicSliceDecoder_rest_spec (k : nat) :
  forall done,
    (len done + Z.of_nat k) * sz <= len input ->
    exists items',
      basicSliceDecoder_rest elem_decoder input k (len done)
        (done ++ repeat (zero e) k) (len done * sz)
      = Ok ((len done + Z.of_nat k) * sz, items')
      /\ len items' = len done + Z.of_nat k.
Proof.
  induction k as [|k IH]; intros done Hb.
  - exists done. cbn [basicSliceDecoder_rest repeat].
    rewrite app_nil_r. split; [f_equal; f_equal; lia | lia].
  - cbn [basicSliceDecoder_rest repeat].
    pose proof (len_nonneg done).
    rewrite elem_at_app by reflexivity. cbn [bind].
    destruct (elem_decoder_fixed (len done * sz)) as [d' Hd]; [nia | nia |].
    rewrite Hd. cbn [Errorf bind].
    rewrite store_app by reflexivity. cbn [bind].
    specialize (IH (done ++ [d'])).
    rewrite len_app, len_cons, len_nil in IH.
    destruct IH as [items' [E L]]; [nia|].
    exists items'.
    replace (done ++ d' :: repeat (zero e) k)
      with ((done ++ [d']) ++ repeat (zero e) k)
      by (now rewrite <- app_assoc).
    replace (len done + 1) with (len done + (1 + 0)) by lia.
    replace (len done * sz + sz) with ((len done + (1 + 0)) * sz) by lia.
    rewrite E. split; [f_equal; f_equal; lia | lia].
Qed.

Lemma makeBasicSliceDecoder_floor :
  sz <= len input ->
  exists items,
    makeBasicSliceDecoder (TSlice e) elem_decoder input (VList []) 0
    = Ok ((len input / sz) * sz, VList items)
    /\ len items = len input / sz.
Proof.
  intros Hle. unfold makeBasicSliceDecoder.
  rewrite grow_one. cbn [SliceItems bind].
  rewrite (elem_at_app [] [] (zero e)) by reflexivity. cbn [bind].
  destruct (elem_decoder_fixed 0) as [d0 Hd0]; [lia | lia |].
  rewrite Hd0. cbn [Errorf bind Z.add].
  rewrite (store_app [] [] (zero e) d0) by reflexivity. cbn [bind app].
  rewrite sub64_small by lia. rewrite Z.sub_0_r.
  replace (sz =? 0) with false by (symmetry; apply Z.eqb_neq; lia).
  assert (Hq : 1 <= len input / sz).
  { apply Z.div_le_lower_bound; lia. }
  pose proof (Z.mul_div_le (len input) sz sz_pos) as Hm.
  rewrite (grow_append [d0] e _ (len input / sz - 1))
    by (rewrite ?len_cons, ?len_nil; lia).
  cbn [SliceItems bind].
  destruct (basicSliceDecoder_rest_spec (Z.to_nat (len input / sz - 1)) [d0])
    as [items' [E L]].
  { rewrite len_cons, len_nil. nia. }
  rewrite len_cons, len_nil in E, L.
  replace (1 + 0) with 1 in E by lia. replace (1 * sz) with sz in E by lia.
  rewrite E. cbn [bind]. exists items'.
  split; [do 3 f_equal; lia | lia].
Qed.

(** [types/slice_basic.go] *)
Variable Unmarshal_ :
  SSZAble -> value -> type -> list byte -> Z -> result (Z * value).
Variable factory : SSZAble.
Hypothesis factory_of_elem : SSZFactory (zero e) e = Ok factory.
Hypothesis Unmarshal_fixed :
  forall idx, 0 <= idx -> idx + sz <= len input ->
    exists d', Unmarshal_ factory (zero e) e input idx = Ok (idx + sz, d').

Lemma basicSlice_decode_rest_spec (k : nat) :
  forall done,
    (len done + Z.of_nat k) * sz <= len input ->
    exists items',
      basicSlice_decode_rest Unmarshal_ factory (TSlice e) e input k
        (len done) (VList done) (len done * sz)
      = Ok ((len done + Z.of_nat k) * sz, VList items')
      /\ len items' = len done + Z.of_nat k.
Proof.
  induction k as [|k IH]; intros done Hb.
  - exists done. cbn [basicSlice_decode_rest].
    split; [f_equal; f_equal; lia | lia].
  - cbn [basicSlice_decode_rest].
    pose proof (len_nonneg done).
    rewrite (grow_append done e _ 1) by lia. cbn [SliceItems bind].
    change (repeat (zero e) (Z.to_nat 1)) with [zero e].
    rewrite elem_at_app by reflexivity. cbn [bind].
    destruct (Unmarshal_fixed (len done * sz)) as [d' Hd]; [nia | nia |].
    rewrite Hd. cbn [bind].
    rewrite store_app by reflexivity. cbn [bind].
    specialize (IH (done ++ [d'])).
    rewrite len_app, len_cons, len_nil in IH.
    destruct IH as [items' [E L]]; [nia|].
    exists items'.
    replace (len done + 1) with (len done + (1 + 0)) by lia.
    replace (len done * sz + sz) with ((len done + (1 + 0)) * sz) by lia.
    rewrite E. split; [f_equal; f_equal; lia | lia].
Qed.

Lemma basicSliceSSZ_Unmarshal_floor :
  sz <= len input ->
  exists items,
    basicSliceSSZ_Unmarshal Unmarshal_ (VList []) (TSlice e) input 0
    = Ok ((len input / sz) * sz, VList items)
    /\ len items = len input / sz.
Proof.
  intros Hle. unfold basicSliceSSZ_Unmarshal.
  replace (len input =? 0) with false by (symmetry; apply Z.eqb_neq; lia).
  rewrite grow_one. cbn [SliceItems bind Elem].
  rewrite (elem_at_app [] [] (zero e)) by reflexivity. cbn [bind].
  rewrite factory_of_elem. cbn [bind].
  destruct (Unmarshal_fixed 0) as [d0 Hd0]; [lia | lia |].
  rewrite Hd0. cbn [bind Z.add].
  rewrite (store_app [] [] (zero e) d0) by reflexivity. cbn [bind app].
  rewrite sub64_small by lia. rewrite Z.sub_0_r.
  replace (sz =? 0) with false by (symmetry; apply Z.eqb_neq; lia).
  assert (Hq : 1 <= len input / sz).
  { apply Z.div_le_lower_bound; lia. }
  pose proof (Z.mul_div_le (len input) sz sz_pos) as Hm.
  destruct (basicSlice_decode_rest_spec (Z.to_nat (len input / sz - 1)) [d0])
    as [items' [E L]].
  { rewrite len_cons, len_nil. nia. }
  rewrite len_cons, len_nil in E, L.
  replace (1 + 0) with 1 in E by lia. replace (1 * sz) with sz in E by lia.
  rewrite E. exists items'.
  split; [do 3 f_equal; lia | lia].
Qed.

End FixedSizeElements.

(** C2, as stated, fails: three bytes for a [[]uint16].  The length is not
    a multiple of the element size and both decoders return one element
    and no error. *)
Lemma inexact_division_is_not_an_error :
  len three_bytes mod 2 <> 0
  /\ makeBasicSliceDecoder (TSlice TUint16) decodeUint16 three_bytes
       (VList []) 0 = Ok (2, VList [VUint 513])
  /\ factory_Unmarshal basicsliceType (VList []) (TSlice TUint16)
       three_bytes 0 = Ok (2, VList [VUint 513]).
Proof.
  repeat split; vm_compute; try reflexivity. discriminate.
Qed.

(** C2, amended.  For a list of fixed-size elements decoded from offset 0
    into an empty destination, with elements of [sz > 0] bytes: the element
    count is the integer quotient [len(input) / sz] and nothing is checked
    about the remainder.  Both [makeBasicSliceDecoder] and
    [basicSliceSSZ.Unmarshal] succeed, with that many elements, having
    read [(len(input) / sz) * sz] bytes. *)
Theorem fixed_element_count_is_quotient
  (e : type) (sz : Z) (input : list byte)
  (elem_decoder : decoder)
  (Unmarshal_ : SSZAble -> value -> type -> list byte -> Z
                -> result (Z * value))
  (factory : SSZAble) :
  0 < sz -> sz <= len input -> len input < 2 ^ 64 ->
  (forall idx, 0 <= idx -> idx + sz <= len input ->
     exists d', elem_decoder input (zero e) idx = Ok (idx + sz, d')) ->
  SSZFactory (zero e) e = Ok factory ->
  (forall idx, 0 <= idx -> idx + sz <= len input ->
     exists d', Unmarshal_ factory (zero e) e input idx = Ok (idx + sz, d')) ->
  (exists items,
      makeBasicSliceDecoder (TSlice e) elem_decoder input (VList []) 0
      = Ok ((len input / sz) * sz, VList items)
      /\ len items = len input / sz)
  /\ (exists items,
      basicSliceSSZ_Unmarshal Unmarshal_ (VList []) (TSlice e) input 0
      = Ok ((len input / sz) * sz, VList items)
      /\ len items = len input / sz).
Proof.
  intros Hsz Hle Hb Hdec HF HU. split.
  - eapply makeBasicSliceDecoder_floor; eauto.
  - eapply basicSliceSSZ_Unmarshal_floor; eauto.
Qed.

Lemma fixed_element_count_is_quotient_witness :
  (exists items,
      makeBasicSliceDecoder (TSlice TUint16) decodeUint16 three_bytes
        (VList []) 0 = Ok ((3 / 2) * 2, VList items)
      /\ len items = 3 / 2)
  /\ (exists items,
      basicSliceSSZ_Unmarshal factory_Unmarshal (VList []) (TSlice TUint16)
        three_bytes 0 = Ok ((3 / 2) * 2, VList items)
      /\ len items = 3 / 2).
Proof.
  apply (fixed_element_count_is_quotient TUint16 2 three_bytes decodeUint16
           factory_Unmarshal basictype).
  - lia.
  - vm_compute. discriminate.
  - vm_compute. reflexivity.
  - intros idx H0 H1. change (len three_bytes) with 3 in H1.
    assert (C : idx = 0 \/ idx = 1) by lia.
    destruct C as [-> | ->]; eexists; vm_compute; reflexivity.
  - reflexivity.
  - intros idx H0 H1. change (len three_bytes) with 3 in H1.
    assert (C : idx = 0 \/ idx = 1) by lia.
    destruct C as [-> | ->]; eexists; vm_compute; reflexivity.
Defined.

(** ** The length check of the facade *)

(** C5, as stated, fails.  The destination is a [struct { A []byte }]
    whose [A] holds four stale bytes; the input is the offset 8 followed by
    four bytes.  The offset equals [len(input)], the field is skipped, the
    codec returns index 4 of 8 and has read the first four bytes only, and
    [Unmarshal] succeeds. *)
Lemma Unmarshal_accepts_unread_bytes :
  let stale := VStruct [bytes_value [1; 2; 3; 4]] in
  len offset_and_rest = 8
  /\ factory_Unmarshal structType stale structA offset_and_rest 0
     = Ok (4, stale)
  /\ Unmarshal offset_and_rest (plain (VPtr (Some stale)) (TPtr structA))
     = Ok (VPtr (Some stale)).
Proof.
  repeat split; vm_compute; reflexivity.
Qed.

(** C5, amended.  When [Unmarshal] runs the reflective codec and the codec
    returns, the index it returns is dropped; [Unmarshal] compares
    [len(input)] with [DetermineSize] of the destination as decoded, and
    fails with "unexpected amount of data" exactly when the two differ. *)
Theorem Unmarshal_compares_DetermineSize
  (codec : SSZAble -> value -> type -> list byte -> Z -> result (Z * value))
  (input : list byte) (v : value) (e : type) (factory : SSZAble)
  (idx : Z) (v' : value) :
  len input <> 0 ->
  SSZFactory v e = Ok factory ->
  codec factory v e input 0 = Ok (idx, v') ->
  Unmarshal_with codec input (plain (VPtr (Some v)) (TPtr e))
  = if len input =? DetermineSize (VPtr (Some v')) (TPtr e)
    then Ok (VPtr (Some v'))
    else Err "unexpected amount of data".
Proof.
  intros Hl HF HC. unfold Unmarshal_with, plain.
  cbn [UnmarshalSSZ dyn_value dyn_type].
  replace (len input =? 0) with false by (symmetry; now apply Z.eqb_neq).
  rewrite HF. cbn [bind]. rewrite HC. cbn [Wrapf bind].
  destruct (len input =? _); reflexivity.
Qed.

Lemma Unmarshal_compares_DetermineSize_witness :
  Unmarshal (bytes_of [4; 0; 0; 0; 1; 2; 3])
    (plain (VPtr (Some (zero structA))) (TPtr structA))
  = Ok (VPtr (Some (VStruct [bytes_value [1; 2; 3]]))).
Proof.
  exact (Unmarshal_compares_DetermineSize factory_Unmarshal
           (bytes_of [4; 0; 0; 0; 1; 2; 3]) (zero structA) structA
           structType 4 (VStruct [bytes_value [1; 2; 3]])
           ltac:(vm_compute; discriminate) eq_refl eq_refl).
Defined.

(** ** The list limit *)

(** C6, as stated, fails.  [L] is a list with [ssz-max:"1"]; an input
    carrying two elements is decoded, without an error, to both. *)
Lemma list_above_limit_is_decoded :
  determineFieldCapacity fieldL = 1
  /\ Unmarshal two_elements
       (plain (VPtr (Some (zero structL))) (TPtr structL))
     = Ok (VPtr (Some (VStruct [VList [bytes_value [1]; bytes_value [2]]]))).
Proof.
  split; vm_compute; reflexivity.
Qed.

(* ------------------------------------------------------------------ *)
(** * The layout written by [Marshal] *)

(** ** Induction on the nesting depth of a type *)

Lemma type_depth_ind (P : type -> Prop) :
  (forall t, (forall t', (type_depth t' < type_depth t)%nat -> P t') -> P t) ->
  forall t, P t.
Proof.
  intros H t.
  assert (G : forall n t, (type_depth t < n)%nat -> P t).
  { induction n as [|n IH]; intros t0 Hlt; [lia|].
    apply H. intros t' Ht'. apply IH. lia. }
  apply (G (S (type_depth t))). lia.
Qed.

Lemma field_depth (fs : list StructField) (f : StructField) :
  In f fs -> (type_depth (FType f) < type_depth (TStruct fs))%nat.
Proof.
  intros Hin. cbn [type_depth].
  induction fs as [|g fs IH]; [inversion Hin|].
  cbn [fold_right]. destruct Hin as [-> | Hin]; [lia|].
  specialize (IH Hin). lia.
Qed.

(** ** Unfolding the nested recursions *)

Lemma enc_struct (fs : list StructField) (vs : list value) :
  enc (TStruct fs) (VStruct vs) = layout (struct_children fs vs).
Proof. reflexivity. Qed.

Lemma enc_slice (e : type) (items : list value) :
  enc (TSlice e) (VList items) = layout (list_children e items).
Proof. reflexivity. Qed.

Lemma enc_array (n : nat) (e : type) (items : list value) :
  enc (TArray n e) (VList items) = layout (list_children e items).
Proof. reflexivity. Qed.

Lemma has_type_struct (fs : list StructField) (vs : list value) :
  has_type (TStruct fs) (VStruct vs) = has_type_fields fs vs.
Proof. reflexivity. Qed.

Lemma determineSize_struct (fs : list StructField) (vs : list value) :
  determineSize (TStruct fs) (VStruct vs) = size_fields fs vs.
Proof. reflexivity. Qed.

Lemma supported_struct (fs : list StructField) :
  supported (TStruct fs)
  = negb (Nat.eqb (List.length fs) 0) && forallb supported_field fs.
Proof. reflexivity. Qed.

(** ** Lengths *)

Lemma len_PutUint32 (v : Z) : len (PutUint32 v) = 4.
Proof. reflexivity. Qed.

Lemma len_fixed_part (parts : list child) :
  forall off, len (fixed_part parts off) = fixed_length parts.
Proof.
  induction parts as [|[[|] b] rest IH]; intros off; cbn [fixed_part fixed_length].
  - reflexivity.
  - rewrite len_app, len_PutUint32, IH. reflexivity.
  - rewrite len_app, IH. reflexivity.
Qed.

Lemma len_layout (parts : list child) :
  len (layout parts) = fixed_length parts + len (variable_part parts).
Proof.
  unfold layout. now rewrite len_app, len_fixed_part.
Qed.

Lemma fixed_length_nonneg (parts : list child) : 0 <= fixed_length parts.
Proof.
  induction parts as [|[[|] b] rest IH]; cbn [fixed_length];
    unfold BytesPerLengthOffset; try pose proof (len_nonneg b); lia.
Qed.

Lemma has_type_fields_length (fs : list StructField) :
  forall vs, has_type_fields fs vs = true -> List.length vs = List.length fs.
Proof.
  induction fs as [|f fs IH]; intros [|v vs] H; cbn in H; try discriminate.
  - reflexivity.
  - apply andb_true_iff in H. destruct H as [_ H]. cbn. f_equal. now apply IH.
Qed.

Lemma has_type_basic_len (t : type) (v : value) (w : nat) :
  basic_width t = Some w -> has_type t v = true ->
  len (enc t v) = Z.of_nat w.
Proof.
  destruct t; cbn [basic_width]; intros Hw Ht; inversion Hw; subst;
    destruct v; cbn in Ht; try discriminate; cbn [enc];
    rewrite ?len_le_bytes; reflexivity.
Qed.

Lemma size_list_children (e : type) (items : list value) :
  fixed_length (list_children e items)
  + len (variable_part (list_children e items))
  = fold_right
      (fun v acc =>
         (if isVariableSizeType e then BytesPerLengthOffset else 0)
         + len (enc e v) + acc) 0 items.
Proof.
  unfold list_children.
  induction items as [|v items IH]; [reflexivity|].
  cbn [map fold_right fixed_length variable_part].
  destruct (isVariableSizeType e); cbn [fixed_length variable_part];
    rewrite ?len_app; lia.
Qed.

Lemma size_struct_children (fs : list StructField) :
  forall vs,
    fixed_length (struct_children fs vs)
    + len (variable_part (struct_children fs vs))
    = (fix go (fs : list StructField) (vs : list value) : Z :=
         match fs, vs with
         | f :: fs', v :: vs' =>
             (if isVariableSizeType (FType f) then BytesPerLengthOffset else 0)
             + len (enc (FType f) v) + go fs' vs'
         | _, _ => 0
         end) fs vs.
Proof.
  induction fs as [|f fs IH]; intros [|v vs]; try reflexivity.
  cbn [struct_children fixed_length variable_part].
  rewrite <- IH.
  destruct (isVariableSizeType (FType f)); cbn [fixed_length variable_part];
    rewrite ?len_app; lia.
Qed.

Lemma determineSize_enc :
  forall t v, supported t = true -> has_type t v = true ->
              determineSize t v = len (enc t v).
Proof.
  induction t as [t IH] using type_depth_ind. intros v Hs Ht.
  destruct t; try (cbn in Hs; discriminate);
    try (destruct v; cbn in Ht; try discriminate; reflexivity).
  - (* TSlice *)
    cbn [supported] in Hs.
    destruct v; cbn [has_type] in Ht; try discriminate.
    rewrite enc_slice, len_layout, size_list_children.
    cbn [determineSize].
    rewrite forallb_forall in Ht.
    induction items as [|v items IHi]; [reflexivity|].
    cbn [fold_right]. rewrite IHi by (intros; apply Ht; now right).
    rewrite (IH t); [reflexivity | cbn; lia | assumption
                    | apply Ht; now left].
  - (* TArray *)
    cbn [supported] in Hs. apply andb_true_iff in Hs. destruct Hs as [Hs _].
    destruct v; cbn [has_type] in Ht; try discriminate.
    apply andb_true_iff in Ht. destruct Ht as [_ Ht].
    rewrite enc_array, len_layout, size_list_children.
    cbn [determineSize].
    rewrite forallb_forall in Ht.
    induction items as [|v items IHi]; [reflexivity|].
    cbn [fold_right]. rewrite IHi by (intros; apply Ht; now right).
    rewrite (IH t); [reflexivity | cbn; lia | assumption
                    | apply Ht; now left].
  - (* TStruct *)
    destruct v; try discriminate.
    rename fields into fs, fields0 into vs.
    rewrite has_type_struct in Ht. rewrite supported_struct in Hs.
    apply andb_true_iff in Hs. destruct Hs as [_ Hs].
    rewrite enc_struct, len_layout, size_struct_children.
    rewrite determineSize_struct.
    assert (IH' : forall f, In f fs -> forall v,
               supported (FType f) = true -> has_type (FType f) v = true ->
               determineSize (FType f) v = len (enc (FType f) v)).
    { intros f Hin. apply IH. now apply field_depth. }
    clear IH. revert vs Ht.
    induction fs as [|f fs IHf]; intros [|v vs] Ht; try reflexivity.
    cbn [has_type_fields] in Ht. apply andb_true_iff in Ht.
    destruct Ht as [Ht1 Ht2].
    cbn [forallb] in Hs. apply andb_true_iff in Hs. destruct Hs as [Hs1 Hs2].
    unfold supported_field in Hs1. apply andb_true_iff in Hs1.
    cbn [size_fields].
    rewrite IHf; [|assumption | intros g Hg; apply IH'; now right
                 | assumption].
    rewrite (IH' f); [reflexivity | now left | tauto | assumption].
Qed.

Lemma fixed_size_pos :
  forall t, supported t = true -> isVariableSizeType t = false ->
            0 < fixed_size t.
Proof.
  induction t as [t IH] using type_depth_ind. intros Hs Hv.
  destruct t; try (cbn in Hs; discriminate); try (cbn; lia);
    try (cbn in Hv; discriminate).
  - (* TArray *)
    cbn [supported] in Hs. apply andb_true_iff in Hs. destruct Hs as [Hs Hn].
    cbn [isVariableSizeType] in Hv. cbn [fixed_size].
    assert (0 < fixed_size t) by (apply IH; [cbn; lia | assumption..]).
    destruct n; [discriminate|]. nia.
  - (* TStruct *)
    rename fields into fs. rewrite supported_struct in Hs.
    apply andb_true_iff in Hs. destruct Hs as [Hn Hs].
    cbn [isVariableSizeType] in Hv. cbn [fixed_size].
    assert (IH' : forall f, In f fs -> supported (FType f) = true ->
                            isVariableSizeType (FType f) = false ->
                            0 < fixed_size (FType f)).
    { intros f Hin. apply IH. now apply field_depth. }
    clear IH. destruct fs as [|f fs]; [discriminate|]. clear Hn.
    cbn [fold_right forallb existsb] in *.
    apply andb_true_iff in Hs. destruct Hs as [Hs1 Hs2].
    apply orb_false_iff in Hv. destruct Hv as [Hv1 Hv2].
    unfold supported_field in Hs1. apply andb_true_iff in Hs1.
    assert (0 < fixed_size (FType f)) by (apply IH'; [now left | tauto..]).
    assert (0 <= fold_right (fun f acc => fixed_size (FType f) + acc) 0 fs).
    { clear H. induction fs as [|g fs IHf]; [cbn; lia|].
      cbn [fold_right forallb existsb] in *.
      apply andb_true_iff in Hs2. destruct Hs2 as [Hg1 Hg2].
      apply orb_false_iff in Hv2. destruct Hv2 as [Hw1 Hw2].
      unfold supported_field in Hg1. apply andb_true_iff in Hg1.
      assert (0 < fixed_size (FType g))
        by (apply IH'; [right; now left | tauto..]).
      assert (0 <= fold_right (fun f acc => fixed_size (FType f) + acc) 0 fs).
      { apply IHf; try assumption.
        intros h Hh. apply IH'. destruct Hh; [now left | right; now right]. }
      lia. }
    lia.
Qed.

Lemma enc_fixed_len :
  forall t v, supported t = true -> has_type t v = true ->
              isVariableSizeType t = false ->
              len (enc t v) = fixed_size t.
Proof.
  induction t as [t IH] using type_depth_ind. intros v Hs Ht Hv.
  destruct t; try (cbn in Hs; discriminate);
    try (destruct v; cbn in Ht; try discriminate; cbn [enc];
         rewrite ?len_le_bytes; reflexivity);
    try (cbn in Hv; discriminate).
  - (* TArray *)
    cbn [supported] in Hs. apply andb_true_iff in Hs. destruct Hs as [Hs _].
    cbn [isVariableSizeType] in Hv.
    destruct v; cbn [has_type] in Ht; try discriminate.
    apply andb_true_iff in Ht. destruct Ht as [Hn Ht].
    apply Nat.eqb_eq in Hn.
    assert (IHe := IH t ltac:(cbn; lia)). clear IH. subst n.
    rewrite enc_array, len_layout, size_list_children.
    cbn [fixed_size]. rewrite Hv.
    rewrite forallb_forall in Ht.
    induction items as [|v items IHi]; [reflexivity|].
    cbn [fold_right List.length].
    rewrite IHi by (intros; apply Ht; now right).
    rewrite IHe; [lia | assumption | apply Ht; now left | assumption].
  - (* TStruct *)
    destruct v; try discriminate.
    rename fields into fs, fields0 into vs.
    rewrite has_type_struct in Ht. rewrite supported_struct in Hs.
    apply andb_true_iff in Hs. destruct Hs as [_ Hs].
    cbn [isVariableSizeType] in Hv.
    rewrite enc_struct, len_layout, size_struct_children.
    cbn [fixed_size].
    assert (IH' : forall f, In f fs -> forall v,
               supported (FType f) = true -> has_type (FType f) v = true ->
               isVariableSizeType (FType f) = false ->
               len (enc (FType f) v) = fixed_size (FType f)).
    { intros f Hin. apply IH. now apply field_depth. }
    clear IH. revert vs Ht.
    induction fs as [|f fs IHf]; intros [|v vs] Ht; try reflexivity;
      try discriminate.
    cbn [has_type_fields] in Ht. apply andb_true_iff in Ht.
    destruct Ht as [Ht1 Ht2].
    cbn [forallb existsb] in Hs, Hv.
    apply andb_true_iff in Hs. destruct Hs as [Hs1 Hs2].
    apply orb_false_iff in Hv. destruct Hv as [Hv1 Hv2].
    unfold supported_field in Hs1. apply andb_true_iff in Hs1.
    cbn [fold_right]. rewrite Hv1.
    rewrite IHf; [|assumption | assumption
                 | intros g Hg; apply IH'; now right | assumption].
    rewrite (IH' f); [lia | now left | tauto | assumption | assumption].
Qed.

(** ** Splitting a region of the buffer *)

Lemma split_len {A} (l : list A) (a b : Z) :
  0 <= a -> 0 <= b -> len l = a + b ->
  exists l1 l2, l = l1 ++ l2 /\ len l1 = a /\ len l2 = b.
Proof.
  intros Ha Hb Hl.
  exists (firstn (Z.to_nat a) l), (skipn (Z.to_nat a) l).
  split; [symmetry; apply firstn_skipn|].
  unfold len in *. rewrite length_firstn, length_skipn. lia.
Qed.

Lemma len_zero_nil {A} (l : list A) : len l = 0 -> l = [].
Proof. destruct l; [reflexivity|]. rewrite len_cons. pose proof (len_nonneg l). lia. Qed.

Create Rewrite HintDb lens.
#[local] Hint Rewrite @len_app @len_cons @len_nil @len_map @len_repeat
  len_le_bytes len_PutUint32 len_fixed_part : lens.

Ltac lens := autorewrite with lens in *.

Ltac reassoc := rewrite <- ?app_assoc; cbn [app]; reflexivity.

Lemma uint32_small (z : Z) : 0 <= z < 2 ^ 32 -> uint32 z = z.
Proof. intros H. unfold uint32. now apply Z.mod_small. Qed.

Lemma layout_fixed (parts : list child) :
  Forall (fun p => fst p = false) parts ->
  layout parts = List.concat (map snd parts).
Proof.
  intros H. unfold layout. generalize (fixed_length parts) as off.
  induction H as [|[[|] b] rest Hp _ IH]; intros off.
  - reflexivity.
  - discriminate.
  - cbn [fixed_part variable_part map List.concat snd].
    specialize (IH off). rewrite <- IH. now rewrite app_assoc.
Qed.

Lemma list_children_fixed (e : type) (items : list value) :
  isVariableSizeType e = false ->
  layout (list_children e items) = List.concat (map (enc e) items).
Proof.
  intros Hv. rewrite layout_fixed.
  - unfold list_children. rewrite map_map. reflexivity.
  - unfold list_children. apply Forall_forall. intros p Hp.
    apply in_map_iff in Hp. destruct Hp as [v [<- _]]. exact Hv.
Qed.

(** ** The marshalling loops *)

Section MarshalLoops.

Variable Marshal_ :
  SSZAble -> value -> type -> list byte -> Z -> result (Z * list byte).

Lemma marshal_each_spec (e : type) (factory : SSZAble) (items : list value) :
  writes Marshal_ e ->
  (forall v, In v items -> SSZFactory v e = Ok factory) ->
  forall pre mid post,
    forallb (has_type e) items = true ->
    len mid = len (List.concat (map (enc e) items)) ->
    len (pre ++ mid ++ post) < 2 ^ 32 ->
    marshal_each Marshal_ factory e items (pre ++ mid ++ post) (len pre)
    = Ok (len pre + len mid, pre ++ List.concat (map (enc e) items) ++ post).
Proof.
  intros HW HF. induction items as [|v items IH]; intros pre mid post Ht Hl Hb.
  - cbn in Hl. apply len_zero_nil in Hl. subst mid.
    cbn. rewrite Z.add_0_r. reflexivity.
  - cbn [map List.concat] in *. cbn [forallb] in Ht.
    apply andb_true_iff in Ht. destruct Ht as [Ht1 Ht2].
    rewrite len_app in Hl.
    destruct (split_len mid (len (enc e v))
                (len (List.concat (map (enc e) items))))
      as [m1 [m2 [-> [L1 L2]]]]; try apply len_nonneg; [assumption|].
    cbn [marshal_each].
    replace (pre ++ (m1 ++ m2) ++ post) with (pre ++ m1 ++ (m2 ++ post))
      by reassoc.
    rewrite HW; try assumption;
      [|apply HF; now left
       |replace (pre ++ m1 ++ m2 ++ post) with (pre ++ (m1 ++ m2) ++ post)
          by reassoc; assumption].
    cbn [bind].
    replace (pre ++ enc e v ++ m2 ++ post)
      with ((pre ++ enc e v) ++ m2 ++ post) by reassoc.
    replace (len pre + len (enc e v)) with (len (pre ++ enc e v))
      by (now rewrite len_app).
    rewrite IH; try assumption.
    + f_equal. f_equal; [lens; lia | reassoc].
    + intros w Hw. apply HF. now right.
    + lens. lia.
Qed.

Lemma marshal_offsets_spec (e : type) (factory : SSZAble)
  (items : list value) :
  writes Marshal_ e ->
  isVariableSizeType e = true ->
  (forall v, In v items -> SSZFactory v e = Ok factory) ->
  forall pre Fd Ft Vd Vt post,
    forallb (has_type e) items = true ->
    len Ft = fixed_length (list_children e items) ->
    len Vt = len (variable_part (list_children e items)) ->
    len (pre ++ Fd ++ Ft ++ Vd ++ Vt ++ post) < 2 ^ 32 ->
    marshal_offsets Marshal_ factory e items
      (pre ++ Fd ++ Ft ++ Vd ++ Vt ++ post) (len pre) (len pre + len Fd)
      (len pre + len Fd + len Ft + len Vd)
    = Ok (len pre + len Fd + len Ft + len Vd + len Vt,
          pre ++ Fd
          ++ fixed_part (list_children e items) (len Fd + len Ft + len Vd)
          ++ Vd ++ variable_part (list_children e items) ++ post).
Proof.
  intros HW Hv HF.
  induction items as [|v items IH]; intros pre Fd Ft Vd Vt post Ht HFt HVt Hb.
  - cbn in HFt, HVt. apply len_zero_nil in HFt, HVt. subst Ft Vt.
    cbn. f_equal. f_equal. lia.
  - unfold list_children in *. cbn [map forallb] in *. rewrite Hv in *.
    cbn [fixed_length variable_part fixed_part] in *.
    apply andb_true_iff in Ht. destruct Ht as [Ht1 Ht2].
    rewrite len_app in HVt.
    set (parts := map (fun v0 => (true, enc e v0)) items) in *.
    pose proof (fixed_length_nonneg parts) as Hfl.
    destruct (split_len Ft BytesPerLengthOffset (fixed_length parts))
      as [F4 [Ft' [-> [LF4 LFt']]]];
      [unfold BytesPerLengthOffset; lia | assumption | assumption |].
    destruct (split_len Vt (len (enc e v)) (len (variable_part parts)))
      as [Vv [Vt' [-> [LVv LVt']]]]; try apply len_nonneg; [assumption|].
    unfold BytesPerLengthOffset in *.
    pose proof (len_nonneg pre). pose proof (len_nonneg Fd).
    pose proof (len_nonneg Vd). pose proof (len_nonneg post).
    pose proof (len_nonneg Ft'). pose proof (len_nonneg Vt').
    pose proof (len_nonneg (enc e v)).
    assert (Hb' : len pre + len Fd + 4 + len Ft' + len Vd + len Vv
                  + len Vt' + len post < 2 ^ 32) by (lens; lia).
    cbn [marshal_offsets].
    replace (pre ++ Fd ++ (F4 ++ Ft') ++ Vd ++ (Vv ++ Vt') ++ post)
      with ((pre ++ Fd ++ (F4 ++ Ft') ++ Vd) ++ Vv ++ (Vt' ++ post))
      by reassoc.
    replace (len pre + len Fd + len (F4 ++ Ft') + len Vd)
      with (len (pre ++ Fd ++ (F4 ++ Ft') ++ Vd)) by (lens; lia).
    rewrite HW; [|assumption | apply HF; now left | assumption
                 | lens; lia].
    cbn [bind].
    rewrite sub64_small by (lens; lia).
    rewrite uint32_small by (lens; lia).
    replace ((pre ++ Fd ++ (F4 ++ Ft') ++ Vd) ++ enc e v ++ Vt' ++ post)
      with ((pre ++ Fd) ++ F4 ++ (Ft' ++ Vd ++ enc e v ++ Vt' ++ post))
      by reassoc.
    rewrite copy_at_app; [|lens; lia | lens; lia].
    cbn [bind]. change BytesPerLengthOffset with 4.
    rewrite add64_small by lia.
    replace ((pre ++ Fd)
             ++ PutUint32 (len (pre ++ Fd ++ (F4 ++ Ft') ++ Vd) - len pre)
             ++ Ft' ++ Vd ++ enc e v ++ Vt' ++ post)
      with (pre
            ++ (Fd ++ PutUint32 (len (pre ++ Fd ++ (F4 ++ Ft') ++ Vd)
                                 - len pre))
            ++ Ft' ++ (Vd ++ enc e v) ++ Vt' ++ post)
      by reassoc.
    set (Fd' := Fd ++ PutUint32 (len (pre ++ Fd ++ (F4 ++ Ft') ++ Vd)
                                 - len pre)).
    replace (len pre + len Fd + 4) with (len pre + len Fd')
      by (unfold Fd'; lens; lia).
    replace (len (pre ++ Fd ++ (F4 ++ Ft') ++ Vd) + len (enc e v))
      with (len pre + len Fd' + len Ft' + len (Vd ++ enc e v))
      by (unfold Fd'; lens; lia).
    rewrite IH;
      [|intros w Hw; apply HF; now right | assumption | lia | lia
       |unfold Fd'; lens; lia].
    f_equal. f_equal; [unfold Fd'; lens; lia|].
    unfold Fd'. rewrite <- !app_assoc. cbn [app].
    do 2 f_equal.
    replace (len (pre ++ Fd ++ F4 ++ Ft' ++ Vd) - len pre)
      with (len Fd + len (F4 ++ Ft') + len Vd) by (lens; lia).
    f_equal. f_equal. f_equal. lens. lia.
Qed.

Lemma SSZFactory_supported (t : type) (v : value) :
  supported t = true -> SSZFactory v t = Ok (factory_of t).
Proof.
  destruct t; cbn; try discriminate; try reflexivity; intros _.
  - destruct (isVariableSizeType t); reflexivity.
  - destruct (isVariableSizeType t); reflexivity.
Qed.

Lemma struct_fixedLength_spec (all : list StructField)
  (fs : list StructField) :
  forall vdone vrest acc,
    has_type_fields fs vrest = true ->
    forallb supported_field fs = true ->
    0 <= acc ->
    acc + fixed_length (struct_children fs vrest) < 2 ^ 64 ->
    struct_fixedLength (TStruct all) (VStruct (vdone ++ vrest)) fs
      (len vdone) acc
    = Ok (acc + fixed_length (struct_children fs vrest)).
Proof.
  induction fs as [|f fs IH]; intros vdone [|v vrest] acc Ht Hs Ha Hb;
    try discriminate.
  - cbn. f_equal. lia.
  - cbn [has_type_fields forallb] in *.
    apply andb_true_iff in Ht. destruct Ht as [Ht1 Ht2].
    apply andb_true_iff in Hs. destruct Hs as [Hs1 Hs2].
    unfold supported_field in Hs1. apply andb_true_iff in Hs1.
    destruct Hs1 as [Hs1 _].
    cbn [struct_fixedLength determineFieldType bind struct_children
         fixed_length] in *.
    pose proof (fixed_length_nonneg (struct_children fs vrest)).
    replace (vdone ++ v :: vrest) with ((vdone ++ [v]) ++ vrest) by reassoc.
    replace (len vdone + 1) with (len (vdone ++ [v])) by (lens; lia).
    destruct (isVariableSizeType (FType f)) eqn:Hv.
    + cbn [fixed_length] in *. change BytesPerLengthOffset with 4 in *.
      rewrite add64_small by lia.
      rewrite IH; [f_equal; lia | assumption | assumption | lia | lia].
    + cbn [fixed_length FieldValues bind] in *.
      pose proof (len_nonneg (enc (FType f) v)).
      replace ((vdone ++ [v]) ++ vrest) with (vdone ++ v :: vrest) by reassoc.
      replace (len (vdone ++ [v])) with (len vdone + 1) by (lens; lia).
      rewrite elem_at_app by reflexivity. cbn [bind].
      unfold determineFixedSize.
      rewrite <- (enc_fixed_len (FType f) v) by assumption.
      rewrite add64_small by lia.
      replace (vdone ++ v :: vrest) with ((vdone ++ [v]) ++ vrest) by reassoc.
      replace (len vdone + 1) with (len (vdone ++ [v])) by (lens; lia).
      rewrite IH; [f_equal; lia | assumption | assumption | lia | lia].
Qed.

Lemma struct_marshal_fields_spec (fs : list StructField) :
  (forall f, In f fs -> writes Marshal_ (FType f)) ->
  forall vdone vrest pre Fd Ft Vd Vt post,
    has_type_fields fs vrest = true ->
    forallb supported_field fs = true ->
    len Ft = fixed_length (struct_children fs vrest) ->
    len Vt = len (variable_part (struct_children fs vrest)) ->
    len (pre ++ Fd ++ Ft ++ Vd ++ Vt ++ post) < 2 ^ 32 ->
    struct_marshal_fields Marshal_ (VStruct (vdone ++ vrest)) fs (len vdone)
      (pre ++ Fd ++ Ft ++ Vd ++ Vt ++ post) (len pre) (len pre + len Fd)
      (len pre + len Fd + len Ft + len Vd)
    = Ok (len pre + len Fd + len Ft + len Vd + len Vt,
          pre ++ Fd
          ++ fixed_part (struct_children fs vrest)
               (len Fd + len Ft + len Vd)
          ++ Vd ++ variable_part (struct_children fs vrest) ++ post).
Proof.
  induction fs as [|f fs IH];
    intros HW vdone [|v vrest] pre Fd Ft Vd Vt post Ht Hs HFt HVt Hb;
    try discriminate.
  - cbn in HFt, HVt. apply len_zero_nil in HFt, HVt. subst Ft Vt.
    cbn. f_equal. f_equal. lia.
  - cbn [has_type_fields forallb] in *.
    apply andb_true_iff in Ht. destruct Ht as [Ht1 Ht2].
    apply andb_true_iff in Hs. destruct Hs as [Hs1 Hs2].
    unfold supported_field in Hs1. apply andb_true_iff in Hs1.
    destruct Hs1 as [Hs1 _].
    cbn [struct_marshal_fields determineFieldType bind struct_children
         FieldValues] in *.
    rewrite elem_at_app by reflexivity. cbn [bind].
    rewrite (SSZFactory_supported _ _ Hs1). cbn [bind].
    set (parts := struct_children fs vrest) in *.
    pose proof (fixed_length_nonneg parts) as Hfl.
    pose proof (len_nonneg pre). pose proof (len_nonneg Fd).
    pose proof (len_nonneg Vd). pose proof (len_nonneg post).
    pose proof (len_nonneg (enc (FType f) v)).
    assert (HWf : writes Marshal_ (FType f)) by (apply HW; now left).
    assert (HWr : forall g, In g fs -> writes Marshal_ (FType g))
      by (intros g Hg; apply HW; now right).
    replace (vdone ++ v :: vrest) with ((vdone ++ [v]) ++ vrest) by reassoc.
    replace (len vdone + 1) with (len (vdone ++ [v])) by (lens; lia).
    destruct (isVariableSizeType (FType f)) eqn:Hv;
      cbn [negb fixed_length variable_part fixed_part] in *.
    + (* a variable-size field *)
      change BytesPerLengthOffset with 4 in *.
      rewrite len_app in HVt.
      destruct (split_len Ft 4 (fixed_length parts))
        as [F4 [Ft' [-> [LF4 LFt']]]]; [lia | assumption | assumption |].
      destruct (split_len Vt (len (enc (FType f) v))
                  (len (variable_part parts)))
        as [Vv [Vt' [-> [LVv LVt']]]]; try apply len_nonneg; [assumption|].
      pose proof (len_nonneg Ft'). pose proof (len_nonneg Vt').
      assert (Hb' : len pre + len Fd + 4 + len Ft' + len Vd + len Vv
                    + len Vt' + len post < 2 ^ 32) by (lens; lia).
      replace (pre ++ Fd ++ (F4 ++ Ft') ++ Vd ++ (Vv ++ Vt') ++ post)
        with ((pre ++ Fd ++ (F4 ++ Ft') ++ Vd) ++ Vv ++ (Vt' ++ post))
        by reassoc.
      replace (len pre + len Fd + len (F4 ++ Ft') + len Vd)
        with (len (pre ++ Fd ++ (F4 ++ Ft') ++ Vd)) by (lens; lia).
      rewrite HWf; [|assumption | now apply SSZFactory_supported
                    | assumption | lens; lia].
      cbn [bind].
      rewrite sub64_small by (lens; lia).
      rewrite uint32_small by (lens; lia).
      replace ((pre ++ Fd ++ (F4 ++ Ft') ++ Vd)
               ++ enc (FType f) v ++ Vt' ++ post)
        with ((pre ++ Fd) ++ F4
              ++ (Ft' ++ Vd ++ enc (FType f) v ++ Vt' ++ post))
        by reassoc.
      rewrite copy_at_app; [|lens; lia | lens; lia].
      cbn [bind]. change BytesPerLengthOffset with 4.
      rewrite add64_small by lia.
      set (off := PutUint32 (len (pre ++ Fd ++ (F4 ++ Ft') ++ Vd)
                             - len pre)).
      replace ((pre ++ Fd) ++ off ++ Ft' ++ Vd ++ enc (FType f) v
               ++ Vt' ++ post)
        with (pre ++ (Fd ++ off) ++ Ft' ++ (Vd ++ enc (FType f) v)
              ++ Vt' ++ post)
        by reassoc.
      replace (len pre + len Fd + 4) with (len pre + len (Fd ++ off))
        by (unfold off; lens; lia).
      replace (len (pre ++ Fd ++ (F4 ++ Ft') ++ Vd) + len (enc (FType f) v))
        with (len pre + len (Fd ++ off) + len Ft'
              + len (Vd ++ enc (FType f) v))
        by (unfold off; lens; lia).
      rewrite IH; [|assumption | assumption | assumption | exact LFt'
                   |exact LVt' | unfold off; lens; lia].
      f_equal. f_equal; [unfold off; lens; lia|].
      unfold off. rewrite <- !app_assoc. cbn [app].
      do 2 f_equal.
      replace (len (pre ++ Fd ++ F4 ++ Ft' ++ Vd) - len pre)
        with (len Fd + len (F4 ++ Ft') + len Vd) by (lens; lia).
      f_equal. f_equal. f_equal. lens. lia.
    + (* a fixed-size field *)
      destruct (split_len Ft (len (enc (FType f) v)) (fixed_length parts))
        as [Fv [Ft' [-> [LFv LFt']]]];
        [lia | assumption | lens; lia |].
      pose proof (len_nonneg Ft'). pose proof (len_nonneg Vt).
      assert (Hb' : len pre + len Fd + len Fv + len Ft' + len Vd
                    + len Vt + len post < 2 ^ 32) by (lens; lia).
      replace (pre ++ Fd ++ (Fv ++ Ft') ++ Vd ++ Vt ++ post)
        with ((pre ++ Fd) ++ Fv ++ (Ft' ++ Vd ++ Vt ++ post)) by reassoc.
      replace (len pre + len Fd) with (len (pre ++ Fd)) by (lens; lia).
      rewrite HWf; [|assumption | now apply SSZFactory_supported
                    | assumption | lens; lia].
      cbn [bind].
      replace ((pre ++ Fd) ++ enc (FType f) v ++ Ft' ++ Vd ++ Vt ++ post)
        with (pre ++ (Fd ++ enc (FType f) v) ++ Ft' ++ Vd ++ Vt ++ post)
        by reassoc.
      replace (len (pre ++ Fd) + len (enc (FType f) v))
        with (len pre + len (Fd ++ enc (FType f) v)) by (lens; lia).
      replace (len (pre ++ Fd) + len (Fv ++ Ft') + len Vd)
        with (len pre + len (Fd ++ enc (FType f) v) + len Ft' + len Vd)
        by (lens; lia).
      rewrite IH; [|assumption | assumption | assumption | exact LFt'
                   |exact HVt | lens; lia].
      f_equal. f_equal.
      rewrite <- !app_assoc. do 3 f_equal.
      f_equal. f_equal. lens. lia.
Qed.

End MarshalLoops.

(** ** [Marshal] writes the layout *)

Lemma basicSSZ_Marshal_writes (t : type) (w : nat) (v : value)
  (pre mid post : list byte) :
  basic_width t = Some w ->
  has_type t v = true ->
  len mid = len (enc t v) ->
  len (pre ++ mid ++ post) < 2 ^ 32 ->
  basicSSZ_Marshal v t (pre ++ mid ++ post) (len pre)
  = Ok (len pre + len (enc t v), pre ++ enc t v ++ post).
Proof.
  intros Hw Ht Hl Hb.
  pose proof (len_nonneg pre). pose proof (len_nonneg mid).
  pose proof (len_nonneg post).
  assert (Hb' : len pre + len mid + len post < 2 ^ 32) by (lens; lia).
  destruct t; cbn [basic_width] in Hw; inversion Hw; subst;
    destruct v; cbn in Ht; try discriminate;
    cbn [basicSSZ_Marshal basic_width enc] in *;
    (rewrite copy_at_app; [|reflexivity | assumption]);
    cbn [bind]; lens; rewrite add64_small by lia; reflexivity.
Qed.

Lemma list_children_length_fixed (e : type) (items : list value) :
  isVariableSizeType e = true ->
  fixed_length (list_children e items) = 4 * len items.
Proof.
  intros Hv. unfold list_children. rewrite Hv.
  induction items as [|v items IH]; [reflexivity|].
  cbn [map fixed_length]. rewrite IH. lens.
  change BytesPerLengthOffset with 4. lia.
Qed.

Lemma collection_Marshal_writes
  (Marshal_ : SSZAble -> value -> type -> list byte -> Z
              -> result (Z * list byte))
  (e : type) (items : list value) (pre mid post : list byte) :
  supported e = true ->
  writes Marshal_ e ->
  forallb (has_type e) items = true ->
  len mid = len (layout (list_children e items)) ->
  len (pre ++ mid ++ post) < 2 ^ 32 ->
  let expected :=
    Ok (len pre + len (layout (list_children e items)),
        pre ++ layout (list_children e items) ++ post) in
  (isVariableSizeType e = false ->
   forall typ, Elem typ = Ok e ->
     basicSliceSSZ_Marshal Marshal_ (VList items) typ (pre ++ mid ++ post)
       (len pre) = expected
     /\ basicArraySSZ_Marshal Marshal_ (VList items) typ (pre ++ mid ++ post)
          (len pre) = expected)
  /\ (isVariableSizeType e = true ->
      forall typ, Elem typ = Ok e ->
        compositeSliceSSZ_Marshal Marshal_ (VList items) typ
          (pre ++ mid ++ post) (len pre) = expected
        /\ compositeArraySSZ_Marshal Marshal_ (VList items) typ
             (pre ++ mid ++ post) (len pre) = expected).
Proof.
  intros Hs HW Ht Hl Hb expected. subst expected.
  pose proof (len_nonneg pre). pose proof (len_nonneg mid).
  pose proof (len_nonneg post).
  assert (Hb' : len pre + len mid + len post < 2 ^ 32) by (lens; lia).
  split; intros Hv typ HE.
  - (* fixed-size elements *)
    assert (G : basicSliceSSZ_Marshal Marshal_ (VList items) typ
                  (pre ++ mid ++ post) (len pre)
                = Ok (len pre + len (layout (list_children e items)),
                      pre ++ layout (list_children e items) ++ post)).
    { unfold basicSliceSSZ_Marshal. cbn [Items bind].
      destruct items as [|v0 items'].
      - cbn in Hl. apply len_zero_nil in Hl. subst mid.
        cbn. now rewrite Z.add_0_r.
      - set (items := v0 :: items') in *.
        replace (len items =? 0) with false
          by (symmetry; apply Z.eqb_neq; subst items; lens;
              pose proof (len_nonneg items'); lia).
        replace (elem_at items 0) with (Ok v0)
          by (subst items; symmetry; apply (elem_at_app [] items' v0);
              reflexivity).
        cbn [bind]. rewrite HE. cbn [bind].
        rewrite (SSZFactory_supported _ _ Hs). cbn [bind].
        rewrite list_children_fixed in * by assumption.
        rewrite (marshal_each_spec Marshal_ e (factory_of e) items HW);
          try assumption.
        + rewrite Hl. reflexivity.
        + intros w _. now apply SSZFactory_supported. }
    split; [exact G | exact G].
  - (* variable-size elements *)
    assert (G : compositeSliceSSZ_Marshal Marshal_ (VList items) typ
                  (pre ++ mid ++ post) (len pre)
                = Ok (len pre + len (layout (list_children e items)),
                      pre ++ layout (list_children e items) ++ post)).
    { unfold compositeSliceSSZ_Marshal. cbn [Items bind].
      destruct items as [|v0 items'].
      - cbn in Hl. apply len_zero_nil in Hl. subst mid.
        cbn. now rewrite Z.add_0_r.
      - set (items := v0 :: items') in *.
        replace (len items =? 0) with false
          by (symmetry; apply Z.eqb_neq; subst items; lens;
              pose proof (len_nonneg items'); lia).
        replace (elem_at items 0) with (Ok v0)
          by (subst items; symmetry; apply (elem_at_app [] items' v0);
              reflexivity).
        cbn [bind]. rewrite HE. cbn [bind].
        rewrite (SSZFactory_supported _ _ Hs). cbn [bind].
        rewrite Hv. cbn [negb].
        rewrite len_layout in Hl.
        pose proof (fixed_length_nonneg (list_children e items)) as Hfl.
        destruct (split_len mid (fixed_length (list_children e items))
                    (len (variable_part (list_children e items))))
          as [Ft [Vt [-> [LFt LVt]]]];
          [assumption | apply len_nonneg | assumption |].
        pose proof (list_children_length_fixed e items Hv) as HL.
        pose proof (len_nonneg items).
        assert (len pre + len Ft + len Vt + len post < 2 ^ 32)
          by (lens; lia).
        pose proof (len_nonneg Vt).
        unfold mul64. change BytesPerLengthOffset with 4.
        rewrite (u64_small (len items * 4)) by lia.
        rewrite add64_small by lia.
        pose proof (marshal_offsets_spec Marshal_ e (factory_of e) items HW
                      Hv (fun w _ => SSZFactory_supported e w Hs)
                      pre [] Ft [] Vt post Ht LFt LVt) as M.
        cbn [app] in M. rewrite len_nil in M.
        replace (len pre + 0) with (len pre) in M by lia.
        replace (len pre + len Ft + 0) with (len pre + len items * 4) in M
          by lia.
        replace (pre ++ (Ft ++ Vt) ++ post) with (pre ++ Ft ++ Vt ++ post)
          by reassoc.
        rewrite M by (lens; lia).
        unfold layout. f_equal. f_equal; [lens; lia|].
        f_equal. rewrite <- app_assoc. f_equal. f_equal. lia. }
    split; [exact G | exact G].
Qed.

Lemma structSSZ_Marshal_writes
  (Marshal_ : SSZAble -> value -> type -> list byte -> Z
              -> result (Z * list byte))
  (fs : list StructField) (vs : list value) (pre mid post : list byte) :
  (forall f, In f fs -> writes Marshal_ (FType f)) ->
  has_type_fields fs vs = true ->
  forallb supported_field fs = true ->
  len mid = len (layout (struct_children fs vs)) ->
  len (pre ++ mid ++ post) < 2 ^ 32 ->
  structSSZ_Marshal Marshal_ (VStruct vs) (TStruct fs) (pre ++ mid ++ post)
    (len pre)
  = Ok (len pre + len (layout (struct_children fs vs)),
        pre ++ layout (struct_children fs vs) ++ post).
Proof.
  intros HW Ht Hs Hl Hb.
  pose proof (len_nonneg pre). pose proof (len_nonneg mid).
  pose proof (len_nonneg post).
  assert (Hb' : len pre + len mid + len post < 2 ^ 32) by (lens; lia).
  unfold structSSZ_Marshal. cbn [Fields bind].
  rewrite len_layout in Hl.
  pose proof (fixed_length_nonneg (struct_children fs vs)) as Hfl.
  pose proof (len_nonneg (variable_part (struct_children fs vs))).
  pose proof (struct_fixedLength_spec fs fs [] vs 0 Ht Hs) as FL.
  cbn [app] in FL. change (len (@nil value)) with 0 in FL.
  rewrite FL by lia. cbn [bind]. rewrite Z.add_0_l.
  destruct (split_len mid (fixed_length (struct_children fs vs))
              (len (variable_part (struct_children fs vs))))
    as [Ft [Vt [-> [LFt LVt]]]]; [assumption | assumption | assumption |].
  rewrite add64_small by (lens; lia).
  pose proof (struct_marshal_fields_spec Marshal_ fs HW [] vs pre [] Ft []
                Vt post Ht Hs LFt LVt) as M.
  cbn [app] in M. change (len (@nil value)) with 0 in M.
  change (len (@nil byte)) with 0 in M.
  replace (len pre + 0) with (len pre) in M by lia.
  replace (len pre + len Ft + 0)
    with (len pre + fixed_length (struct_children fs vs)) in M by lia.
  replace (pre ++ (Ft ++ Vt) ++ post) with (pre ++ Ft ++ Vt ++ post)
    by reassoc.
  rewrite M by (lens; lia).
  unfold layout. f_equal. f_equal; [lens; lia|].
  f_equal. rewrite <- app_assoc. f_equal. f_equal. lia.
Qed.

Lemma supported_field_In (fs : list StructField) (f : StructField) :
  forallb supported_field fs = true -> In f fs ->
  supported (FType f) = true.
Proof.
  intros H Hin. rewrite forallb_forall in H. specialize (H f Hin).
  unfold supported_field in H. apply andb_true_iff in H. tauto.
Qed.

Lemma SSZAble_Marshal_writes :
  forall fuel t,
    (type_depth t < fuel)%nat -> supported t = true ->
    writes (SSZAble_Marshal fuel) t.
Proof.
  induction fuel as [|fuel IH]; intros t Hd Hs; [lia|].
  intros v f pre mid post Ht HF Hl Hb.
  rewrite (SSZFactory_supported _ _ Hs) in HF. inversion HF; subst f.
  destruct t; try (cbn in Hs; discriminate);
    try (cbn [factory_of SSZAble_Marshal];
         eapply basicSSZ_Marshal_writes; eauto; reflexivity).
  - (* TSlice *)
    cbn [supported] in Hs. cbn [type_depth] in Hd.
    destruct v; cbn [has_type] in Ht; try discriminate.
    rewrite enc_slice in *.
    assert (HW : writes (SSZAble_Marshal fuel) t) by (apply IH; [lia | assumption]).
    destruct (collection_Marshal_writes (SSZAble_Marshal fuel) t items
                pre mid post Hs HW Ht Hl Hb) as [Cf Cv].
    cbn [factory_of].
    destruct (isVariableSizeType t) eqn:Hv; cbn [SSZAble_Marshal].
    + apply (Cv eq_refl (TSlice t) eq_refl).
    + apply (Cf eq_refl (TSlice t) eq_refl).
  - (* TArray *)
    cbn [supported] in Hs. apply andb_true_iff in Hs. destruct Hs as [Hs _].
    cbn [type_depth] in Hd.
    destruct v; cbn [has_type] in Ht; try discriminate.
    apply andb_true_iff in Ht. destruct Ht as [_ Ht].
    rewrite enc_array in *.
    assert (HW : writes (SSZAble_Marshal fuel) t) by (apply IH; [lia | assumption]).
    destruct (collection_Marshal_writes (SSZAble_Marshal fuel) t items
                pre mid post Hs HW Ht Hl Hb) as [Cf Cv].
    cbn [factory_of].
    destruct (isVariableSizeType t) eqn:Hv; cbn [SSZAble_Marshal].
    + apply (Cv eq_refl (TArray n t) eq_refl).
    + apply (Cf eq_refl (TArray n t) eq_refl).
  - (* TStruct *)
    rename fields into fs.
    destruct v; try discriminate. rename fields into vs.
    rewrite has_type_struct in Ht. rewrite supported_struct in Hs.
    apply andb_true_iff in Hs. destruct Hs as [_ Hs].
    rewrite enc_struct in *.
    cbn [factory_of SSZAble_Marshal].
    apply structSSZ_Marshal_writes; try assumption.
    intros g Hg. apply IH.
    + pose proof (field_depth fs g Hg). lia.
    + eapply supported_field_In; eauto.
Qed.

Lemma make_bytes_len (n : Z) : 0 <= n -> len (make_bytes n) = n.
Proof. intros H. unfold make_bytes. rewrite len_repeat. lia. Qed.

Lemma Marshal_enc (t : type) (v : value) :
  supported t = true -> has_type t v = true -> len (enc t v) < 2 ^ 32 ->
  Marshal (plain v t) = Ok (enc t v).
Proof.
  intros Hs Ht Hb. unfold Marshal, Marshal_with, plain.
  cbn [MarshalSSZ dyn_value dyn_type].
  rewrite (SSZFactory_supported _ _ Hs). cbn [bind].
  unfold DetermineSize. rewrite determineSize_enc by assumption.
  pose proof (len_nonneg (enc t v)) as Hn.
  pose proof (SSZAble_Marshal_writes (S (S (type_depth t))) t
                ltac:(lia) Hs v (factory_of t) []
                (make_bytes (len (enc t v))) []
                Ht (SSZFactory_supported _ _ Hs)
                (make_bytes_len _ Hn)) as W.
  cbn [app] in W. rewrite !app_nil_r in W.
  rewrite make_bytes_len in W by assumption.
  specialize (W Hb). change (len (@nil byte)) with 0 in W.
  unfold factory_Marshal.
  destruct t; try (cbn in Hs; discriminate); rewrite W; reflexivity.
Qed.

(** ** The offsets written for a composite of variable-size elements *)

Lemma offsets_at_fixed_part (parts : list child) :
  forall done off rest,
    Forall (fun p => fst p = true) parts ->
    0 <= off ->
    off + len (variable_part parts) < 2 ^ 32 ->
    offsets_at (done ++ fixed_part parts off ++ rest) (List.length done)
      (List.length parts)
    = running_offsets parts off.
Proof.
  induction parts as [|[[|] b] parts IH]; intros done off rest Hp H0 Hb.
  - reflexivity.
  - inversion Hp; subst.
    cbn [fixed_part variable_part running_offsets List.length offsets_at]
      in *.
    rewrite len_app in Hb. pose proof (len_nonneg b).
    pose proof (len_nonneg (variable_part parts)).
    rewrite skipn_app, skipn_all, Nat.sub_diag. cbn [skipn app].
    rewrite <- app_assoc.
    replace 4%nat with (List.length (PutUint32 off)) at 1 by reflexivity.
    rewrite firstn_app, firstn_all, Nat.sub_diag. cbn [firstn].
    rewrite app_nil_r.
    unfold PutUint32. rewrite le_value_le_bytes_small by (cbn; lia).
    f_equal.
    replace (done ++ le_bytes 4 off ++ fixed_part parts (off + len b) ++ rest)
      with ((done ++ le_bytes 4 off) ++ fixed_part parts (off + len b)
            ++ rest) by reassoc.
    replace (List.length done + 4)%nat
      with (List.length (done ++ le_bytes 4 off))
      by (rewrite length_app, length_le_bytes; reflexivity).
    apply IH; [assumption | lia | lia].
  - inversion Hp; subst. discriminate.
Qed.

Lemma nondecreasing_cons (a b : Z) (l : list Z) :
  nondecreasing (a :: b :: l) = (a <=? b) && nondecreasing (b :: l).
Proof. reflexivity. Qed.

Lemma running_offsets_nondecreasing (parts : list child) :
  forall off, nondecreasing (running_offsets parts off) = true.
Proof.
  induction parts as [|[fl b] parts IH]; intros off; [reflexivity|].
  specialize (IH (off + len b)).
  destruct parts as [|[fl' b'] parts']; [reflexivity|].
  cbn [running_offsets] in *. rewrite nondecreasing_cons, IH.
  pose proof (len_nonneg b).
  replace (off <=? off + len b) with true
    by (symmetry; apply Z.leb_le; lia).
  reflexivity.
Qed.

Lemma running_offsets_length (parts : list child) :
  forall off, List.length (running_offsets parts off) = List.length parts.
Proof.
  induction parts as [|[fl b] parts IH]; intros off; [reflexivity|].
  cbn. now rewrite IH.
Qed.



(* ------------------------------------------------------------------ *)
(** * A null sub-structure and a zero sub-structure *)

Lemma elem_at_replace {A} (a b : list A) (x y : A) (i : Z) :
  elem_at (a ++ y :: b) i
  = if i =? len a then Ok y else elem_at (a ++ x :: b) i.
Proof.
  destruct (i =? len a) eqn:E.
  - apply Z.eqb_eq in E. now apply elem_at_app.
  - apply Z.eqb_neq in E. unfold elem_at.
    rewrite !len_app, !len_cons.
    destruct ((0 <=? i) && (i <? len a + (1 + len b))) eqn:R; [|reflexivity].
    apply andb_true_iff in R. destruct R as [R1 R2].
    apply Z.leb_le in R1. apply Z.ltb_lt in R2.
    f_equal. unfold len in *.
    destruct (Z_lt_le_dec i (Z.of_nat (List.length a))) as [L|L].
    + rewrite !nth_error_app1 by lia. reflexivity.
    + rewrite !nth_error_app2 by lia.
      destruct (Z.to_nat i - List.length a)%nat as [|k] eqn:K; [lia|].
      reflexivity.
Qed.

Lemma pointer_Marshal_nil_zero (fuel : nat) (factory : SSZAble) (S : type)
  (buf : list byte) (idx : Z) :
  SSZAble_Marshal fuel factory (VPtr None) (TPtr S) buf idx
  = SSZAble_Marshal fuel factory (VPtr (Some (zero S))) (TPtr S) buf idx.
Proof.
  destruct fuel as [|fuel]; [reflexivity|].
  destruct factory; reflexivity.
Qed.

Section NilZero.

Variable S : type.
Variable a b : list value.
Variable all : list StructField.

Abbreviation v_null := (VStruct (a ++ VPtr None :: b)).
Abbreviation v_zero := (VStruct (a ++ VPtr (Some (zero S)) :: b)).
Abbreviation pointer_slot := (pointer_slot S a).

Lemma pointer_slot_tail (f : StructField) (fs : list StructField) (i : Z) :
  pointer_slot (f :: fs) i -> pointer_slot fs (i + 1).
Proof.
  intros H j g Hj Hg. apply (H (Datatypes.S j) g); [lia | exact Hg].
Qed.

Lemma struct_fixedLength_nil_zero (fs : list StructField) :
  forall i acc,
    struct_fixedLength (TStruct all) v_null fs i acc
    = struct_fixedLength (TStruct all) v_zero fs i acc.
Proof.
  induction fs as [|f fs IH]; intros i acc; [reflexivity|].
  cbn [struct_fixedLength determineFieldType bind].
  destruct (isVariableSizeType (FType f)); [apply IH|].
  cbn [FieldValues bind].
  rewrite (elem_at_replace a b (VPtr None) (VPtr (Some (zero S))) i).
  destruct (i =? len a) eqn:E.
  - apply Z.eqb_eq in E. rewrite elem_at_app by assumption.
    cbn [bind]. apply IH.
  - destruct (elem_at (a ++ VPtr None :: b) i); cbn [bind];
      [apply IH | reflexivity | reflexivity].
Qed.

Lemma struct_marshal_fields_nil_zero (fuel : nat) (fs : list StructField) :
  forall i buf startOffset fixedIndex currentOffsetIndex,
    pointer_slot fs i ->
    struct_marshal_fields (SSZAble_Marshal fuel) v_null fs i buf
      startOffset fixedIndex currentOffsetIndex
    = struct_marshal_fields (SSZAble_Marshal fuel) v_zero fs i buf
        startOffset fixedIndex currentOffsetIndex.
Proof.
  induction fs as [|f fs IH];
    intros i buf startOffset fixedIndex currentOffsetIndex Hp;
    [reflexivity|].
  pose proof (pointer_slot_tail _ _ _ Hp) as Hp'.
  cbn [struct_marshal_fields determineFieldType bind].
  cbn [FieldValues bind].
  rewrite (elem_at_replace a b (VPtr None) (VPtr (Some (zero S))) i).
  destruct (i =? len a) eqn:E.
  - apply Z.eqb_eq in E. rewrite elem_at_app by assumption.
    cbn [bind].
    assert (HT : FType f = TPtr S).
    { apply (Hp O f); [cbn; lia | reflexivity]. }
    rewrite HT. cbn [SSZFactory].
    destruct (SSZFactory (zero S) S) as [factory| |]; cbn [bind];
      try reflexivity.
    rewrite !(pointer_Marshal_nil_zero fuel factory S).
    destruct (negb (isVariableSizeType (TPtr S))).
    + destruct (SSZAble_Marshal fuel factory (VPtr (Some (zero S)))
                  (TPtr S) buf fixedIndex) as [[fi bf]| |]; cbn [bind];
        try reflexivity.
      apply IH, Hp'.
    + destruct (SSZAble_Marshal fuel factory (VPtr (Some (zero S)))
                  (TPtr S) buf currentOffsetIndex) as [[ni bf]| |];
        cbn [bind]; try reflexivity.
      destruct (copy_at bf fixedIndex _); cbn [bind]; try reflexivity.
      apply IH, Hp'.
  - destruct (elem_at (a ++ VPtr None :: b) i) as [v| |]; cbn [bind];
      try reflexivity.
    destruct (SSZFactory v (FType f)) as [factory| |]; cbn [bind];
      try reflexivity.
    destruct (negb (isVariableSizeType (FType f))).
    + destruct (SSZAble_Marshal fuel factory v (FType f) buf fixedIndex)
        as [[fi bf]| |]; cbn [bind]; try reflexivity.
      apply IH, Hp'.
    + destruct (SSZAble_Marshal fuel factory v (FType f) buf
                  currentOffsetIndex) as [[ni bf]| |];
        cbn [bind]; try reflexivity.
      destruct (copy_at bf fixedIndex _); cbn [bind]; try reflexivity.
      apply IH, Hp'.
Qed.

Lemma structType_Marshal_nil_zero (fuel : nat) (buf : list byte)
  (startOffset : Z) :
  pointer_slot all 0 ->
  SSZAble_Marshal fuel structType v_null (TStruct all) buf startOffset
  = SSZAble_Marshal fuel structType v_zero (TStruct all) buf startOffset.
Proof.
  intros Hp. destruct fuel as [|fuel]; [reflexivity|].
  cbn [SSZAble_Marshal]. unfold structSSZ_Marshal. cbn [Fields bind].
  rewrite struct_fixedLength_nil_zero.
  destruct (struct_fixedLength (TStruct all) v_zero all 0 0); cbn [bind];
    try reflexivity.
  now apply struct_marshal_fields_nil_zero.
Qed.

Lemma size_fields_nil_zero :
  forall a0 fs,
    (forall f, nth_error fs (List.length a0) = Some f -> FType f = TPtr S) ->
    size_fields fs (a0 ++ VPtr None :: b)
    = size_fields fs (a0 ++ VPtr (Some (zero S)) :: b).
Proof.
  induction a0 as [|v a0 IH]; intros [|f fs] H; try reflexivity.
  - cbn [app size_fields]. rewrite (H f eq_refl). reflexivity.
  - cbn [app size_fields]. rewrite (IH fs); [reflexivity|].
    intros g Hg. apply H. exact Hg.
Qed.

Lemma DetermineSize_nil_zero :
  pointer_slot all 0 ->
  DetermineSize v_null (TStruct all) = DetermineSize v_zero (TStruct all).
Proof.
  intros Hp. unfold DetermineSize. rewrite !determineSize_struct.
  apply size_fields_nil_zero. intros f Hf.
  apply (Hp (List.length a) f); [unfold len; lia | exact Hf].
Qed.

End NilZero.

(** C7.  A container whose field after the slots [a] has the pointer type
    [*S]: marshalling the value with that slot null and marshalling it with
    the slot pointing to the zero value of [S] give the same result, the
    same bytes when one of them succeeds; so it is when the container
    is handed to [Marshal] behind a pointer. *)
Theorem nil_subfield_marshals_as_zero
  (S : type) (a b : list value) (fs : list StructField) (f : StructField) :
  nth_error fs (List.length a) = Some f ->
  FType f = TPtr S ->
  let v_null := VStruct (a ++ VPtr None :: b) in
  let v_zero := VStruct (a ++ VPtr (Some (zero S)) :: b) in
  Marshal (plain v_null (TStruct fs)) = Marshal (plain v_zero (TStruct fs))
  /\ Marshal (plain (VPtr (Some v_null)) (TPtr (TStruct fs)))
     = Marshal (plain (VPtr (Some v_zero)) (TPtr (TStruct fs))).
Proof.
  intros Hn HT v_null v_zero.
  assert (Hp : pointer_slot S a fs 0).
  { intros j g Hj Hg. unfold len in Hj.
    replace j with (List.length a) in Hg by lia. congruence. }
  pose proof (DetermineSize_nil_zero S a b fs Hp) as HD.
  fold v_null v_zero in HD.
  split.
  - unfold Marshal, Marshal_with, plain.
    cbn [MarshalSSZ dyn_value dyn_type SSZFactory bind].
    rewrite HD. unfold factory_Marshal.
    unfold v_null, v_zero.
    rewrite (structType_Marshal_nil_zero S a b fs _ _ _ Hp). reflexivity.
  - unfold Marshal, Marshal_with, plain.
    cbn [MarshalSSZ dyn_value dyn_type SSZFactory bind IsNil].
    replace (DetermineSize (VPtr (Some v_null)) (TPtr (TStruct fs)))
      with (DetermineSize v_null (TStruct fs)) by reflexivity.
    replace (DetermineSize (VPtr (Some v_zero)) (TPtr (TStruct fs)))
      with (DetermineSize v_zero (TStruct fs)) by reflexivity.
    rewrite HD. unfold factory_Marshal.
    unfold v_null, v_zero.
    rewrite (structType_Marshal_nil_zero S a b fs _ _ _ Hp). reflexivity.
Qed.

Lemma nil_subfield_marshals_as_zero_witness :
  let a := [VUint 5; bytes_value [1; 2; 3; 4]] in
  Marshal (plain (VPtr (Some (VStruct (a ++ [VPtr None])))) (TPtr example))
  = Marshal
      (plain (VPtr (Some (VStruct (a ++ [VPtr (Some (zero exampleBody))]))))
         (TPtr example))
  /\ Marshal (plain (VPtr (Some (VStruct (a ++ [VPtr None])))) (TPtr example))
     = Ok (bytes_of [5; 0; 0; 0; 0; 0; 0; 0; 1; 2; 3; 4;
                     0; 0; 0; 0; 0; 0; 0; 0]).
Proof.
  split.
  - exact (proj2 (nil_subfield_marshals_as_zero exampleBody
                    [VUint 5; bytes_value [1; 2; 3; 4]] []
                    [mkField "Slot" TUint64 None;
                     mkField "Root" (TArray 4 TUint8) None;
                     mkField "Body" (TPtr exampleBody) None]
                    (mkField "Body" (TPtr exampleBody) None)
                    eq_refl eq_refl)).
  - vm_compute. reflexivity.
Defined.

(* ------------------------------------------------------------------ *)
(** * [Unmarshal] reads the layout back *)

Lemma in_range_bound (bits n : Z) :
  in_range bits n = true -> 0 <= n < 2 ^ bits.
Proof.
  unfold in_range. rewrite andb_true_iff, Z.leb_le, Z.ltb_lt. tauto.
Qed.

Lemma basicSSZ_Unmarshal_reads (t : type) (w : nat) (v d : value)
  (pre post : list byte) :
  basic_width t = Some w ->
  has_type t v = true ->
  len (pre ++ enc t v ++ post) < 2 ^ 32 ->
  basicSSZ_Unmarshal d t (pre ++ enc t v ++ post) (len pre)
  = Ok (len pre + len (enc t v), v).
Proof.
  intros Hw Ht Hb.
  pose proof (len_nonneg pre). pose proof (len_nonneg post).
  pose proof (has_type_basic_len t v w Hw Ht) as Hl.
  assert (Hb' : len pre + Z.of_nat w + len post < 2 ^ 32) by (lens; lia).
  unfold basicSSZ_Unmarshal. rewrite Hw.
  rewrite add64_small by lia.
  replace (len (pre ++ enc t v ++ post) <? len pre + Z.of_nat w) with false
    by (symmetry; apply Z.ltb_ge; lens; lia).
  rewrite (slice_app pre (enc t v) post) by lia.
  cbn [bind]. rewrite Hl.
  destruct t; cbn [basic_width] in Hw; inversion Hw; subst;
    destruct v; cbn [has_type] in Ht; try discriminate; cbn [enc].
  - destruct b; reflexivity.
  - apply in_range_bound in Ht.
    rewrite le_value_le_bytes_small by (cbn; lia). reflexivity.
  - apply in_range_bound in Ht.
    rewrite le_value_le_bytes_small by (cbn; lia). reflexivity.
  - apply in_range_bound in Ht.
    rewrite le_value_le_bytes_small by (cbn; lia). reflexivity.
  - apply in_range_bound in Ht.
    rewrite le_value_le_bytes_small by (cbn; lia). reflexivity.
Qed.

Lemma instantiate_if_ptr_supported (d : value) (t : type) :
  supported t = true -> instantiate_if_ptr d t = Ok d.
Proof. destruct t; cbn; intros H; try discriminate; reflexivity. Qed.

Lemma len_concat_fixed (e : type) (items : list value) :
  supported e = true -> isVariableSizeType e = false ->
  forallb (has_type e) items = true ->
  len (List.concat (map (enc e) items)) = len items * fixed_size e.
Proof.
  intros Hs Hv Ht. induction items as [|v items IH]; [reflexivity|].
  cbn [forallb] in Ht. apply andb_true_iff in Ht. destruct Ht as [Ht1 Ht2].
  cbn [map List.concat]. lens. rewrite IH by assumption.
  rewrite enc_fixed_len by assumption. lia.
Qed.

Lemma var_offsets_head (parts : list child) (o : Z) :
  exists tl,
    var_offsets parts o ++ [o + len (variable_part parts)] = o :: tl.
Proof.
  revert o. induction parts as [|[[|] b] parts IH]; intros o.
  - exists []. cbn. now rewrite Z.add_0_r.
  - eexists. cbn [var_offsets variable_part app]. reflexivity.
  - cbn [var_offsets variable_part]. apply IH.
Qed.

Lemma fixed_length_variable (fs : list StructField) :
  forall vs,
    has_type_fields fs vs = true ->
    existsb (fun f => isVariableSizeType (FType f)) fs = true ->
    4 <= fixed_length (struct_children fs vs).
Proof.
  induction fs as [|f fs IH]; intros [|v vs] Ht Hv; try discriminate.
  cbn [has_type_fields existsb struct_children] in *.
  apply andb_true_iff in Ht. destruct Ht as [_ Ht].
  pose proof (fixed_length_nonneg (struct_children fs vs)).
  pose proof (len_nonneg (enc (FType f) v)).
  destruct (isVariableSizeType (FType f)); cbn [fixed_length].
  - change BytesPerLengthOffset with 4. lia.
  - cbn [orb] in Hv. specialize (IH vs Ht Hv). lia.
Qed.

Lemma empty_variable_is_zero (t : type) (v : value) :
  supported t = true -> isVariableSizeType t = true ->
  has_type t v = true -> enc t v = [] -> v = zero t.
Proof.
  intros Hs Hv Ht He.
  assert (Hl : len (enc t v) = 0) by (now rewrite He).
  clear He.
  destruct t; try (cbn in Hs; discriminate); try (cbn in Hv; discriminate).
  - (* TSlice *)
    cbn [supported] in Hs.
    destruct v; cbn [has_type] in Ht; try discriminate.
    destruct items as [|v0 rest]; [reflexivity|]. exfalso.
    rewrite enc_slice in Hl.
    destruct (isVariableSizeType t) eqn:Hve.
    + rewrite len_layout, (list_children_length_fixed _ _ Hve) in Hl.
      rewrite len_cons in Hl. pose proof (len_nonneg rest).
      pose proof (len_nonneg (variable_part (list_children t (v0 :: rest)))).
      lia.
    + rewrite list_children_fixed in Hl by assumption.
      rewrite (len_concat_fixed t (v0 :: rest) Hs Hve Ht) in Hl.
      pose proof (fixed_size_pos t Hs Hve). rewrite len_cons in Hl.
      pose proof (len_nonneg rest). nia.
  - (* TArray *)
    cbn [supported] in Hs. apply andb_true_iff in Hs. destruct Hs as [Hs Hn].
    cbn [isVariableSizeType] in Hv.
    destruct v; cbn [has_type] in Ht; try discriminate.
    apply andb_true_iff in Ht. destruct Ht as [Hlen Ht].
    apply Nat.eqb_eq in Hlen. subst n.
    destruct items as [|v0 rest]; [discriminate|]. exfalso.
    rewrite enc_array in Hl.
    rewrite len_layout, (list_children_length_fixed _ _ Hv) in Hl.
    rewrite len_cons in Hl. pose proof (len_nonneg rest).
    pose proof (len_nonneg (variable_part (list_children t (v0 :: rest)))).
    lia.
  - (* TStruct *)
    destruct v; try discriminate. exfalso.
    rewrite has_type_struct in Ht. cbn [isVariableSizeType] in Hv.
    rewrite enc_struct, len_layout in Hl.
    pose proof (fixed_length_variable _ _ Ht Hv).
    pose proof (len_nonneg (variable_part (struct_children fields fields0))).
    lia.
Qed.

Lemma fixed_part_fixed (parts : list child) (o1 o2 : Z) :
  Forall (fun p => fst p = false) parts ->
  fixed_part parts o1 = fixed_part parts o2.
Proof.
  intros H. revert o1 o2.
  induction H as [|[[|] b] parts Hp _ IH]; intros o1 o2.
  - reflexivity.
  - discriminate.
  - cbn [fixed_part]. f_equal. apply IH.
Qed.

Section UnmarshalLoops.

Variable Unmarshal_ :
  SSZAble -> value -> type -> list byte -> Z -> result (Z * value).

Lemma basicArray_decode_spec (e : type) :
  supported e = true ->
  reads_fixed Unmarshal_ e ->
  forall rest done pre post,
    forallb (has_type e) rest = true ->
    len (pre ++ List.concat (map (enc e) rest) ++ post) < 2 ^ 32 ->
    basicArray_decode Unmarshal_ e
      (pre ++ List.concat (map (enc e) rest) ++ post) (List.length rest)
      (len done) (done ++ repeat (zero e) (List.length rest)) (len pre)
    = Ok (len pre + len (List.concat (map (enc e) rest)), done ++ rest).
Proof.
  intros Hs HR.
  induction rest as [|v rest IH]; intros done pre post Ht Hb.
  - cbn. rewrite app_nil_r, Z.add_0_r. reflexivity.
  - cbn [forallb] in Ht. apply andb_true_iff in Ht. destruct Ht as [Ht1 Ht2].
    cbn [map List.concat List.length repeat basicArray_decode] in *.
    rewrite elem_at_app by reflexivity. cbn [bind].
    rewrite (instantiate_if_ptr_supported _ _ Hs). cbn [bind].
    replace (match e with
             | TPtr ee => SSZFactory (zero e) ee
             | _ => SSZFactory (zero e) e
             end) with (Ok (factory_of e))
      by (symmetry; rewrite <- (SSZFactory_supported e (zero e) Hs);
          destruct e; try reflexivity; discriminate).
    cbn [bind].
    replace (pre ++ (enc e v ++ List.concat (map (enc e) rest)) ++ post)
      with (pre ++ enc e v ++ (List.concat (map (enc e) rest) ++ post))
      in * by reassoc.
    rewrite HR by assumption. cbn [bind].
    rewrite store_app by reflexivity. cbn [bind].
    replace (pre ++ enc e v ++ List.concat (map (enc e) rest) ++ post)
      with ((pre ++ enc e v) ++ List.concat (map (enc e) rest) ++ post)
      in * by reassoc.
    replace (len pre + len (enc e v)) with (len (pre ++ enc e v))
      by (lens; lia).
    replace (len done + 1) with (len (done ++ [v])) by (lens; lia).
    replace (done ++ v :: repeat (zero e) (List.length rest))
      with ((done ++ [v]) ++ repeat (zero e) (List.length rest))
      by reassoc.
    rewrite IH by assumption.
    f_equal. f_equal; [lens; lia | reassoc].
Qed.

Lemma basicSlice_decode_rest_reads (e : type) :
  supported e = true ->
  reads_fixed Unmarshal_ e ->
  forall rest done pre post,
    forallb (has_type e) rest = true ->
    len (pre ++ List.concat (map (enc e) rest) ++ post) < 2 ^ 32 ->
    basicSlice_decode_rest Unmarshal_ (factory_of e) (TSlice e) e
      (pre ++ List.concat (map (enc e) rest) ++ post) (List.length rest)
      (len done) (VList done) (len pre)
    = Ok (len pre + len (List.concat (map (enc e) rest)),
          VList (done ++ rest)).
Proof.
  intros Hs HR.
  induction rest as [|v rest IH]; intros done pre post Ht Hb.
  - cbn. rewrite app_nil_r, Z.add_0_r. reflexivity.
  - cbn [forallb] in Ht. apply andb_true_iff in Ht. destruct Ht as [Ht1 Ht2].
    cbn [map List.concat List.length basicSlice_decode_rest] in *.
    rewrite (grow_append done e _ 1) by lia. cbn [SliceItems bind].
    change (repeat (zero e) (Z.to_nat 1)) with [zero e].
    rewrite elem_at_app by reflexivity. cbn [bind].
    replace (pre ++ (enc e v ++ List.concat (map (enc e) rest)) ++ post)
      with (pre ++ enc e v ++ (List.concat (map (enc e) rest) ++ post))
      in * by reassoc.
    rewrite HR by assumption. cbn [bind].
    rewrite store_app by reflexivity. cbn [bind].
    replace (pre ++ enc e v ++ List.concat (map (enc e) rest) ++ post)
      with ((pre ++ enc e v) ++ List.concat (map (enc e) rest) ++ post)
      in * by reassoc.
    replace (len pre + len (enc e v)) with (len (pre ++ enc e v))
      by (lens; lia).
    replace (len done + 1) with (len (done ++ [v])) by (lens; lia).
    rewrite IH by assumption.
    f_equal. f_equal; [lens; lia | f_equal; reassoc].
Qed.

Lemma basicArraySSZ_Unmarshal_reads (n : nat) (e : type) :
  supported (TArray n e) = true ->
  isVariableSizeType e = false ->
  reads_fixed Unmarshal_ e ->
  reads_fixed (fun _ => basicArraySSZ_Unmarshal Unmarshal_) (TArray n e).
Proof.
  intros Hs Hv HR v pre post Ht Hb.
  cbn [supported] in Hs. apply andb_true_iff in Hs. destruct Hs as [Hs Hn].
  destruct v; cbn [has_type] in Ht; try discriminate.
  apply andb_true_iff in Ht. destruct Ht as [Hlen Ht].
  apply Nat.eqb_eq in Hlen. subst n.
  rewrite enc_array, list_children_fixed in * by assumption.
  unfold basicArraySSZ_Unmarshal. cbn [zero SliceItems bind Elem].
  destruct items as [|v0 items']; [discriminate|].
  set (items := v0 :: items') in *.
  replace (len (repeat (zero e) (List.length items)) =? 0) with false
    by (symmetry; apply Z.eqb_neq; rewrite len_repeat; subst items;
        cbn [List.length]; lia).
  rewrite repeat_length.
  pose proof (basicArray_decode_spec e Hs HR items [] pre post Ht Hb) as L.
  cbn [app] in L. change (len (@nil value)) with 0 in L.
  rewrite L. reflexivity.
Qed.

Lemma basicSliceSSZ_Unmarshal_reads (e : type) :
  supported e = true ->
  isVariableSizeType e = false ->
  reads_fixed Unmarshal_ e ->
  reads_variable (fun _ => basicSliceSSZ_Unmarshal Unmarshal_) (TSlice e).
Proof.
  intros Hs Hv HR v Ht Hb.
  destruct v; cbn [has_type] in Ht; try discriminate.
  rewrite enc_slice, list_children_fixed in * by assumption.
  unfold basicSliceSSZ_Unmarshal. cbn [zero].
  destruct items as [|v0 rest].
  - exists 0. reflexivity.
  - cbn [forallb] in Ht. apply andb_true_iff in Ht. destruct Ht as [Ht1 Ht2].
    cbn [map List.concat] in *.
    pose proof (fixed_size_pos e Hs Hv) as Hpos.
    pose proof (enc_fixed_len e v0 Hs Ht1 Hv) as Hl0.
    pose proof (len_concat_fixed e rest Hs Hv Ht2) as Hlr.
    pose proof (len_nonneg rest).
    assert (Hlen : len (enc e v0 ++ List.concat (map (enc e) rest))
                   = (1 + len rest) * fixed_size e) by (lens; lia).
    replace (len (enc e v0 ++ List.concat (map (enc e) rest)) =? 0)
      with false by (symmetry; apply Z.eqb_neq; nia).
    rewrite grow_one. cbn [SliceItems bind Elem].
    rewrite (elem_at_app [] [] (zero e)) by reflexivity. cbn [bind].
    rewrite (SSZFactory_supported _ _ Hs). cbn [bind].
    pose proof (HR v0 [] (List.concat (map (enc e) rest)) Ht1) as R0.
    cbn [app] in R0. change (len (@nil byte)) with 0 in R0.
    rewrite R0 by assumption. cbn [bind].
    rewrite (store_app [] [] (zero e) v0) by reflexivity. cbn [bind app].
    rewrite sub64_small by lia.
    replace (0 + len (enc e v0) - 0) with (fixed_size e) by lia.
    replace (fixed_size e =? 0) with false
      by (symmetry; apply Z.eqb_neq; lia).
    rewrite Hlen, Z.div_mul by lia.
    replace (Z.to_nat (1 + len rest - 1)) with (List.length rest)
      by (unfold len; lia).
    pose proof (basicSlice_decode_rest_reads e Hs HR rest [v0] (enc e v0) []
                  Ht2) as L.
    rewrite !app_nil_r in L.
    replace (len [v0]) with 1 in L by reflexivity.
    replace (0 + len (enc e v0)) with (len (enc e v0)) by lia.
    rewrite L by assumption.
    eexists. reflexivity.
Qed.

Lemma grow_pad (done pad : list value) (e : type) :
  pad = [] \/ pad = [zero e] ->
  growConcreteSliceType (VList (done ++ pad)) (TSlice e) (len done + 1)
  = Ok (VList (done ++ [zero e])).
Proof.
  intros [-> | ->].
  - rewrite app_nil_r. now rewrite (grow_append done e _ 1) by lia.
  - rewrite (grow_append (done ++ [zero e]) e _ 0) by (lens; lia).
    cbn [Z.to_nat repeat]. now rewrite app_nil_r.
Qed.

Lemma Uint32_PutUint32 (x : Z) :
  0 <= x < 2 ^ 32 -> Uint32 (PutUint32 x) = Ok x.
Proof.
  intros H. unfold Uint32, read_le, PutUint32.
  rewrite len_le_bytes. cbn [Z.of_nat Z.leb Z.compare Pos.compare
    Pos.compare_cont Pos.of_succ_nat Pos.succ].
  replace (firstn 4 (le_bytes 4 x)) with (le_bytes 4 x)
    by (symmetry; apply firstn_all2; rewrite length_le_bytes; lia).
  rewrite le_value_le_bytes_small by (cbn; lia). reflexivity.
Qed.

Lemma list_children_cons (e : type) (v : value) (rest : list value) :
  isVariableSizeType e = true ->
  list_children e (v :: rest) = (true, enc e v) :: list_children e rest.
Proof. intros Hv. unfold list_children. cbn [map]. now rewrite Hv. Qed.

Lemma compositeSlice_loop_reads (e : type) :
  supported e = true ->
  isVariableSizeType e = true ->
  reads_variable Unmarshal_ e ->
  forall rest v done pad Fd Vd fuel input,
    pad = [] \/ pad = [zero e] ->
    has_type e v = true ->
    forallb (has_type e) rest = true ->
    input = Fd
            ++ fixed_part (list_children e rest)
                 (len Fd + 4 * len rest + len Vd + len (enc e v))
            ++ Vd ++ enc e v ++ variable_part (list_children e rest) ->
    4 <= len Fd ->
    len input < 2 ^ 32 ->
    (List.length rest < fuel)%nat ->
    compositeSlice_loop Unmarshal_ (TSlice e) e input 0
      (len Fd + 4 * len rest) (len input) fuel (len done)
      (VList (done ++ pad)) (len Fd - 4) (len Fd + 4 * len rest + len Vd)
    = Ok (len Fd + 4 * len rest, VList (done ++ v :: rest)).
Proof.
  intros Hs Hv HR.
  induction rest as [|v' rest IH];
    intros v done pad Fd Vd fuel input Hpad Ht Htr Hin HFd Hb Hfuel.
  - (* the last element *)
    destruct fuel as [|fuel]; [cbn in Hfuel; lia|].
    cbn [list_children map fixed_part variable_part] in Hin.
    rewrite app_nil_r in Hin. cbn [app] in Hin.
    pose proof (len_nonneg Vd). pose proof (len_nonneg (enc e v)).
    assert (Hlen : len input = len Fd + len Vd + len (enc e v))
      by (subst input; lens; lia).
    change (len (@nil value)) with 0. rewrite Z.mul_0_r, !Z.add_0_r.
    cbn [compositeSlice_loop].
    replace (len Fd - 4 <? len Fd) with true
      by (symmetry; apply Z.ltb_lt; lia).
    change BytesPerLengthOffset with 4.
    rewrite add64_small by lia.
    replace (len Fd - 4 + 4) with (len Fd) by lia.
    unfold next_offset. rewrite Z.eqb_refl. cbn [bind].
    replace (len input <? len Fd + len Vd) with false
      by (symmetry; apply Z.ltb_ge; lia).
    rewrite (grow_pad done pad e Hpad). cbn [SliceItems bind].
    rewrite elem_at_app by reflexivity. cbn [bind].
    rewrite (SSZFactory_supported _ _ Hs). cbn [bind].
    replace (slice input (len Fd + len Vd) (len input)) with (Ok (enc e v)).
    2:{ symmetry. subst input.
        replace (Fd ++ Vd ++ enc e v) with ((Fd ++ Vd) ++ enc e v ++ [])
          by (rewrite app_nil_r; reassoc).
        apply slice_app; lens; lia. }
    cbn [bind].
    destruct (HR v Ht) as [idx Hidx]; [lia|].
    rewrite Hidx. cbn [bind].
    rewrite store_app by reflexivity. cbn [bind].
    destruct fuel as [|fuel]; cbn [compositeSlice_loop];
      rewrite Z.ltb_irrefl; reflexivity.
  - (* an element followed by others *)
    destruct fuel as [|fuel]; [cbn in Hfuel; lia|].
    cbn [forallb] in Htr. apply andb_true_iff in Htr.
    destruct Htr as [Ht' Htr].
    rewrite (list_children_cons e v' rest Hv) in Hin.
    cbn [fixed_part variable_part] in Hin.
    set (offN := len Fd + 4 * len (v' :: rest) + len Vd + len (enc e v)) in *.
    set (Ft' := fixed_part (list_children e rest) (offN + len (enc e v')))
      in *.
    set (Vr := variable_part (list_children e rest)) in *.
    pose proof (len_nonneg Vd). pose proof (len_nonneg (enc e v)).
    pose proof (len_nonneg (enc e v')). pose proof (len_nonneg Vr).
    pose proof (len_nonneg rest).
    assert (HFt' : len Ft' = 4 * len rest).
    { unfold Ft'. rewrite len_fixed_part.
      now apply list_children_length_fixed. }
    assert (Hl : len (v' :: rest) = 1 + len rest) by (lens; lia).
    assert (Hlen : len input = len Fd + 4 + 4 * len rest + len Vd
                               + len (enc e v) + len (enc e v') + len Vr).
    { subst input. lens. rewrite HFt'. lia. }
    assert (HoffN : offN = len Fd + 4 + 4 * len rest + len Vd
                           + len (enc e v)) by (unfold offN; lia).
    cbn [compositeSlice_loop].
    replace (len Fd - 4 <? len Fd + 4 * len (v' :: rest)) with true
      by (symmetry; apply Z.ltb_lt; lia).
    change BytesPerLengthOffset with 4.
    rewrite add64_small by lia.
    replace (len Fd - 4 + 4) with (len Fd) by lia.
    unfold next_offset.
    replace (len Fd =? len Fd + 4 * len (v' :: rest)) with false
      by (symmetry; apply Z.eqb_neq; lia).
    change BytesPerLengthOffset with 4.
    rewrite add64_small by lia.
    replace (slice input (len Fd) (len Fd + 4)) with (Ok (PutUint32 offN)).
    2:{ symmetry. subst input.
        replace (Fd ++ (PutUint32 offN ++ Ft') ++ Vd ++ enc e v
                 ++ enc e v' ++ Vr)
          with (Fd ++ PutUint32 offN
                ++ (Ft' ++ Vd ++ enc e v ++ enc e v' ++ Vr)) by reassoc.
        apply slice_app; [reflexivity | lens; lia]. }
    cbn [bind]. rewrite Uint32_PutUint32 by lia. cbn [bind].
    rewrite add64_small by lia. rewrite Z.add_0_l.
    replace (offN <? len Fd + 4 * len (v' :: rest) + len Vd) with false
      by (symmetry; apply Z.ltb_ge; lia).
    rewrite (grow_pad done pad e Hpad). cbn [SliceItems bind].
    rewrite elem_at_app by reflexivity. cbn [bind].
    rewrite (SSZFactory_supported _ _ Hs). cbn [bind].
    replace (slice input (len Fd + 4 * len (v' :: rest) + len Vd) offN)
      with (Ok (enc e v)).
    2:{ symmetry. subst input.
        replace (Fd ++ (PutUint32 offN ++ Ft') ++ Vd ++ enc e v
                 ++ enc e v' ++ Vr)
          with ((Fd ++ PutUint32 offN ++ Ft' ++ Vd) ++ enc e v
                ++ (enc e v' ++ Vr)) by reassoc.
        apply slice_app; lens; lia. }
    cbn [bind].
    destruct (HR v Ht) as [idx Hidx]; [lia|].
    rewrite Hidx. cbn [bind].
    rewrite store_app by reflexivity. cbn [bind].
    specialize (IH v' (done ++ [v]) [] (Fd ++ PutUint32 offN)
                  (Vd ++ enc e v) fuel input (or_introl eq_refl) Ht' Htr).
    rewrite app_nil_r in IH.
    replace (len (done ++ [v])) with (len done + 1) in IH by (lens; lia).
    replace (len (Fd ++ PutUint32 offN) - 4) with (len Fd) in IH
      by (lens; lia).
    replace (len (Fd ++ PutUint32 offN) + 4 * len rest)
      with (len Fd + 4 * len (v' :: rest)) in IH by (lens; lia).
    replace (len Fd + 4 * len (v' :: rest) + len (Vd ++ enc e v))
      with offN in IH by (lens; lia).
    rewrite IH.
    + rewrite <- app_assoc. reflexivity.
    + subst input. unfold Ft', Vr. rewrite <- !app_assoc. cbn [app].
      replace (len (Fd ++ PutUint32 offN) + 4 * len rest
               + len (Vd ++ enc e v) + len (enc e v'))
        with (offN + len (enc e v')) by (lens; lia).
      reflexivity.
    + lens. lia.
    + assumption.
    + cbn [List.length] in Hfuel. lia.
Qed.

Lemma compositeArray_loop_reads (e : type) :
  supported e = true ->
  isVariableSizeType e = true ->
  reads_variable Unmarshal_ e ->
  forall rest v done Fd Vd fuel input,
    has_type e v = true ->
    forallb (has_type e) rest = true ->
    input = Fd
            ++ fixed_part (list_children e rest)
                 (len Fd + 4 * len rest + len Vd + len (enc e v))
            ++ Vd ++ enc e v ++ variable_part (list_children e rest) ->
    4 <= len Fd ->
    len input < 2 ^ 32 ->
    (List.length rest < fuel)%nat ->
    compositeArray_loop Unmarshal_ (factory_of e) e input 0
      (len Fd + 4 * len rest) (len input) fuel (len done)
      (done ++ zero e :: repeat (zero e) (List.length rest))
      (len Fd - 4) (len Fd + 4 * len rest + len Vd)
    = Ok (len Fd + 4 * len rest, done ++ v :: rest).
Proof.
  intros Hs Hv HR.
  induction rest as [|v' rest IH];
    intros v done Fd Vd fuel input Ht Htr Hin HFd Hb Hfuel.
  - (* the last element *)
    destruct fuel as [|fuel]; [cbn in Hfuel; lia|].
    cbn [list_children map fixed_part variable_part] in Hin.
    rewrite app_nil_r in Hin. cbn [app] in Hin.
    pose proof (len_nonneg Vd). pose proof (len_nonneg (enc e v)).
    assert (Hlen : len input = len Fd + len Vd + len (enc e v))
      by (subst input; lens; lia).
    change (len (@nil value)) with 0. rewrite Z.mul_0_r, !Z.add_0_r.
    cbn [compositeArray_loop List.length repeat].
    replace (len Fd - 4 <? len Fd) with true
      by (symmetry; apply Z.ltb_lt; lia).
    change BytesPerLengthOffset with 4.
    rewrite add64_small by lia.
    replace (len Fd - 4 + 4) with (len Fd) by lia.
    unfold next_offset. rewrite Z.eqb_refl. cbn [bind].
    rewrite elem_at_app by reflexivity. cbn [bind].
    rewrite (instantiate_if_ptr_supported _ _ Hs). cbn [bind].
    replace (slice input (len Fd + len Vd) (len input)) with (Ok (enc e v)).
    2:{ symmetry. subst input.
        replace (Fd ++ Vd ++ enc e v) with ((Fd ++ Vd) ++ enc e v ++ [])
          by (rewrite app_nil_r; reassoc).
        apply slice_app; lens; lia. }
    cbn [bind].
    destruct (HR v Ht) as [idx Hidx]; [lia|].
    rewrite Hidx. cbn [bind].
    rewrite store_app by reflexivity. cbn [bind].
    destruct fuel as [|fuel]; cbn [compositeArray_loop];
      rewrite Z.ltb_irrefl; reflexivity.
  - (* an element followed by others *)
    destruct fuel as [|fuel]; [cbn in Hfuel; lia|].
    cbn [forallb] in Htr. apply andb_true_iff in Htr.
    destruct Htr as [Ht' Htr].
    rewrite (list_children_cons e v' rest Hv) in Hin.
    cbn [fixed_part variable_part] in Hin.
    set (offN := len Fd + 4 * len (v' :: rest) + len Vd + len (enc e v)) in *.
    set (Ft' := fixed_part (list_children e rest) (offN + len (enc e v')))
      in *.
    set (Vr := variable_part (list_children e rest)) in *.
    pose proof (len_nonneg Vd). pose proof (len_nonneg (enc e v)).
    pose proof (len_nonneg (enc e v')). pose proof (len_nonneg Vr).
    pose proof (len_nonneg rest).
    assert (HFt' : len Ft' = 4 * len rest).
    { unfold Ft'. rewrite len_fixed_part.
      now apply list_children_length_fixed. }
    assert (Hl : len (v' :: rest) = 1 + len rest) by (lens; lia).
    assert (Hlen : len input = len Fd + 4 + 4 * len rest + len Vd
                               + len (enc e v) + len (enc e v') + len Vr).
    { subst input. lens. rewrite HFt'. lia. }
    assert (HoffN : offN = len Fd + 4 + 4 * len rest + len Vd
                           + len (enc e v)) by (unfold offN; lia).
    cbn [compositeArray_loop].
    replace (len Fd - 4 <? len Fd + 4 * len (v' :: rest)) with true
      by (symmetry; apply Z.ltb_lt; lia).
    change BytesPerLengthOffset with 4.
    rewrite add64_small by lia.
    replace (len Fd - 4 + 4) with (len Fd) by lia.
    unfold next_offset.
    replace (len Fd =? len Fd + 4 * len (v' :: rest)) with false
      by (symmetry; apply Z.eqb_neq; lia).
    change BytesPerLengthOffset with 4.
    rewrite add64_small by lia.
    replace (slice input (len Fd) (len Fd + 4)) with (Ok (PutUint32 offN)).
    2:{ symmetry. subst input.
        replace (Fd ++ (PutUint32 offN ++ Ft') ++ Vd ++ enc e v
                 ++ enc e v' ++ Vr)
          with (Fd ++ PutUint32 offN
                ++ (Ft' ++ Vd ++ enc e v ++ enc e v' ++ Vr)) by reassoc.
        apply slice_app; [reflexivity | lens; lia]. }
    cbn [bind]. rewrite Uint32_PutUint32 by lia. cbn [bind].
    rewrite add64_small by lia. rewrite Z.add_0_l.
    rewrite elem_at_app by reflexivity. cbn [bind].
    rewrite (instantiate_if_ptr_supported _ _ Hs). cbn [bind].
    replace (slice input (len Fd + 4 * len (v' :: rest) + len Vd) offN)
      with (Ok (enc e v)).
    2:{ symmetry. subst input.
        replace (Fd ++ (PutUint32 offN ++ Ft') ++ Vd ++ enc e v
                 ++ enc e v' ++ Vr)
          with ((Fd ++ PutUint32 offN ++ Ft' ++ Vd) ++ enc e v
                ++ (enc e v' ++ Vr)) by reassoc.
        apply slice_app; lens; lia. }
    cbn [bind].
    destruct (HR v Ht) as [idx Hidx]; [lia|].
    rewrite Hidx. cbn [bind].
    rewrite store_app by reflexivity. cbn [bind].
    specialize (IH v' (done ++ [v]) (Fd ++ PutUint32 offN)
                  (Vd ++ enc e v) fuel input Ht' Htr).
    replace (len (done ++ [v])) with (len done + 1) in IH by (lens; lia).
    replace (len (Fd ++ PutUint32 offN) - 4) with (len Fd) in IH
      by (lens; lia).
    replace (len (Fd ++ PutUint32 offN) + 4 * len rest)
      with (len Fd + 4 * len (v' :: rest)) in IH by (lens; lia).
    replace (len Fd + 4 * len (v' :: rest) + len (Vd ++ enc e v))
      with offN in IH by (lens; lia).
    cbn [List.length repeat].
    replace (done ++ v :: zero e :: repeat (zero e) (List.length rest))
      with ((done ++ [v]) ++ zero e :: repeat (zero e) (List.length rest))
      by reassoc.
    rewrite IH.
    + rewrite <- app_assoc. reflexivity.
    + subst input. unfold Ft', Vr. rewrite <- !app_assoc. cbn [app].
      replace (len (Fd ++ PutUint32 offN) + 4 * len rest
               + len (Vd ++ enc e v) + len (enc e v'))
        with (offN + len (enc e v')) by (lens; lia).
      reflexivity.
    + lens. lia.
    + assumption.
    + cbn [List.length] in Hfuel. lia.
Qed.

Lemma composite_input_shape (e : type) (v : value) (rest : list value) :
  isVariableSizeType e = true ->
  layout (list_children e (v :: rest))
  = PutUint32 (4 + 4 * len rest)
    ++ fixed_part (list_children e rest)
         (4 + 4 * len rest + 0 + len (enc e v))
    ++ [] ++ enc e v ++ variable_part (list_children e rest).
Proof.
  intros Hv. unfold layout.
  rewrite (list_children_length_fixed e (v :: rest) Hv).
  rewrite (list_children_cons e v rest Hv).
  cbn [fixed_part variable_part app]. rewrite <- app_assoc.
  rewrite len_cons.
  replace (4 * (1 + len rest)) with (4 + 4 * len rest) by lia.
  replace (4 + 4 * len rest + 0 + len (enc e v))
    with (4 + 4 * len rest + len (enc e v)) by lia.
  reflexivity.
Qed.

Lemma compositeSliceSSZ_Unmarshal_reads (e : type) :
  supported e = true ->
  isVariableSizeType e = true ->
  reads_variable Unmarshal_ e ->
  reads_variable (fun _ => compositeSliceSSZ_Unmarshal Unmarshal_)
    (TSlice e).
Proof.
  intros Hs Hv HR v Ht Hb.
  destruct v; cbn [has_type] in Ht; try discriminate.
  rewrite enc_slice in *.
  unfold compositeSliceSSZ_Unmarshal. cbn [zero].
  destruct items as [|v0 rest].
  - exists 0. reflexivity.
  - cbn [forallb] in Ht. apply andb_true_iff in Ht. destruct Ht as [Ht1 Ht2].
    pose proof (composite_input_shape e v0 rest Hv) as Hshape.
    set (input := layout (list_children e (v0 :: rest))) in *.
    pose proof (len_nonneg rest).
    pose proof (len_nonneg (enc e v0)).
    pose proof (len_nonneg (variable_part (list_children e rest))).
    assert (Hlen : len input
                   = 4 + 4 * len rest + len (enc e v0)
                     + len (variable_part (list_children e rest))).
    { rewrite Hshape. lens.
      rewrite (list_children_length_fixed e rest Hv). lia. }
    replace (len input =? 0) with false
      by (symmetry; apply Z.eqb_neq; lia).
    rewrite grow_one. cbn [bind].
    change BytesPerLengthOffset with 4.
    rewrite add64_small by lia. cbn [Z.add].
    replace (slice input 0 4) with (Ok (PutUint32 (4 + 4 * len rest))).
    2:{ symmetry. rewrite Hshape.
        apply (slice_app [] (PutUint32 (4 + 4 * len rest))); reflexivity. }
    cbn [bind]. rewrite Uint32_PutUint32 by lia. cbn [bind Elem].
    rewrite add64_small by lia. rewrite Z.add_0_l.
    pose proof (compositeSlice_loop_reads e Hs Hv HR rest v0 [] [zero e]
                  (PutUint32 (4 + 4 * len rest)) []
                  (S (List.length input)) input
                  (or_intror eq_refl) Ht1 Ht2) as L.
    rewrite len_PutUint32 in L. change (len (@nil byte)) with 0 in L.
    change (len (@nil value)) with 0 in L. cbn [app] in L.
    replace (4 - 4) with 0 in L by lia.
    replace (4 + 4 * len rest + 0) with (4 + 4 * len rest) in L by lia.
    rewrite L.
    + eexists. reflexivity.
    + rewrite Hshape at 1. f_equal. f_equal.
      do 2 f_equal. lia.
    + lia.
    + assumption.
    + unfold len in *. lia.
Qed.

Lemma compositeArraySSZ_Unmarshal_reads (n : nat) (e : type) :
  supported (TArray n e) = true ->
  isVariableSizeType e = true ->
  reads_variable Unmarshal_ e ->
  reads_variable (fun _ => compositeArraySSZ_Unmarshal Unmarshal_)
    (TArray n e).
Proof.
  intros Hs Hv HR v Ht Hb.
  cbn [supported] in Hs. apply andb_true_iff in Hs. destruct Hs as [Hs Hn].
  destruct v; cbn [has_type] in Ht; try discriminate.
  apply andb_true_iff in Ht. destruct Ht as [Hlen0 Ht].
  apply Nat.eqb_eq in Hlen0. subst n.
  rewrite enc_array in *.
  unfold compositeArraySSZ_Unmarshal. cbn [zero].
  destruct items as [|v0 rest]; [discriminate|].
  cbn [forallb] in Ht. apply andb_true_iff in Ht. destruct Ht as [Ht1 Ht2].
  pose proof (composite_input_shape e v0 rest Hv) as Hshape.
  set (input := layout (list_children e (v0 :: rest))) in *.
  pose proof (len_nonneg rest).
  pose proof (len_nonneg (enc e v0)).
  pose proof (len_nonneg (variable_part (list_children e rest))).
  assert (Hlen : len input
                 = 4 + 4 * len rest + len (enc e v0)
                   + len (variable_part (list_children e rest))).
  { rewrite Hshape. lens.
    rewrite (list_children_length_fixed e rest Hv). lia. }
  change BytesPerLengthOffset with 4.
  rewrite add64_small by lia. cbn [Z.add].
  replace (slice input 0 4) with (Ok (PutUint32 (4 + 4 * len rest))).
  2:{ symmetry. rewrite Hshape.
      apply (slice_app [] (PutUint32 (4 + 4 * len rest))); reflexivity. }
  cbn [bind]. rewrite Uint32_PutUint32 by lia. cbn [bind Elem SliceItems].
  rewrite add64_small by lia. rewrite Z.add_0_l.
  cbn [List.length repeat].
  rewrite (elem_at_app [] (repeat (zero e) (List.length rest)) (zero e))
    by reflexivity.
  cbn [bind].
  rewrite (SSZFactory_supported _ _ Hs). cbn [bind].
  pose proof (compositeArray_loop_reads e Hs Hv HR rest v0 []
                (PutUint32 (4 + 4 * len rest)) []
                (S (List.length input)) input Ht1 Ht2) as L.
  rewrite len_PutUint32 in L. change (len (@nil byte)) with 0 in L.
  change (len (@nil value)) with 0 in L. cbn [app] in L.
  replace (4 - 4) with 0 in L by lia.
  replace (4 + 4 * len rest + 0) with (4 + 4 * len rest) in L by lia.
  rewrite L.
  - eexists. reflexivity.
  - rewrite Hshape at 1. f_equal. f_equal.
    do 2 f_equal. lia.
  - lia.
  - assumption.
  - unfold len in *. lia.
Qed.

(** *** The structure decoder *)

Lemma countFields_supported (fs : list StructField) :
  forallb supported_field fs = true -> countFields fs = List.length fs.
Proof.
  intros H. unfold countFields. induction fs as [|f fs IH]; [reflexivity|].
  cbn [forallb] in H. apply andb_true_iff in H. destruct H as [H1 H2].
  unfold supported_field in H1. apply andb_true_iff in H1.
  destruct H1 as [_ H1]. cbn [filter]. rewrite H1. cbn [List.length].
  now rewrite IH.
Qed.

Lemma struct_fixedSizes_spec (fs : list StructField) :
  forall done,
    forallb supported_field fs = true ->
    struct_fixedSizes fs (len done) (done ++ zero_fields fs)
    = Ok (done ++ zero_fields fs, fixedSizes_of fs).
Proof.
  induction fs as [|f fs IH]; intros done Hs; [reflexivity|].
  cbn [forallb] in Hs. apply andb_true_iff in Hs. destruct Hs as [Hs1 Hs2].
  unfold supported_field in Hs1. apply andb_true_iff in Hs1.
  destruct Hs1 as [Hs1 _].
  cbn [struct_fixedSizes determineFieldType bind zero_fields fixedSizes_of
       map].
  fold (zero_fields fs). fold (fixedSizes_of fs).
  replace (done ++ zero (FType f) :: zero_fields fs)
    with ((done ++ [zero (FType f)]) ++ zero_fields fs) by reassoc.
  replace (len done + 1) with (len (done ++ [zero (FType f)]))
    by (lens; lia).
  destruct (isVariableSizeType (FType f)).
  - rewrite IH by assumption. reflexivity.
  - replace ((done ++ [zero (FType f)]) ++ zero_fields fs)
      with (done ++ zero (FType f) :: zero_fields fs) by reassoc.
    replace (len (done ++ [zero (FType f)])) with (len done + 1)
      by (lens; lia).
    rewrite elem_at_app by reflexivity. cbn [bind].
    rewrite (instantiate_if_ptr_supported _ _ Hs1). cbn [bind].
    rewrite store_app by reflexivity. cbn [bind].
    replace (done ++ zero (FType f) :: zero_fields fs)
      with ((done ++ [zero (FType f)]) ++ zero_fields fs) by reassoc.
    replace (len done + 1) with (len (done ++ [zero (FType f)]))
      by (lens; lia).
    rewrite IH by assumption. reflexivity.
Qed.

Lemma struct_offsets_fixed (entries : list (option Z)) :
  forall input startOffset counter offsets,
    Forall (fun x => x <> None) entries ->
    struct_offsets entries input startOffset counter offsets = Ok offsets.
Proof.
  induction entries as [|[item|] entries IH];
    intros input startOffset counter offsets H.
  - reflexivity.
  - cbn [struct_offsets]. apply IH. now inversion H.
  - inversion H; subst. congruence.
Qed.

Lemma struct_offsets_reads (fs : list StructField) :
  forall vs Fd off tail acc input,
    has_type_fields fs vs = true ->
    forallb supported_field fs = true ->
    input = Fd ++ fixed_part (struct_children fs vs) off ++ tail ->
    0 <= off ->
    off + len (variable_part (struct_children fs vs)) < 2 ^ 32 ->
    len input < 2 ^ 32 ->
    struct_offsets (fixedSizes_of fs) input 0 (len Fd) acc
    = Ok (acc ++ var_offsets (struct_children fs vs) off).
Proof.
  induction fs as [|f fs IH];
    intros [|v vs] Fd off tail acc input Ht Hs Hin H0 Hoff Hb;
    try discriminate.
  - cbn. now rewrite app_nil_r.
  - cbn [has_type_fields forallb] in *.
    apply andb_true_iff in Ht. destruct Ht as [Ht1 Ht2].
    apply andb_true_iff in Hs. destruct Hs as [Hs1 Hs2].
    unfold supported_field in Hs1. apply andb_true_iff in Hs1.
    destruct Hs1 as [Hs1 _].
    cbn [fixedSizes_of map struct_children] in *.
    fold (fixedSizes_of fs).
    set (parts := struct_children fs vs) in *.
    pose proof (len_nonneg Fd). pose proof (len_nonneg tail).
    pose proof (len_nonneg (enc (FType f) v)).
    pose proof (len_nonneg (variable_part parts)).
    pose proof (fixed_length_nonneg parts).
    destruct (isVariableSizeType (FType f)) eqn:Hv;
      cbn [fixed_part variable_part var_offsets struct_offsets] in *.
    + rewrite len_app in Hoff.
      assert (Hlen : len input = len Fd + 4 + fixed_length parts + len tail)
        by (subst input; lens; lia).
      change BytesPerLengthOffset with 4.
      rewrite add64_small by lia.
      replace (len Fd + 4 >? len input) with false
        by (symmetry; rewrite Z.gtb_ltb; apply Z.ltb_ge; lia).
      replace (slice input (len Fd) (len Fd + 4)) with (Ok (PutUint32 off)).
      2:{ symmetry. subst input.
          replace (Fd ++ (PutUint32 off
                          ++ fixed_part parts (off + len (enc (FType f) v)))
                   ++ tail)
            with (Fd ++ PutUint32 off
                  ++ (fixed_part parts (off + len (enc (FType f) v))
                      ++ tail)) by reassoc.
          apply slice_app; [reflexivity | lens; lia]. }
      cbn [bind]. rewrite Uint32_PutUint32 by lia. cbn [bind].
      rewrite add64_small by lia. rewrite Z.add_0_l.
      replace (len Fd + 4) with (len (Fd ++ PutUint32 off)) by (lens; lia).
      subst parts.
      rewrite (IH vs (Fd ++ PutUint32 off) (off + len (enc (FType f) v))
                 tail (acc ++ [off]) input); try assumption.
      * now rewrite <- app_assoc.
      * subst input. reassoc.
      * lia.
      * lia.
    + assert (Hlen : len input = len Fd + len (enc (FType f) v)
                                 + fixed_length parts + len tail)
        by (subst input; lens; lia).
      rewrite <- (enc_fixed_len (FType f) v) by assumption.
      rewrite add64_small by lia.
      replace (len Fd + len (enc (FType f) v))
        with (len (Fd ++ enc (FType f) v)) by (lens; lia).
      subst parts.
      rewrite (IH vs (Fd ++ enc (FType f) v) off tail acc input);
        try assumption.
      * reflexivity.
      * subst input. reassoc.
Qed.

Lemma struct_decode_reads (fs : list StructField) :
  (forall f, In f fs -> reads Unmarshal_ (FType f)) ->
  forall vs done Fd Vd post offsets offsetIndex input,
    has_type_fields fs vs = true ->
    forallb supported_field fs = true ->
    input = Fd
            ++ fixed_part (struct_children fs vs)
                 (len Fd + fixed_length (struct_children fs vs) + len Vd)
            ++ Vd ++ variable_part (struct_children fs vs) ++ post ->
    (existsb (fun f => isVariableSizeType (FType f)) fs = true ->
     post = []) ->
    len input < 2 ^ 32 ->
    ((exists odone,
         offsets = odone
                   ++ var_offsets (struct_children fs vs)
                        (len Fd + fixed_length (struct_children fs vs)
                         + len Vd)
                   ++ [len input]
         /\ offsetIndex = len odone)
     \/ (variable_part (struct_children fs vs) = []
         /\ elem_at offsets offsetIndex = Ok (len input))) ->
    struct_decode Unmarshal_ fs (fixedSizes_of fs) (len done) input offsets
      offsetIndex (done ++ zero_fields fs) (len Fd)
    = Ok (len Fd + fixed_length (struct_children fs vs), done ++ vs).
Proof.
  induction fs as [|f fs IH];
    intros HR [|v vs] done Fd Vd post offsets offsetIndex input
           Ht Hs Hin Hpost Hb Hmode;
    try discriminate.
  - cbn. rewrite Z.add_0_r. reflexivity.
  - cbn [has_type_fields forallb] in *.
    apply andb_true_iff in Ht. destruct Ht as [Ht1 Ht2].
    apply andb_true_iff in Hs. destruct Hs as [Hs1 Hs2].
    unfold supported_field in Hs1. apply andb_true_iff in Hs1.
    destruct Hs1 as [Hs1 _].
    assert (HRf : reads Unmarshal_ (FType f)) by (apply HR; now left).
    assert (HRr : forall g, In g fs -> reads Unmarshal_ (FType g))
      by (intros g Hg; apply HR; now right).
    cbn [struct_decode fixedSizes_of zero_fields map determineFieldType
         bind struct_children existsb] in *.
    fold (fixedSizes_of fs). fold (zero_fields fs).
    rewrite elem_at_app by reflexivity. cbn [bind].
    rewrite (instantiate_if_ptr_supported _ _ Hs1). cbn [bind].
    rewrite store_app by reflexivity. cbn [bind].
    rewrite (SSZFactory_supported _ _ Hs1). cbn [bind].
    pose proof (len_nonneg Fd). pose proof (len_nonneg Vd).
    pose proof (len_nonneg post).
    pose proof (len_nonneg (enc (FType f) v)) as Hne.
    pose proof (fixed_length_nonneg (struct_children fs vs)) as Hfl.
    pose proof (len_nonneg (variable_part (struct_children fs vs))) as Hvl.
    destruct (isVariableSizeType (FType f)) eqn:Hv;
      cbn [fixed_length fixed_part variable_part var_offsets existsb orb]
        in *.
    + (* a variable-size field *)
      change BytesPerLengthOffset with 4 in *.
      specialize (Hpost eq_refl). subst post. rewrite app_nil_r in Hin.
      set (parts := struct_children fs vs) in *.
      set (offR := len Fd + (4 + fixed_length parts) + len Vd) in *.
      assert (Hlen : len input = offR + len (enc (FType f) v)
                                 + len (variable_part parts)).
      { subst input. lens. unfold offR. lia. }
      assert (Hin' : input
                     = (Fd ++ PutUint32 offR)
                       ++ fixed_part parts
                            (len (Fd ++ PutUint32 offR) + fixed_length parts
                             + len (Vd ++ enc (FType f) v))
                       ++ (Vd ++ enc (FType f) v)
                       ++ variable_part parts ++ []).
      { subst input. rewrite app_nil_r, <- !app_assoc. cbn [app].
        do 2 f_equal. f_equal. f_equal. unfold offR, parts in *. lens. lia. }
      assert (Hpost' : existsb (fun f0 => isVariableSizeType (FType f0)) fs
                       = true -> @nil byte = []) by reflexivity.
      assert (Hskip : offR = len input ->
                v = zero (FType f) /\ enc (FType f) v = []
                /\ variable_part parts = []).
      { intros E.
        assert (E1 : enc (FType f) v = []) by (apply len_zero_nil; lia).
        assert (E2 : variable_part parts = []) by (apply len_zero_nil; lia).
        split; [|split]; try assumption.
        now apply empty_variable_is_zero. }
      destruct Hmode as [[odone [Hoffs Hidx]] | [Hvp Helem]].
      * (* the offsets still to be used *)
        subst offsetIndex.
        replace (elem_at offsets (len odone)) with (Ok offR)
          by (subst offsets; symmetry; now apply elem_at_app).
        cbn [bind].
        destruct (offR =? len input) eqn:E.
        -- apply Z.eqb_eq in E. destruct (Hskip E) as [Ev [Ee Evp]].
           rewrite add64_small by lia.
           replace (done ++ zero (FType f) :: zero_fields fs)
             with ((done ++ [v]) ++ zero_fields fs)
             by (rewrite Ev; reassoc).
           replace (len done + 1) with (len (done ++ [v])) by (lens; lia).
           replace (len Fd + 4) with (len (Fd ++ PutUint32 offR))
             by (lens; lia).
           rewrite (IH HRr vs (done ++ [v]) (Fd ++ PutUint32 offR)
                      (Vd ++ enc (FType f) v) [] offsets (len odone) input);
             try assumption.
           ++ f_equal. f_equal; [unfold parts in *; lens; lia | reassoc].
           ++ right. split; [assumption|].
              subst offsets. rewrite E. now apply elem_at_app.
        -- apply Z.eqb_neq in E.
           destruct (var_offsets_head parts (offR + len (enc (FType f) v)))
             as [tl Htl].
           replace (offR + len (enc (FType f) v) + len (variable_part parts))
             with (len input) in Htl by lia.
           replace (elem_at offsets (len odone + 1))
             with (Ok (offR + len (enc (FType f) v))).
           2:{ symmetry. subst offsets.
               replace (odone ++ (offR :: var_offsets parts
                                    (offR + len (enc (FType f) v)))
                        ++ [len input])
                 with ((odone ++ [offR])
                       ++ (var_offsets parts (offR + len (enc (FType f) v))
                           ++ [len input])) by reassoc.
               rewrite Htl. apply elem_at_app. lens. lia. }
           cbn [bind].
           replace (offR + len (enc (FType f) v) >? len input) with false
             by (symmetry; rewrite Z.gtb_ltb; apply Z.ltb_ge; lia).
           replace (slice input offR (offR + len (enc (FType f) v)))
             with (Ok (enc (FType f) v)).
           2:{ symmetry. subst input.
               replace (Fd ++ (PutUint32 offR
                               ++ fixed_part parts
                                    (offR + len (enc (FType f) v)))
                        ++ Vd ++ enc (FType f) v ++ variable_part parts)
                 with ((Fd ++ PutUint32 offR
                        ++ fixed_part parts (offR + len (enc (FType f) v))
                        ++ Vd)
                       ++ enc (FType f) v ++ variable_part parts)
                 by reassoc.
               apply slice_app; unfold offR; lens; lia. }
           cbn [bind].
           destruct HRf as [_ HRv].
           destruct (HRv Hv v Ht1) as [idx Hidx]; [lia|].
           rewrite Hidx. cbn [bind].
           rewrite store_app by reflexivity. cbn [bind].
           rewrite add64_small by lia.
           replace (done ++ v :: zero_fields fs)
             with ((done ++ [v]) ++ zero_fields fs) by reassoc.
           replace (len done + 1) with (len (done ++ [v])) by (lens; lia).
           replace (len Fd + 4) with (len (Fd ++ PutUint32 offR))
             by (lens; lia).
           rewrite (IH HRr vs (done ++ [v]) (Fd ++ PutUint32 offR)
                      (Vd ++ enc (FType f) v) [] offsets (len odone + 1)
                      input); try assumption.
           ++ f_equal. f_equal; [unfold parts in *; lens; lia | reassoc].
           ++ left. exists (odone ++ [offR]). split; [|lens; lia].
              subst offsets. rewrite <- !app_assoc. cbn [app].
              do 2 f_equal. f_equal. f_equal. unfold offR, parts in *. lens. lia.
      * (* past the end of the input *)
        apply app_eq_nil in Hvp. destruct Hvp as [Ee Evp].
        assert (E : offR = len input) by (rewrite Hlen, Ee, Evp; lens; lia).
        destruct (Hskip E) as [Ev _].
        rewrite Helem. cbn [bind]. rewrite Z.eqb_refl.
        rewrite add64_small by lia.
        replace (done ++ zero (FType f) :: zero_fields fs)
          with ((done ++ [v]) ++ zero_fields fs)
          by (rewrite Ev; reassoc).
        replace (len done + 1) with (len (done ++ [v])) by (lens; lia).
        replace (len Fd + 4) with (len (Fd ++ PutUint32 offR))
          by (lens; lia).
        rewrite (IH HRr vs (done ++ [v]) (Fd ++ PutUint32 offR)
                   (Vd ++ enc (FType f) v) [] offsets offsetIndex input);
          try assumption.
        -- f_equal. f_equal; [unfold parts in *; lens; lia | reassoc].
        -- right. split; assumption.
    + (* a fixed-size field *)
      set (parts := struct_children fs vs) in *.
      pose proof (fixed_size_pos _ Hs1 Hv) as Hpos.
      pose proof (enc_fixed_len _ v Hs1 Ht1 Hv) as Hel.
      assert (Hlen : len input = len Fd + len (enc (FType f) v)
                                 + fixed_length parts + len Vd
                                 + len (variable_part parts) + len post).
      { subst input. lens. lia. }
      replace (fixed_size (FType f) =? 0) with false
        by (symmetry; apply Z.eqb_neq; lia).
      rewrite <- Hel.
      rewrite add64_small by lia.
      replace (slice input (len Fd) (len Fd + len (enc (FType f) v)))
        with (Ok (enc (FType f) v)).
      2:{ symmetry. subst input.
          rewrite <- app_assoc. apply slice_app; reflexivity. }
      cbn [bind].
      destruct HRf as [HRx _].
      pose proof (HRx Hv v [] [] Ht1) as R.
      cbn [app] in R. rewrite app_nil_r in R.
      change (len (@nil byte)) with 0 in R.
      rewrite R by lia. cbn [bind].
      rewrite store_app by reflexivity. cbn [bind].
      replace (done ++ v :: zero_fields fs)
        with ((done ++ [v]) ++ zero_fields fs) by reassoc.
      replace (len done + 1) with (len (done ++ [v])) by (lens; lia).
      replace (len Fd + len (enc (FType f) v))
        with (len (Fd ++ enc (FType f) v)) by (lens; lia).
      assert (Hoff : len (Fd ++ enc (FType f) v) + fixed_length parts
                     + len Vd
                     = len Fd + (len (enc (FType f) v) + fixed_length parts)
                       + len Vd) by (lens; lia).
      rewrite (IH HRr vs (done ++ [v]) (Fd ++ enc (FType f) v) Vd post
                 offsets offsetIndex input); try assumption.
      * f_equal. f_equal; [unfold parts in *; lens; lia | reassoc].
      * unfold parts in *. subst input. rewrite Hoff. reassoc.
      * unfold parts in *. rewrite Hoff. assumption.
Qed.

Lemma struct_children_fixed (fs : list StructField) :
  forall vs,
    existsb (fun f => isVariableSizeType (FType f)) fs = false ->
    Forall (fun p => fst p = false) (struct_children fs vs).
Proof.
  induction fs as [|f fs IH]; intros [|v vs] H; try (now constructor).
  cbn [existsb] in H. apply orb_false_iff in H. destruct H as [H1 H2].
  cbn [struct_children]. constructor; [exact H1 | now apply IH].
Qed.

Lemma all_fixed_parts (parts : list child) :
  Forall (fun p => fst p = false) parts ->
  variable_part parts = [] /\ forall o, var_offsets parts o = [].
Proof.
  induction 1 as [|[[|] b] parts Hp _ [IH1 IH2]].
  - split; reflexivity.
  - discriminate.
  - split; [exact IH1 | intros o; apply IH2].
Qed.

Lemma fixedSizes_of_fixed (fs : list StructField) :
  existsb (fun f => isVariableSizeType (FType f)) fs = false ->
  Forall (fun x => x <> None) (fixedSizes_of fs).
Proof.
  induction fs as [|f fs IH]; intros H; [constructor|].
  cbn [existsb] in H. apply orb_false_iff in H. destruct H as [H1 H2].
  cbn [fixedSizes_of map]. rewrite H1.
  constructor; [discriminate | now apply IH].
Qed.

Lemma structSSZ_Unmarshal_reads (fs : list StructField) :
  supported (TStruct fs) = true ->
  (forall f, In f fs -> reads Unmarshal_ (FType f)) ->
  reads (fun _ => structSSZ_Unmarshal Unmarshal_) (TStruct fs).
Proof.
  intros Hs HR. rewrite supported_struct in Hs.
  apply andb_true_iff in Hs. destruct Hs as [_ Hs].
  assert (Hcommon : forall (v : value) (input : list byte) startOffset,
            structSSZ_Unmarshal Unmarshal_ (zero (TStruct fs)) (TStruct fs)
              input startOffset
            = (offsets <- struct_offsets (fixedSizes_of fs) input
                            startOffset startOffset [] ;;
               '(currentIndex, vs2) <-
                 struct_decode Unmarshal_ fs (fixedSizes_of fs) 0 input
                   (offsets ++ [len input]) 0 (zero_fields fs)
                   startOffset ;;
               Ok (currentIndex, VStruct vs2))).
  { intros v input startOffset. unfold structSSZ_Unmarshal.
    cbn [Fields bind zero FieldValues].
    rewrite (countFields_supported fs Hs), firstn_all.
    fold (zero_fields fs).
    pose proof (struct_fixedSizes_spec fs [] Hs) as F.
    cbn [app] in F. change (len (@nil value)) with 0 in F.
    rewrite F. reflexivity. }
  split; intros Hv.
  - (* every field is fixed-size *)
    intros v pre post Ht Hb.
    destruct v; try discriminate. rename fields into vs.
    rewrite has_type_struct in Ht. rewrite enc_struct in *.
    cbn [isVariableSizeType] in Hv.
    set (parts := struct_children fs vs) in *.
    pose proof (struct_children_fixed fs vs Hv) as Hfix. fold parts in Hfix.
    destruct (all_fixed_parts parts Hfix) as [Hvp Hvo].
    rewrite (Hcommon (VStruct vs)).
    rewrite struct_offsets_fixed by (now apply fixedSizes_of_fixed).
    cbn [bind app].
    pose proof (struct_decode_reads fs HR vs [] pre [] post [len (pre ++ layout parts ++ post)] 0
                  (pre ++ layout parts ++ post) Ht Hs) as D.
    fold parts in D. rewrite Hvp, Hvo in D. cbn [app] in D.
    change (len (@nil value)) with 0 in D.
    rewrite D.
    + cbn [bind]. rewrite len_layout, Hvp. change (len (@nil byte)) with 0.
      rewrite Z.add_0_r. reflexivity.
    + unfold layout. rewrite Hvp, app_nil_r.
      f_equal. f_equal. now apply fixed_part_fixed.
    + intros E. cbn [isVariableSizeType] in *. congruence.
    + assumption.
    + left. exists []. split; reflexivity.
  - (* some field is variable-size *)
    intros v Ht Hb.
    destruct v; try discriminate. rename fields into vs.
    rewrite has_type_struct in Ht. rewrite enc_struct in *.
    set (parts := struct_children fs vs) in *.
    pose proof (fixed_length_nonneg parts) as Hfl.
    pose proof (len_nonneg (variable_part parts)) as Hvl.
    assert (Hlen : len (layout parts)
                   = fixed_length parts + len (variable_part parts))
      by apply len_layout.
    rewrite (Hcommon (VStruct vs)).
    pose proof (struct_offsets_reads fs vs [] (fixed_length parts)
                  (variable_part parts) [] (layout parts) Ht Hs) as O.
    fold parts in O. cbn [app] in O. change (len (@nil byte)) with 0 in O.
    rewrite O; [|reflexivity | lia | lia | lia].
    cbn [bind].
    pose proof (struct_decode_reads fs HR vs [] [] [] []
                  (var_offsets parts (fixed_length parts)
                   ++ [len (layout parts)]) 0
                  (layout parts) Ht Hs) as D.
    fold parts in D. cbn [app] in D.
    change (len (@nil value)) with 0 in D.
    change (len (@nil byte)) with 0 in D.
    replace (0 + fixed_length parts + 0) with (fixed_length parts) in D
      by lia.
    rewrite D.
    + cbn [bind]. eexists. reflexivity.
    + unfold layout. now rewrite app_nil_r.
    + reflexivity.
    + assumption.
    + left. exists []. split; reflexivity.
Qed.

End UnmarshalLoops.

Lemma SSZAble_Unmarshal_reads :
  forall fuel t,
    (type_depth t < fuel)%nat -> supported t = true ->
    reads (SSZAble_Unmarshal fuel) t.
Proof.
  induction fuel as [|fuel IH]; intros t Hd Hs; [lia|].
  destruct t; try (cbn in Hs; discriminate);
    try (split; intros Hv; [|cbn in Hv; discriminate];
         intros v pre post Ht Hb; cbn [factory_of SSZAble_Unmarshal];
         eapply basicSSZ_Unmarshal_reads; eauto; reflexivity).
  - (* TSlice *)
    cbn [supported] in Hs. cbn [type_depth] in Hd.
    destruct (IH t ltac:(lia) Hs) as [IHf IHv].
    split; intros Hv; [cbn in Hv; discriminate|].
    intros v Ht Hb. cbn [factory_of].
    destruct (isVariableSizeType t) eqn:Hve; cbn [SSZAble_Unmarshal].
    + apply (compositeSliceSSZ_Unmarshal_reads (SSZAble_Unmarshal fuel) t
               Hs Hve (IHv eq_refl) v Ht Hb).
    + apply (basicSliceSSZ_Unmarshal_reads (SSZAble_Unmarshal fuel) t
               Hs Hve (IHf eq_refl) v Ht Hb).
  - (* TArray *)
    pose proof Hs as Hs'.
    cbn [supported] in Hs. apply andb_true_iff in Hs. destruct Hs as [Hs Hn].
    cbn [type_depth] in Hd.
    destruct (IH t ltac:(lia) Hs) as [IHf IHv].
    split; intros Hv; cbn [isVariableSizeType] in Hv.
    + intros v pre post Ht Hb. cbn [factory_of]. rewrite Hv.
      cbn [SSZAble_Unmarshal].
      apply (basicArraySSZ_Unmarshal_reads (SSZAble_Unmarshal fuel) n t
               Hs' Hv (IHf Hv) v pre post Ht Hb).
    + intros v Ht Hb. cbn [factory_of]. rewrite Hv.
      cbn [SSZAble_Unmarshal].
      apply (compositeArraySSZ_Unmarshal_reads (SSZAble_Unmarshal fuel) n t
               Hs' Hv (IHv Hv) v Ht Hb).
  - (* TStruct *)
    rename fields into fs.
    assert (HR : forall f, In f fs ->
                           reads (SSZAble_Unmarshal fuel) (FType f)).
    { intros f Hf. apply IH.
      - pose proof (field_depth fs f Hf). lia.
      - rewrite supported_struct in Hs. apply andb_true_iff in Hs.
        destruct Hs as [_ Hs]. eapply supported_field_In; eauto. }
    destruct (structSSZ_Unmarshal_reads (SSZAble_Unmarshal fuel) fs Hs HR)
      as [Rf Rv].
    split; intros Hv.
    + intros v pre post Ht Hb. cbn [factory_of SSZAble_Unmarshal].
      apply (Rf Hv v pre post Ht Hb).
    + intros v Ht Hb. cbn [factory_of SSZAble_Unmarshal].
      apply (Rv Hv v Ht Hb).
Qed.

(* ------------------------------------------------------------------ *)
(** * Round trip through the facade *)

Lemma Unmarshal_enc (t : type) (v : value) :
  supported t = true -> has_type t v = true ->
  0 < len (enc t v) < 2 ^ 32 ->
  Unmarshal (enc t v) (plain (VPtr (Some (zero t))) (TPtr t))
  = Ok (VPtr (Some v)).
Proof.
  intros Hs Ht Hb. unfold Unmarshal, Unmarshal_with, plain.
  cbn [UnmarshalSSZ dyn_value dyn_type].
  replace (len (enc t v) =? 0) with false by (symmetry; apply Z.eqb_neq; lia).
  rewrite (SSZFactory_supported _ _ Hs). cbn [bind].
  unfold factory_Unmarshal.
  destruct (SSZAble_Unmarshal_reads (S (S (type_depth t))) t ltac:(lia) Hs)
    as [Rf Rv].
  assert (R : exists idx,
             SSZAble_Unmarshal (S (S (type_depth t))) (factory_of t)
               (zero t) t (enc t v) 0 = Ok (idx, v)).
  { destruct (isVariableSizeType t) eqn:Hv.
    - apply (Rv eq_refl v Ht). lia.
    - pose proof (Rf eq_refl v [] [] Ht) as R.
      cbn [app] in R. rewrite app_nil_r in R.
      change (len (@nil byte)) with 0 in R.
      eexists. apply R. lia. }
  destruct R as [idx R]. rewrite R. cbn [Wrapf bind].
  replace (DetermineSize (VPtr (Some v)) (TPtr t)) with (determineSize t v)
    by reflexivity.
  rewrite determineSize_enc by assumption.
  rewrite Z.eqb_refl. reflexivity.
Qed.




(* ------------------------------------------------------------------ *)
(** * The [ssz-max] directive and decoding *)

Lemma retag_struct (tag : option string) (fs : list StructField) :
  retag tag (TStruct fs) = TStruct (map (retag_field tag) fs).
Proof. reflexivity. Qed.

Lemma zero_retag (tag : option string) :
  forall t, zero (retag tag t) = zero t.
Proof.
  induction t as [t IH] using type_depth_ind.
  destruct t; try reflexivity.
  - cbn [retag zero]. rewrite IH by (cbn; lia). reflexivity.
  - rewrite retag_struct. cbn [zero]. rewrite map_map. f_equal.
    apply map_ext_in. intros f Hin. cbn [retag_field FType].
    apply IH. now apply field_depth.
Qed.

Lemma isVariableSizeType_retag (tag : option string) :
  forall t, isVariableSizeType (retag tag t) = isVariableSizeType t.
Proof.
  induction t as [t IH] using type_depth_ind.
  destruct t; try reflexivity.
  - cbn [retag isVariableSizeType]. apply IH. cbn; lia.
  - rewrite retag_struct. cbn [isVariableSizeType].
    assert (G : forall f, In f fields ->
                isVariableSizeType (retag tag (FType f))
                = isVariableSizeType (FType f))
      by (intros f Hin; apply IH; now apply field_depth).
    clear IH. induction fields as [|f fs IHf]; [reflexivity|].
    cbn [map existsb retag_field FType].
    rewrite G by now left. rewrite IHf by (intros; apply G; now right).
    reflexivity.
  - cbn [retag isVariableSizeType]. apply IH. cbn; lia.
Qed.

Lemma fixed_size_retag (tag : option string) :
  forall t, fixed_size (retag tag t) = fixed_size t.
Proof.
  induction t as [t IH] using type_depth_ind.
  destruct t; try reflexivity.
  - cbn [retag fixed_size]. rewrite IH by (cbn; lia). reflexivity.
  - rewrite retag_struct. cbn [fixed_size].
    assert (G : forall f, In f fields ->
                fixed_size (retag tag (FType f)) = fixed_size (FType f))
      by (intros f Hin; apply IH; now apply field_depth).
    clear IH. induction fields as [|f fs IHf]; [reflexivity|].
    cbn [map fold_right retag_field FType].
    rewrite G by now left. rewrite IHf by (intros; apply G; now right).
    reflexivity.
  - cbn [retag fixed_size]. apply IH. cbn; lia.
Qed.

Lemma type_depth_retag (tag : option string) :
  forall t, type_depth (retag tag t) = type_depth t.
Proof.
  induction t as [t IH] using type_depth_ind.
  destruct t; try reflexivity;
    try (cbn [retag type_depth]; rewrite IH by (cbn; lia); reflexivity).
  rewrite retag_struct. cbn [type_depth]. f_equal.
  assert (G : forall f, In f fields ->
              type_depth (retag tag (FType f)) = type_depth (FType f))
    by (intros f Hin; apply IH; now apply field_depth).
  clear IH. induction fields as [|f fs IHf]; [reflexivity|].
  cbn [map fold_right retag_field FType].
  rewrite G by now left. rewrite IHf by (intros; apply G; now right).
  reflexivity.
Qed.

Lemma determineSize_retag (tag : option string) :
  forall t v, determineSize (retag tag t) v = determineSize t v.
Proof.
  induction t as [t IH] using type_depth_ind. intros v.
  destruct t; try reflexivity.
  - cbn [retag determineSize]. rewrite isVariableSizeType_retag.
    destruct v; try reflexivity.
    induction items as [|x items IHi]; [reflexivity|].
    cbn [fold_right]. rewrite IHi, IH by (cbn; lia). reflexivity.
  - cbn [retag determineSize]. rewrite isVariableSizeType_retag.
    destruct v; try reflexivity.
    induction items as [|x items IHi]; [reflexivity|].
    cbn [fold_right]. rewrite IHi, IH by (cbn; lia). reflexivity.
  - rewrite retag_struct.
    change (size_fields (map (retag_field tag) fields)
              (match v with VStruct vs => vs | _ => [] end)
            = size_fields fields
                (match v with VStruct vs => vs | _ => [] end)).
    assert (G : forall f, In f fields -> forall x,
                determineSize (retag tag (FType f)) x
                = determineSize (FType f) x)
      by (intros f Hin x; apply IH; now apply field_depth).
    clear IH.
    generalize (match v with VStruct vs => vs | _ => [] end) as vs.
    induction fields as [|f fs IHf]; intros vs; [reflexivity|].
    destruct vs as [|x vs]; [reflexivity|].
    cbn [map size_fields retag_field FType].
    rewrite isVariableSizeType_retag, G by now left.
    rewrite IHf by (intros; apply G; now right). reflexivity.
  - cbn [retag determineSize]. rewrite zero_retag.
    destruct v as [| | | | | |[x|]]; apply IH; cbn; lia.
Qed.

Lemma SSZFactory_retag (tag : option string) :
  forall t v, SSZFactory v (retag tag t) = SSZFactory v t.
Proof.
  induction t as [t IH] using type_depth_ind. intros v.
  destruct t; try reflexivity.
  - cbn [retag SSZFactory]. now rewrite isVariableSizeType_retag.
  - cbn [retag SSZFactory]. now rewrite isVariableSizeType_retag.
  - cbn [retag SSZFactory]. rewrite zero_retag. apply IH. cbn; lia.
Qed.

Lemma basicSSZ_Unmarshal_retag (tag : option string) (val : value)
  (t : type) (input : list byte) (off : Z) :
  basicSSZ_Unmarshal val (retag tag t) input off
  = basicSSZ_Unmarshal val t input off.
Proof. destruct t; reflexivity. Qed.

Lemma growConcreteSliceType_retag (tag : option string) (val : value)
  (t : type) (n : Z) :
  growConcreteSliceType val (retag tag t) n = growConcreteSliceType val t n.
Proof.
  destruct t; try reflexivity.
  unfold growConcreteSliceType. cbn [retag].
  destruct (SliceItems val); cbn [bind]; try reflexivity.
  now rewrite zero_retag.
Qed.

Lemma instantiate_if_ptr_retag (tag : option string) (d : value) (t : type) :
  instantiate_if_ptr d (retag tag t) = instantiate_if_ptr d t.
Proof.
  destruct t; try reflexivity.
  cbn [retag instantiate_if_ptr]. unfold instantiateConcreteTypeForElement.
  now rewrite zero_retag.
Qed.

Lemma countFields_retag (tag : option string) (fs : list StructField) :
  countFields (map (retag_field tag) fs) = countFields fs.
Proof.
  unfold countFields. induction fs as [|f fs IH]; [reflexivity|].
  cbn [map filter retag_field Name].
  destruct (negb (Contains (Name f) "XXX_")); cbn [List.length];
    now rewrite IH.
Qed.

Section RetagCodecs.

Variable tag : option string.
Variable U : SSZAble -> value -> type -> list byte -> Z -> result (Z * value).
Hypothesis HU : forall f v t input off,
  U f v (retag tag t) input off = U f v t input off.

Lemma basicSlice_decode_rest_retag (factory : SSZAble) (e : type)
  (input : list byte) :
  forall count i val index,
    basicSlice_decode_rest U factory (TSlice (retag tag e)) (retag tag e)
      input count i val index
    = basicSlice_decode_rest U factory (TSlice e) e input count i val index.
Proof.
  induction count as [|count IH]; intros i val index; [reflexivity|].
  cbn [basicSlice_decode_rest].
  rewrite (growConcreteSliceType_retag tag val (TSlice e)).
  destruct (growConcreteSliceType val (TSlice e) (i + 1)) as [val1| |];
    cbn [bind]; try reflexivity.
  destruct (SliceItems val1) as [items| |]; cbn [bind]; try reflexivity.
  destruct (elem_at items i) as [d| |]; cbn [bind]; try reflexivity.
  rewrite HU.
  destruct (U factory d e input index) as [[index' d']| |]; cbn [bind];
    try reflexivity.
  destruct (store items i d') as [items'| |]; cbn [bind]; try reflexivity.
  apply IH.
Qed.

Lemma basicSliceSSZ_Unmarshal_retag (val : value) (t : type)
  (input : list byte) (off : Z) :
  basicSliceSSZ_Unmarshal U val (retag tag t) input off
  = basicSliceSSZ_Unmarshal U val t input off.
Proof.
  destruct t; try reflexivity.
  - unfold basicSliceSSZ_Unmarshal.
    destruct (len input =? 0); [reflexivity|].
    rewrite (growConcreteSliceType_retag tag val (TSlice t)).
    destruct (growConcreteSliceType val (TSlice t) 1) as [val1| |];
      cbn [bind]; try reflexivity.
    destruct (SliceItems val1) as [items| |]; cbn [bind]; try reflexivity.
    destruct (elem_at items 0) as [d| |]; cbn [bind]; try reflexivity.
    cbn [retag Elem bind]. rewrite SSZFactory_retag.
    destruct (SSZFactory d t) as [factory| |]; cbn [bind]; try reflexivity.
    rewrite HU.
    destruct (U factory d t input off) as [[index d']| |]; cbn [bind];
      try reflexivity.
    destruct (store items 0 d') as [items'| |]; cbn [bind]; try reflexivity.
    destruct (sub64 index off =? 0); [reflexivity|].
    apply basicSlice_decode_rest_retag.
  - unfold basicSliceSSZ_Unmarshal.
    destruct (len input =? 0); [reflexivity|].
    rewrite (growConcreteSliceType_retag tag val (TArray n t)).
    unfold growConcreteSliceType.
    destruct (SliceItems val); reflexivity.
  - unfold basicSliceSSZ_Unmarshal.
    destruct (len input =? 0); [reflexivity|].
    rewrite (growConcreteSliceType_retag tag val (TPtr t)).
    unfold growConcreteSliceType.
    destruct (SliceItems val); reflexivity.
Qed.

Lemma basicArray_decode_retag (e : type) (input : list byte) :
  forall todo i items index,
    basicArray_decode U (retag tag e) input todo i items index
    = basicArray_decode U e input todo i items index.
Proof.
  induction todo as [|todo IH]; intros i items index; [reflexivity|].
  cbn [basicArray_decode].
  destruct (elem_at items i) as [d| |]; cbn [bind]; try reflexivity.
  rewrite instantiate_if_ptr_retag.
  destruct (instantiate_if_ptr d e) as [d1| |]; cbn [bind]; try reflexivity.
  assert (F : match retag tag e with
              | TPtr ee => SSZFactory d1 ee
              | _ => SSZFactory d1 (retag tag e)
              end
              = match e with
                | TPtr ee => SSZFactory d1 ee
                | _ => SSZFactory d1 e
                end).
  { destruct e; try reflexivity; cbn [retag];
      try apply (SSZFactory_retag tag (TSlice e));
      try apply (SSZFactory_retag tag (TArray n e));
      apply SSZFactory_retag. }
  rewrite F.
  destruct (match e with TPtr ee => SSZFactory d1 ee | _ => SSZFactory d1 e end)
    as [factory| |]; cbn [bind]; try reflexivity.
  rewrite HU.
  destruct (U factory d1 e input index) as [[index' d']| |]; cbn [bind];
    try reflexivity.
  destruct (store items i d') as [items'| |]; cbn [bind]; try reflexivity.
  apply IH.
Qed.

Lemma Elem_retag (t : type) :
  Elem (retag tag t) = (e <- Elem t ;; Ok (retag tag e)).
Proof. destruct t; reflexivity. Qed.

Lemma basicArraySSZ_Unmarshal_retag (val : value) (t : type)
  (input : list byte) (off : Z) :
  basicArraySSZ_Unmarshal U val (retag tag t) input off
  = basicArraySSZ_Unmarshal U val t input off.
Proof.
  unfold basicArraySSZ_Unmarshal.
  destruct (SliceItems val) as [items| |]; cbn [bind]; try reflexivity.
  destruct (len items =? 0); [reflexivity|].
  rewrite Elem_retag.
  destruct (Elem t) as [e| |]; cbn [bind]; try reflexivity.
  now rewrite basicArray_decode_retag.
Qed.

Lemma compositeSlice_loop_retag (e : type) (input : list byte)
  (startOffset firstOffset endOffset : Z) :
  forall fuel i val currentIndex currentOffset,
    compositeSlice_loop U (TSlice (retag tag e)) (retag tag e) input
      startOffset firstOffset endOffset fuel i val currentIndex currentOffset
    = compositeSlice_loop U (TSlice e) e input
        startOffset firstOffset endOffset fuel i val currentIndex
        currentOffset.
Proof.
  induction fuel as [|fuel IH]; intros i val currentIndex currentOffset;
    [reflexivity|].
  cbn [compositeSlice_loop].
  destruct (currentIndex <? firstOffset); [|reflexivity].
  destruct (next_offset input startOffset firstOffset endOffset
              (add64 currentIndex BytesPerLengthOffset)) as [nextOffset| |];
    cbn [bind]; try reflexivity.
  destruct (nextOffset <? currentOffset); [reflexivity|].
  rewrite (growConcreteSliceType_retag tag val (TSlice e)).
  destruct (growConcreteSliceType val (TSlice e) (i + 1)) as [val1| |];
    cbn [bind]; try reflexivity.
  destruct (SliceItems val1) as [items| |]; cbn [bind]; try reflexivity.
  destruct (elem_at items i) as [d| |]; cbn [bind]; try reflexivity.
  rewrite SSZFactory_retag.
  destruct (SSZFactory d e) as [factory| |]; cbn [bind]; try reflexivity.
  destruct (slice input currentOffset nextOffset) as [sub| |]; cbn [bind];
    try reflexivity.
  rewrite HU.
  destruct (U factory d e sub 0) as [[index' d']| |]; cbn [bind];
    try reflexivity.
  destruct (store items i d') as [items'| |]; cbn [bind]; try reflexivity.
  apply IH.
Qed.

Lemma compositeSliceSSZ_Unmarshal_retag (val : value) (t : type)
  (input : list byte) (off : Z) :
  compositeSliceSSZ_Unmarshal U val (retag tag t) input off
  = compositeSliceSSZ_Unmarshal U val t input off.
Proof.
  unfold compositeSliceSSZ_Unmarshal.
  destruct (len input =? 0); [reflexivity|].
  rewrite growConcreteSliceType_retag.
  destruct (growConcreteSliceType val t 1) as [val1| |] eqn:G; cbn [bind];
    try reflexivity.
  destruct t;
    try (unfold growConcreteSliceType in G;
         destruct (SliceItems val); cbn [bind] in G; discriminate).
  cbn [retag Elem bind].
  destruct (slice input off (add64 off BytesPerLengthOffset)) as [ov| |];
    cbn [bind]; try reflexivity.
  destruct (Uint32 ov) as [o| |]; cbn [bind]; try reflexivity.
  apply compositeSlice_loop_retag.
Qed.

Lemma compositeArray_loop_retag (factory : SSZAble) (e : type)
  (input : list byte) (startOffset firstOffset endOffset : Z) :
  forall fuel i items currentIndex currentOffset,
    compositeArray_loop U factory (retag tag e) input
      startOffset firstOffset endOffset fuel i items currentIndex
      currentOffset
    = compositeArray_loop U factory e input
        startOffset firstOffset endOffset fuel i items currentIndex
        currentOffset.
Proof.
  induction fuel as [|fuel IH]; intros i items currentIndex currentOffset;
    [reflexivity|].
  cbn [compositeArray_loop].
  destruct (currentIndex <? firstOffset); [|reflexivity].
  destruct (next_offset input startOffset firstOffset endOffset
              (add64 currentIndex BytesPerLengthOffset)) as [nextOffset| |];
    cbn [bind]; try reflexivity.
  destruct (elem_at items i) as [d| |]; cbn [bind]; try reflexivity.
  rewrite instantiate_if_ptr_retag.
  destruct (instantiate_if_ptr d e) as [d1| |]; cbn [bind]; try reflexivity.
  destruct (slice input currentOffset nextOffset) as [sub| |]; cbn [bind];
    try reflexivity.
  rewrite HU.
  destruct (U factory d1 e sub 0) as [[index' d']| |]; cbn [bind];
    try reflexivity.
  destruct (store items i d') as [items'| |]; cbn [bind]; try reflexivity.
  apply IH.
Qed.

Lemma compositeArraySSZ_Unmarshal_retag (val : value) (t : type)
  (input : list byte) (off : Z) :
  compositeArraySSZ_Unmarshal U val (retag tag t) input off
  = compositeArraySSZ_Unmarshal U val t input off.
Proof.
  unfold compositeArraySSZ_Unmarshal.
  destruct (slice input off (add64 off BytesPerLengthOffset)) as [ov| |];
    cbn [bind]; try reflexivity.
  destruct (Uint32 ov) as [o| |]; cbn [bind]; try reflexivity.
  destruct t; try reflexivity; cbn [retag Elem];
    destruct (SliceItems val) as [items| |]; cbn [bind]; try reflexivity;
    destruct (elem_at items 0) as [v0| |]; cbn [bind]; try reflexivity;
    rewrite SSZFactory_retag;
    destruct (SSZFactory v0 t) as [factory| |]; cbn [bind];
    try reflexivity;
    now rewrite compositeArray_loop_retag.
Qed.

Lemma struct_fixedSizes_retag :
  forall fs i vs,
    struct_fixedSizes (map (retag_field tag) fs) i vs
    = struct_fixedSizes fs i vs.
Proof.
  induction fs as [|f fs IH]; intros i vs; [reflexivity|].
  cbn [map struct_fixedSizes determineFieldType retag_field FType bind].
  rewrite isVariableSizeType_retag.
  destruct (isVariableSizeType (FType f)).
  - now rewrite IH.
  - destruct (elem_at vs i) as [d| |]; cbn [bind]; try reflexivity.
    rewrite instantiate_if_ptr_retag.
    destruct (instantiate_if_ptr d (FType f)) as [d1| |]; cbn [bind];
      try reflexivity.
    destruct (store vs i d1) as [vs1| |]; cbn [bind]; try reflexivity.
    unfold determineFixedSize. now rewrite IH, fixed_size_retag.
Qed.

Lemma struct_decode_retag (input : list byte) (offsets : list Z) :
  forall fs fixedSizes i offsetIndex vs currentIndex,
    struct_decode U (map (retag_field tag) fs) fixedSizes i input offsets
      offsetIndex vs currentIndex
    = struct_decode U fs fixedSizes i input offsets offsetIndex vs
        currentIndex.
Proof.
  induction fs as [|f fs IH];
    intros fixedSizes i offsetIndex vs currentIndex; [reflexivity|].
  destruct fixedSizes as [|entry rest]; [reflexivity|].
  cbn [map struct_decode determineFieldType retag_field FType bind].
  destruct (elem_at vs i) as [d| |]; cbn [bind]; try reflexivity.
  rewrite instantiate_if_ptr_retag.
  destruct (instantiate_if_ptr d (FType f)) as [d1| |]; cbn [bind];
    try reflexivity.
  destruct (store vs i d1) as [vs1| |]; cbn [bind]; try reflexivity.
  rewrite SSZFactory_retag.
  destruct (SSZFactory d1 (FType f)) as [factory| |]; cbn [bind];
    try reflexivity.
  destruct entry as [item|].
  - destruct (item =? 0); [apply IH|].
    destruct (slice input currentIndex (add64 currentIndex item))
      as [sub| |]; cbn [bind]; try reflexivity.
    rewrite HU.
    destruct (U factory d1 (FType f) sub 0) as [[index' d']| |];
      cbn [bind]; try reflexivity.
    destruct (store vs1 i d') as [vs2| |]; cbn [bind]; try reflexivity.
    apply IH.
  - destruct (elem_at offsets offsetIndex) as [firstOff| |]; cbn [bind];
      try reflexivity.
    destruct (firstOff =? len input); [apply IH|].
    destruct (elem_at offsets (offsetIndex + 1)) as [nextOff| |];
      cbn [bind]; try reflexivity.
    destruct (nextOff >? len input); [reflexivity|].
    destruct (slice input firstOff nextOff) as [sub| |]; cbn [bind];
      try reflexivity.
    rewrite HU.
    destruct (U factory d1 (FType f) sub 0) as [[index' d']| |];
      cbn [bind]; try reflexivity.
    destruct (store vs1 i d') as [vs2| |]; cbn [bind]; try reflexivity.
    apply IH.
Qed.

Lemma structSSZ_Unmarshal_retag (val : value) (t : type)
  (input : list byte) (off : Z) :
  structSSZ_Unmarshal U val (retag tag t) input off
  = structSSZ_Unmarshal U val t input off.
Proof.
  destruct t; try reflexivity.
  - rewrite retag_struct. unfold structSSZ_Unmarshal.
    cbn [Fields bind]. cbv zeta. rewrite countFields_retag, firstn_map.
    destruct (FieldValues val) as [vs| |]; cbn [bind]; try reflexivity.
    rewrite struct_fixedSizes_retag.
    match goal with
    | |- bind ?r _ = bind ?r _ => destruct r as [[vs1 fixedSizes]| |]
    end; cbn [bind]; try reflexivity.
    destruct (struct_offsets fixedSizes input off off []) as [offsets| |];
      cbn [bind]; try reflexivity.
    now rewrite struct_decode_retag.
  - cbn [retag structSSZ_Unmarshal].
    destruct (IsNil val) as [[|]| |]; cbn [bind]; try reflexivity.
    destruct val as [| | | | | |[v|]]; try reflexivity.
    now rewrite HU.
Qed.

End RetagCodecs.

Lemma SSZAble_Unmarshal_retag (tag : option string) :
  forall fuel factory val t input off,
    SSZAble_Unmarshal fuel factory val (retag tag t) input off
    = SSZAble_Unmarshal fuel factory val t input off.
Proof.
  induction fuel as [|fuel IH]; intros factory val t input off;
    [reflexivity|].
  cbn [SSZAble_Unmarshal]. destruct factory.
  - apply basicSSZ_Unmarshal_retag.
  - reflexivity.
  - now apply basicSliceSSZ_Unmarshal_retag.
  - now apply compositeSliceSSZ_Unmarshal_retag.
  - now apply basicArraySSZ_Unmarshal_retag.
  - now apply compositeArraySSZ_Unmarshal_retag.
  - now apply structSSZ_Unmarshal_retag.
Qed.

Lemma Unmarshal_retag (tag : option string) (input : list byte)
  (d : value) (t : type) :
  Unmarshal input (plain d (retag tag t)) = Unmarshal input (plain d t).
Proof.
  unfold Unmarshal, Unmarshal_with, plain.
  cbn [UnmarshalSSZ dyn_value dyn_type].
  destruct (len input =? 0); [reflexivity|].
  destruct t; try reflexivity.
  cbn [retag]. destruct d as [| | | | | |[v|]]; try reflexivity.
  rewrite SSZFactory_retag.
  destruct (SSZFactory v t) as [factory| |]; cbn [bind]; try reflexivity.
  unfold factory_Unmarshal.
  rewrite type_depth_retag, SSZAble_Unmarshal_retag.
  destruct (SSZAble_Unmarshal (S (S (type_depth t))) factory v t input 0)
    as [[index v']| |]; cbn [Wrapf bind]; try reflexivity.
  change (DetermineSize (VPtr (Some v')) (TPtr (retag tag t)))
    with (determineSize (retag tag t) v').
  rewrite determineSize_retag. reflexivity.
Qed.

(** C6, amended.  The decoder never consults the [ssz-max] directive: two
    destination types that differ in their [ssz-max] directives only give
    the same result, success or failure, on every input and every
    destination value; no limit is enforced. *)
Theorem Unmarshal_ignores_ssz_max (t1 t2 : type) (input : list byte)
  (d : value) :
  retag None t1 = retag None t2 ->
  Unmarshal input (plain d t1) = Unmarshal input (plain d t2).
Proof.
  intros H.
  rewrite <- (Unmarshal_retag None input d t1), H.
  apply Unmarshal_retag.
Qed.

Lemma Unmarshal_ignores_ssz_max_witness :
  determineFieldCapacity fieldL = 1
  /\ Unmarshal two_elements
       (plain (VPtr (Some (zero structL))) (TPtr structL))
     = Unmarshal two_elements
         (plain (VPtr (Some (zero structL))) (TPtr structL_unlimited)).
Proof.
  split; [reflexivity|].
  apply (Unmarshal_ignores_ssz_max (TPtr structL) (TPtr structL_unlimited)).
  reflexivity.
Defined.

(* ------------------------------------------------------------------ *)
(** * Further properties of the codecs *)

Ltac bind_inv H :=
  match type of H with
  | bind ?r _ = Ok _ =>
      let E := fresh "E" in
      destruct r eqn:E; cbn [bind] in H |- *; try discriminate
  end.

Lemma copy_at_len (buf src buf' : list byte) (lo : Z) :
  copy_at buf lo src = Ok buf' -> len buf' = len buf.
Proof.
  unfold copy_at.
  destruct ((0 <=? lo) && (lo + len src <=? len buf)) eqn:C; [|discriminate].
  intros H. injection H as <-.
  apply andb_true_iff in C. destruct C as [C1 C2].
  apply Z.leb_le in C1, C2. pose proof (len_nonneg src).
  unfold len in *. rewrite !length_app, length_firstn, length_skipn. lia.
Qed.

Lemma store_len {A} (s s' : list A) (i : Z) (x : A) :
  store s i x = Ok s' -> len s' = len s.
Proof.
  unfold store.
  destruct ((0 <=? i) && (i <? len s)) eqn:C; [|discriminate].
  remember (skipn (S (Z.to_nat i)) s) as tl eqn:Etl.
  intros H. injection H as <-.
  apply andb_true_iff in C. destruct C as [C1 C2].
  apply Z.leb_le in C1. apply Z.ltb_lt in C2.
  assert (L : List.length tl = (List.length s - S (Z.to_nat i))%nat)
    by (subst tl; apply length_skipn).
  unfold len in *. rewrite length_app, length_firstn.
  cbn [List.length]. lia.
Qed.

Lemma basicSSZ_Marshal_len (v : value) (t : type) (buf buf' : list byte)
  (off idx : Z) :
  basicSSZ_Marshal v t buf off = Ok (idx, buf') -> len buf' = len buf.
Proof.
  unfold basicSSZ_Marshal. intros H.
  destruct t, v; try discriminate; cbn [basic_width] in H;
    bind_inv H; injection H as _ <-; eapply copy_at_len; eassumption.
Qed.

Lemma stringSSZ_Marshal_loop_len (items : list value) :
  forall buf buf' off i,
    stringSSZ_Marshal_loop items buf off i = Ok buf' -> len buf' = len buf.
Proof.
  induction items as [|c rest IH]; intros buf buf' off i H.
  - now injection H as <-.
  - cbn [stringSSZ_Marshal_loop] in H. bind_inv H. bind_inv H.
    apply IH in H. rewrite H. eapply store_len; eassumption.
Qed.

Lemma stringSSZ_Marshal_len (v : value) (t : type) (buf buf' : list byte)
  (off idx : Z) :
  stringSSZ_Marshal v t buf off = Ok (idx, buf') -> len buf' = len buf.
Proof.
  unfold stringSSZ_Marshal. intros H. bind_inv H. bind_inv H.
  injection H as _ <-. eapply stringSSZ_Marshal_loop_len; eassumption.
Qed.

Section KeepsLength.

Variable M : SSZAble -> value -> type -> list byte -> Z
             -> result (Z * list byte).
Hypothesis HM : keeps_length M.

Lemma marshal_each_len (f : SSZAble) (e : type) (items : list value) :
  forall buf index idx buf',
    marshal_each M f e items buf index = Ok (idx, buf') ->
    len buf' = len buf.
Proof.
  induction items as [|v rest IH]; intros buf index idx buf' H.
  - now injection H as _ <-.
  - cbn [marshal_each] in H. bind_inv H. destruct a as [i1 b1].
    apply IH in H. rewrite H. eapply HM; eassumption.
Qed.

Lemma marshal_offsets_len (f : SSZAble) (e : type) (items : list value) :
  forall buf s fi co idx buf',
    marshal_offsets M f e items buf s fi co = Ok (idx, buf') ->
    len buf' = len buf.
Proof.
  induction items as [|v rest IH]; intros buf s fi co idx buf' H.
  - now injection H as _ <-.
  - cbn [marshal_offsets] in H. bind_inv H. destruct a as [i1 b1].
    bind_inv H. apply IH in H. rewrite H.
    apply copy_at_len in E0. rewrite E0. eapply HM; eassumption.
Qed.

Lemma collection_Marshal_len (v : value) (t : type)
  (buf buf' : list byte) (off idx : Z) :
  (basicSliceSSZ_Marshal M v t buf off = Ok (idx, buf') ->
   len buf' = len buf)
  /\ (basicArraySSZ_Marshal M v t buf off = Ok (idx, buf') ->
      len buf' = len buf)
  /\ (compositeSliceSSZ_Marshal M v t buf off = Ok (idx, buf') ->
      len buf' = len buf)
  /\ (compositeArraySSZ_Marshal M v t buf off = Ok (idx, buf') ->
      len buf' = len buf).
Proof.
  unfold basicSliceSSZ_Marshal, basicArraySSZ_Marshal,
    compositeSliceSSZ_Marshal, compositeArraySSZ_Marshal.
  repeat split; intros H; bind_inv H;
    (destruct (len a =? 0); [now injection H as _ <-|]);
    bind_inv H; bind_inv H; bind_inv H;
    try (destruct (negb (isVariableSizeType a1)));
    first [eapply marshal_each_len; eassumption
          | eapply marshal_offsets_len; eassumption].
Qed.

Lemma struct_marshal_fields_len (v : value) (fs : list StructField) :
  forall i buf s fi co idx buf',
    struct_marshal_fields M v fs i buf s fi co = Ok (idx, buf') ->
    len buf' = len buf.
Proof.
  induction fs as [|f fs IH]; intros i buf s fi co idx buf' H.
  - now injection H as _ <-.
  - cbn [struct_marshal_fields determineFieldType bind] in H.
    bind_inv H. bind_inv H. bind_inv H.
    destruct (negb (isVariableSizeType (FType f))).
    + bind_inv H. destruct a2 as [i1 b1]. apply IH in H. rewrite H.
      eapply HM; eassumption.
    + bind_inv H. destruct a2 as [i1 b1]. bind_inv H.
      apply IH in H. rewrite H. apply copy_at_len in E3. rewrite E3.
      eapply HM; eassumption.
Qed.

Lemma structSSZ_Marshal_len (v : value) (t : type)
  (buf buf' : list byte) (off idx : Z) :
  structSSZ_Marshal M v t buf off = Ok (idx, buf') -> len buf' = len buf.
Proof.
  unfold structSSZ_Marshal. intros H.
  destruct t;
    try (cbn [Fields bind] in H; discriminate).
  - cbn [Fields bind] in H. bind_inv H.
    eapply struct_marshal_fields_len; eassumption.
  - bind_inv H. destruct a.
    + eapply HM; eassumption.
    + destruct v as [| | | | | |[x|]]; try discriminate.
      eapply HM; eassumption.
Qed.

End KeepsLength.

Lemma SSZAble_Marshal_keeps_length (fuel : nat) :
  keeps_length (SSZAble_Marshal fuel).
Proof.
  induction fuel as [|fuel IH]; intros f v t buf off idx buf' H;
    [discriminate|].
  cbn [SSZAble_Marshal] in H.
  pose proof (collection_Marshal_len (SSZAble_Marshal fuel) IH v t buf buf'
                off idx) as [C1 [C2 [C3 C4]]].
  destruct f; auto.
  - eapply basicSSZ_Marshal_len; eassumption.
  - eapply stringSSZ_Marshal_len; eassumption.
  - eapply structSSZ_Marshal_len; eassumption.
Qed.

Lemma size_fields_nonneg (fs : list StructField) :
  (forall f, In f fs -> forall v, 0 <= determineSize (FType f) v) ->
  forall vs, 0 <= size_fields fs vs.
Proof.
  induction fs as [|f fs IH]; intros G vs; [cbn; lia|].
  destruct vs as [|x vs]; [cbn; lia|].
  cbn [size_fields].
  pose proof (G f (or_introl eq_refl) x).
  pose proof (IH (fun g Hg => G g (or_intror Hg)) vs).
  change BytesPerLengthOffset with 4.
  destruct (isVariableSizeType (FType f)); lia.
Qed.

Lemma determineSize_nonneg :
  forall t v, 0 <= determineSize t v.
Proof.
  induction t as [t IH] using type_depth_ind. intros v.
  destruct t; try (cbn; lia).
  - cbn [determineSize]. destruct v; try apply len_nonneg; lia.
  - cbn [determineSize]. destruct v; try lia.
    induction items as [|x items IHi]; [cbn; lia|].
    cbn [fold_right]. pose proof (IH t ltac:(cbn; lia) x).
    destruct (isVariableSizeType t);
      change BytesPerLengthOffset with 4 in *; lia.
  - cbn [determineSize]. destruct v; try lia.
    induction items as [|x items IHi]; [cbn; lia|].
    cbn [fold_right]. pose proof (IH t ltac:(cbn; lia) x).
    destruct (isVariableSizeType t);
      change BytesPerLengthOffset with 4 in *; lia.
  - change (0 <= size_fields fields
                   (match v with VStruct vs => vs | _ => [] end)).
    apply size_fields_nonneg. intros f Hin x. apply IH.
    now apply field_depth.
  - cbn [determineSize].
    destruct v as [| | | | | |[x|]]; apply IH; cbn; lia.
Qed.



Lemma layout_cons_pos (flag : bool) (b : list byte) (rest : list child) :
  0 < (if flag then 4 else len b) -> 0 < len (layout ((flag, b) :: rest)).
Proof.
  intros H. rewrite len_layout. cbn [fixed_length variable_part].
  pose proof (fixed_length_nonneg rest).
  pose proof (len_nonneg (variable_part rest)).
  pose proof (len_nonneg b).
  change BytesPerLengthOffset with 4.
  destruct flag; rewrite ?len_app; lia.
Qed.

Lemma child_pos (t : type) (v : value) :
  supported t = true -> has_type t v = true ->
  0 < (if isVariableSizeType t then 4 else len (enc t v)).
Proof.
  intros Hs Ht. destruct (isVariableSizeType t) eqn:Hv; [lia|].
  rewrite enc_fixed_len by assumption. now apply fixed_size_pos.
Qed.

Lemma enc_nil_inv (t : type) (v : value) :
  supported t = true -> has_type t v = true -> enc t v = [] ->
  v = VList [].
Proof.
  intros Hs Ht He.
  assert (L : len (enc t v) = 0) by now rewrite He.
  destruct t; try (cbn in Hs; discriminate);
    try (destruct v; cbn in Ht, He; discriminate).
  - destruct v; try discriminate. destruct items as [|x rest]; [reflexivity|].
    exfalso. rewrite enc_slice in L. unfold list_children in L.
    cbn [map] in L. cbn [supported] in Hs. cbn [has_type forallb] in Ht.
    apply andb_true_iff in Ht. destruct Ht as [Hx _].
    pose proof (layout_cons_pos _ _
                  (map (fun v => (isVariableSizeType t, enc t v)) rest)
                  (child_pos t x Hs Hx)).
    lia.
  - destruct v; try discriminate. cbn [supported] in Hs.
    apply andb_true_iff in Hs. destruct Hs as [Hs Hn].
    cbn [has_type] in Ht. apply andb_true_iff in Ht. destruct Ht as [Hl Ht].
    destruct items as [|x rest].
    + apply Nat.eqb_eq in Hl. cbn in Hl. subst n. discriminate.
    + exfalso. rewrite enc_array in L. unfold list_children in L.
      cbn [map] in L. cbn [forallb] in Ht.
      apply andb_true_iff in Ht. destruct Ht as [Hx _].
      pose proof (layout_cons_pos _ _
                    (map (fun v => (isVariableSizeType t, enc t v)) rest)
                    (child_pos t x Hs Hx)).
      lia.
  - destruct v; try discriminate. exfalso.
    rename fields into fs, fields0 into vs.
    rewrite supported_struct in Hs. apply andb_true_iff in Hs.
    destruct Hs as [Hn Hs]. rewrite has_type_struct in Ht.
    destruct fs as [|f fs]; [discriminate|].
    destruct vs as [|x vs]; [discriminate|].
    cbn [has_type_fields] in Ht. apply andb_true_iff in Ht.
    destruct Ht as [Hx _]. cbn [forallb] in Hs.
    apply andb_true_iff in Hs. destruct Hs as [Hf _].
    unfold supported_field in Hf. apply andb_true_iff in Hf.
    destruct Hf as [Hf _].
    rewrite enc_struct in L. cbn [struct_children] in L.
    pose proof (layout_cons_pos _ _ (struct_children fs vs)
                  (child_pos (FType f) x Hf Hx)).
    lia.
Qed.







Lemma countFields_app (fs xs : list StructField) :
  countFields (fs ++ xs) = (countFields fs + countFields xs)%nat.
Proof.
  unfold countFields. now rewrite filter_app, length_app.
Qed.

Lemma countFields_free (fs : list StructField) :
  XXX_free fs = true -> countFields fs = List.length fs.
Proof.
  unfold countFields, XXX_free.
  induction fs as [|f fs IH]; [reflexivity|].
  cbn [forallb filter]. intros H. apply andb_true_iff in H.
  destruct H as [Hf H]. rewrite Hf. cbn [List.length]. now rewrite IH.
Qed.

Lemma countFields_only (xs : list StructField) :
  XXX_only xs = true -> countFields xs = O.
Proof.
  unfold countFields, XXX_only.
  induction xs as [|f xs IH]; [reflexivity|].
  cbn [forallb filter]. intros H. apply andb_true_iff in H.
  destruct H as [Hf H]. rewrite Hf. cbn [negb]. now apply IH.
Qed.

Lemma store_skipn {A} (s s' : list A) (i : Z) (x : A) (k : nat) :
  store s i x = Ok s' -> i < Z.of_nat k -> skipn k s' = skipn k s.
Proof.
  unfold store.
  destruct ((0 <=? i) && (i <? len s)) eqn:C; [|discriminate].
  remember (skipn (S (Z.to_nat i)) s) as tl eqn:Etl.
  intros H Hk. injection H as <-.
  apply andb_true_iff in C. destruct C as [C1 C2].
  apply Z.leb_le in C1. apply Z.ltb_lt in C2. unfold len in C2.
  rewrite <- (firstn_skipn (Z.to_nat i) s) at 2.
  assert (Lf : List.length (firstn (Z.to_nat i) s) = Z.to_nat i)
    by (rewrite length_firstn; lia).
  rewrite !skipn_app, Lf.
  replace (skipn k (firstn (Z.to_nat i) s)) with (@nil A)
    by (symmetry; apply skipn_all2; lia).
  cbn [app].
  destruct (k - Z.to_nat i)%nat as [|m] eqn:Ek; [lia|].
  rewrite skipn_cons. subst tl.
  rewrite !skipn_skipn. f_equal. lia.
Qed.

Lemma struct_fixedSizes_skipn (k : nat) :
  forall fs i vs vs' m,
    struct_fixedSizes fs i vs = Ok (vs', m) ->
    i + len fs <= Z.of_nat k ->
    skipn k vs' = skipn k vs.
Proof.
  induction fs as [|f fs IH]; intros i vs vs' m H Hk.
  - now injection H as <- _.
  - rewrite len_cons in Hk. pose proof (len_nonneg fs).
    cbn [struct_fixedSizes determineFieldType bind] in H.
    destruct (isVariableSizeType (FType f)).
    + bind_inv H. destruct a as [w1 m1]. injection H as <- _.
      eapply IH; [eassumption | lia].
    + bind_inv H. bind_inv H. bind_inv H. bind_inv H.
      destruct a2 as [w1 m1]. injection H as <- _.
      rewrite (IH _ _ _ _ E2) by lia.
      eapply store_skipn; [eassumption | lia].
Qed.

Lemma struct_decode_skipn
  (U : SSZAble -> value -> type -> list byte -> Z -> result (Z * value))
  (input : list byte) (offsets : list Z) (k : nat) :
  forall fs sizes i oi vs cur idx vs',
    struct_decode U fs sizes i input offsets oi vs cur = Ok (idx, vs') ->
    i + len fs <= Z.of_nat k ->
    skipn k vs' = skipn k vs.
Proof.
  induction fs as [|f fs IH]; intros sizes i oi vs cur idx vs' H Hk.
  - now injection H as _ <-.
  - rewrite len_cons in Hk. pose proof (len_nonneg fs).
    destruct sizes as [|entry rest]; [discriminate|].
    cbn [struct_decode determineFieldType bind] in H.
    bind_inv H. bind_inv H. bind_inv H. bind_inv H.
    assert (S1 : skipn k a1 = skipn k vs)
      by (eapply store_skipn; [eassumption | lia]).
    destruct entry as [item|].
    + destruct (item =? 0).
      * rewrite <- S1. eapply IH; [eassumption | lia].
      * bind_inv H. bind_inv H. destruct a4 as [j d']. bind_inv H.
        rewrite <- S1, <- (store_skipn _ _ _ _ k E5) by lia.
        eapply IH; [eassumption | lia].
    + bind_inv H. destruct (a3 =? len input).
      * rewrite <- S1. eapply IH; [eassumption | lia].
      * bind_inv H. destruct (a4 >? len input); [discriminate|].
        bind_inv H. bind_inv H. destruct a6 as [j d']. bind_inv H.
        rewrite <- S1, <- (store_skipn _ _ _ _ k E7) by lia.
        eapply IH; [eassumption | lia].
Qed.

(** X5.  [structSSZ.Unmarshal] counts the fields whose name does not
    contain XXX_ and decodes that many leading fields.  When the marked
    fields [xs] come last, the struct is decoded exactly as the struct
    without them, and the slots of the destination that belong to them are
    left as they were. *)
Theorem Unmarshal_ignores_trailing_XXX_fields
  (U : SSZAble -> value -> type -> list byte -> Z -> result (Z * value))
  (fs xs : list StructField) (vs : list value) (input : list byte)
  (off : Z) :
  XXX_free fs = true ->
  XXX_only xs = true ->
  structSSZ_Unmarshal U (VStruct vs) (TStruct (fs ++ xs)) input off
  = structSSZ_Unmarshal U (VStruct vs) (TStruct fs) input off
  /\ forall index val',
      structSSZ_Unmarshal U (VStruct vs) (TStruct (fs ++ xs)) input off
      = Ok (index, val') ->
      exists vs', val' = VStruct vs'
                  /\ skipn (List.length fs) vs' = skipn (List.length fs) vs.
Proof.
  intros Hf Hx.
  assert (N : countFields (fs ++ xs) = List.length fs).
  { rewrite countFields_app, (countFields_only xs Hx),
      (countFields_free fs Hf). lia. }
  assert (F : firstn (countFields (fs ++ xs)) (fs ++ xs) = fs).
  { rewrite N, firstn_app, Nat.sub_diag, firstn_all. cbn [firstn].
    apply app_nil_r. }
  assert (G : firstn (countFields fs) fs = fs).
  { rewrite (countFields_free fs Hf). apply firstn_all. }
  assert (E : structSSZ_Unmarshal U (VStruct vs) (TStruct (fs ++ xs))
                input off
              = structSSZ_Unmarshal U (VStruct vs) (TStruct fs) input off).
  { unfold structSSZ_Unmarshal. cbn [Fields bind]. cbv zeta.
    now rewrite F, G. }
  split; [exact E|].
  intros index val' H. rewrite E in H.
  unfold structSSZ_Unmarshal in H. cbn [Fields FieldValues bind] in H.
  cbv zeta in H. rewrite G in H.
  bind_inv H. destruct a as [vs1 sizes]. bind_inv H. bind_inv H.
  destruct a0 as [cur vs2]. injection H as _ <-.
  exists vs2. split; [reflexivity|].
  rewrite (struct_decode_skipn _ _ _ _ _ _ _ _ _ _ _ _ E2)
    by (unfold len; lia).
  eapply struct_fixedSizes_skipn; [eassumption | unfold len; lia].
Qed.

Lemma Unmarshal_ignores_trailing_XXX_fields_witness :
  structSSZ_Unmarshal (SSZAble_Unmarshal 3)
    (VStruct [VUint 0; bytes_value [9]])
    (TStruct ([mkField "A" TUint16 None]
              ++ [mkField "XXX_unrecognized" (TSlice TUint8) None]))
    (bytes_of [1; 2]) 0
  = structSSZ_Unmarshal (SSZAble_Unmarshal 3)
      (VStruct [VUint 0; bytes_value [9]])
      (TStruct [mkField "A" TUint16 None]) (bytes_of [1; 2]) 0.
Proof.
  exact (proj1 (Unmarshal_ignores_trailing_XXX_fields (SSZAble_Unmarshal 3)
                  [mkField "A" TUint16 None]
                  [mkField "XXX_unrecognized" (TSlice TUint8) None]
                  [VUint 0; bytes_value [9]] (bytes_of [1; 2]) 0
                  eq_refl eq_refl)).
Defined.

(** X6.  [compositeArraySSZ.Unmarshal] compares no offsets: on an
    input whose second offset [o2] is below the first [o1], the slice
    expression [input[o1:o2]] is the run-time panic, whatever the element
    codec is. *)
Theorem compositeArray_decreasing_offsets_panic
  (U : SSZAble -> value -> type -> list byte -> Z -> result (Z * value))
  (d : value) (ds : list value) (n : nat) (e : type) (f : SSZAble)
  (o1 o2 : Z) (rest : list byte) :
  SSZFactory d e = Ok f ->
  0 < o1 < 2 ^ 32 ->
  o1 <> 4 ->
  0 <= o2 < o1 ->
  compositeArraySSZ_Unmarshal U (VList (d :: ds)) (TArray n e)
    (PutUint32 o1 ++ PutUint32 o2 ++ rest) 0
  = Panic.
Proof.
  intros Hf H1 H4 H2. unfold compositeArraySSZ_Unmarshal.
  change BytesPerLengthOffset with 4.
  rewrite add64_small by lia.
  rewrite (slice_prefix (PutUint32 o1)) by reflexivity. cbn [bind].
  rewrite Uint32_PutUint32 by lia. cbn [bind].
  rewrite add64_small by lia.
  cbn [SliceItems bind Elem Z.add].
  rewrite (elem_at_app [] ds d) by reflexivity. cbn [bind app].
  rewrite Hf. cbn [bind compositeArray_loop List.length].
  replace (0 <? o1) with true by (symmetry; apply Z.ltb_lt; lia).
  change BytesPerLengthOffset with 4.
  unfold next_offset. rewrite !add64_small by lia.
  replace (0 + 4 =? o1) with false by (symmetry; apply Z.eqb_neq; lia).
  change BytesPerLengthOffset with 4.
  rewrite (slice_app (PutUint32 o1) (PutUint32 o2) rest) by reflexivity.
  cbn [bind]. rewrite Uint32_PutUint32 by lia. cbn [bind].
  rewrite add64_small by lia.
  rewrite (elem_at_app [] ds d) by reflexivity. cbn [bind].
  assert (P : slice (PutUint32 o1 ++ PutUint32 o2 ++ rest) o1 (0 + o2)
              = Panic).
  { unfold slice.
    replace (o1 <=? 0 + o2) with false by (symmetry; apply Z.leb_gt; lia).
    now rewrite andb_false_r. }
  rewrite P.
  unfold instantiate_if_ptr, instantiateConcreteTypeForElement.
  destruct e; try reflexivity.
  destruct d as [| | | | | |[x|]]; reflexivity.
Qed.

Lemma compositeArray_decreasing_offsets_panic_witness :
  compositeArraySSZ_Unmarshal (SSZAble_Unmarshal 3)
    (VList [VList []; VList []]) (TArray 2 (TSlice TUint8))
    decreasing_offsets 0
  = Panic.
Proof.
  exact (compositeArray_decreasing_offsets_panic (SSZAble_Unmarshal 3)
           (VList []) [VList []] 2 (TSlice TUint8) basicsliceType 8 4 []
           eq_refl ltac:(lia) ltac:(lia) ltac:(lia)).
Defined.

(** X7.  A slice of empty structs: the first element consumes no byte,
    so [elementSize] is 0 and the division [len(input) / elementSize] of
    [basicSliceSSZ.Unmarshal] is the run-time panic, for every non-empty
    input and every destination. *)
Theorem Unmarshal_empty_struct_slice_panics (input : list byte)
  (d : value) :
  input <> [] ->
  Unmarshal input (plain (VPtr (Some d)) (TPtr (TSlice (TStruct []))))
  = Panic.
Proof.
  intros Hne. unfold Unmarshal, Unmarshal_with, plain.
  cbn [UnmarshalSSZ dyn_value dyn_type].
  assert (L : (len input =? 0) = false).
  { apply Z.eqb_neq. intros Z0. now apply len_zero_nil in Z0. }
  rewrite L. cbn [SSZFactory isVariableSizeType existsb bind].
  unfold factory_Unmarshal. cbn [type_depth fold_right SSZAble_Unmarshal].
  unfold basicSliceSSZ_Unmarshal. rewrite L.
  destruct d as [| | | |items| |]; try reflexivity.
  destruct items as [|v0 rest].
  - reflexivity.
  - destruct v0; reflexivity.
Qed.

Lemma Unmarshal_empty_struct_slice_panics_witness :
  Unmarshal (bytes_of [0])
    (plain (VPtr (Some (VList []))) (TPtr (TSlice (TStruct []))))
  = Panic.
Proof.
  exact (Unmarshal_empty_struct_slice_panics (bytes_of [0]) (VList [])
           ltac:(discriminate)).
Defined.

(* ------------------------------------------------------------------ *)
(** * Further properties of the decoders of [decode.go] *)

Lemma slice_short {A} (s : list A) (lo hi : Z) :
  len s < hi -> slice s lo hi = Panic.
Proof.
  intros H. unfold slice.
  replace (hi <=? len s) with false by (symmetry; apply Z.leb_gt; lia).
  now rewrite andb_false_r.
Qed.

Lemma read_le_bytes (w : nat) (n : Z) :
  0 <= n < 2 ^ (8 * Z.of_nat w) -> read_le w (le_bytes w n) = Ok n.
Proof.
  intros H. unfold read_le. rewrite len_le_bytes, Z.leb_refl.
  rewrite firstn_all2 by (rewrite length_le_bytes; lia).
  now rewrite le_value_le_bytes_small.
Qed.

Lemma decodeUint_reads (t : type) (w : nat) (dec : decoder) :
  In (t, w, dec) uint_decoders ->
  forall (pre post : list byte) (n d : Z),
    0 <= n < 2 ^ (8 * Z.of_nat w) ->
    len pre + Z.of_nat w < 2 ^ 64 ->
    dec (pre ++ le_bytes w n ++ post) (VUint d) (len pre)
    = Ok (len pre + Z.of_nat w, VUint n).
Proof.
  intros Hin pre post n d Hn Hb. pose proof (len_nonneg pre).
  cbn [uint_decoders In] in Hin.
  destruct Hin as [E|[E|[E|[]]]]; injection E as <- <- <-;
    unfold decodeUint16, decodeUint32, decodeUint64;
    rewrite add64_small by lia;
    rewrite slice_app by (rewrite ?len_le_bytes; lia);
    cbn [bind]; unfold Uint16, Uint32, Uint64;
    rewrite read_le_bytes by exact Hn; reflexivity.
Qed.

Lemma decodeUint_short (t : type) (w : nat) (dec : decoder) :
  In (t, w, dec) uint_decoders ->
  forall (input : list byte) (val : value) (off : Z),
    0 <= off ->
    len input < off + Z.of_nat w < 2 ^ 64 ->
    dec input val off = Panic.
Proof.
  intros Hin input val off H0 Hb.
  cbn [uint_decoders In] in Hin.
  destruct Hin as [E|[E|[E|[]]]]; injection E as <- <- <-;
    unfold decodeUint16, decodeUint32, decodeUint64;
    rewrite add64_small by lia;
    rewrite slice_short by lia; reflexivity.
Qed.



Lemma len_uints_bytes (w : nat) (ns : list Z) :
  len (uints_bytes w ns) = Z.of_nat w * len ns.
Proof.
  unfold uints_bytes. induction ns as [|n ns IH]; [cbn; lia|].
  cbn [map List.concat]. rewrite len_app, len_le_bytes, IH, len_cons. lia.
Qed.

Lemma uints_bytes_app (w : nat) (a b : list Z) :
  uints_bytes w (a ++ b) = uints_bytes w a ++ uints_bytes w b.
Proof.
  unfold uints_bytes. now rewrite map_app, concat_app.
Qed.

Lemma uints_bytes_cons (w : nat) (n : Z) (ns : list Z) :
  uints_bytes w (n :: ns) = le_bytes w n ++ uints_bytes w ns.
Proof. reflexivity. Qed.

Section UintElements.

Variable t : type.
Variable w : nat.
Variable dec : decoder.
Hypothesis Hin : In (t, w, dec) uint_decoders.

Lemma uint_width_pos : (0 < w <= 8)%nat.
Proof.
  cbn [uint_decoders In] in Hin.
  destruct Hin as [E|[E|[E|[]]]]; injection E as _ <- _; lia.
Qed.

Lemma uint_zero : zero t = VUint 0.
Proof.
  cbn [uint_decoders In] in Hin.
  destruct Hin as [E|[E|[E|[]]]]; injection E as <- _ _; reflexivity.
Qed.

(** Elements [ds] are decoded, elements [rs] are still to come: the loop
    of [makeBasicSliceDecoder] and of [makeBasicArrayDecoder]. *)
Lemma basicSliceDecoder_rest_uints (pre post : list byte) :
  forall rs ds slots,
    all_below w rs ->
    List.length slots = List.length rs ->
    len pre + Z.of_nat w * (len ds + len rs) < 2 ^ 64 ->
    basicSliceDecoder_rest dec
      (pre ++ uints_bytes w (ds ++ rs) ++ post) (List.length rs) (len ds)
      (map VUint ds ++ map VUint slots)
      (len pre + Z.of_nat w * len ds)
    = Ok (len pre + Z.of_nat w * (len ds + len rs),
          map VUint (ds ++ rs)).
Proof.
  induction rs as [|r rs IH]; intros ds slots Hr Hl Hb.
  - destruct slots; [|discriminate].
    cbn [basicSliceDecoder_rest map List.length]. rewrite !app_nil_r.
    rewrite len_nil. do 2 f_equal. lia.
  - destruct slots as [|s slots]; [discriminate|].
    injection Hl as Hl. inversion Hr as [|? ? Hr1 Hr2]; subst.
    rewrite len_cons in Hb. pose proof (len_nonneg rs).
    pose proof (len_nonneg ds). pose proof (len_nonneg pre).
    cbn [basicSliceDecoder_rest List.length map].
    rewrite elem_at_app by now rewrite len_map. cbn [bind].
    rewrite uints_bytes_app, uints_bytes_cons.
    replace (pre ++ (uints_bytes w ds ++ le_bytes w r ++ uints_bytes w rs)
             ++ post)
      with ((pre ++ uints_bytes w ds) ++ le_bytes w r
            ++ (uints_bytes w rs ++ post))
      by (rewrite <- !app_assoc; reflexivity).
    replace (len pre + Z.of_nat w * len ds)
      with (len (pre ++ uints_bytes w ds))
      by (rewrite len_app, len_uints_bytes; reflexivity).
    rewrite (decodeUint_reads t w dec Hin)
      by (rewrite ?len_app, ?len_uints_bytes; first [assumption | nia]).
    cbn [Errorf bind].
    rewrite store_app by now rewrite len_map. cbn [bind].
    specialize (IH (ds ++ [r]) slots Hr2 Hl).
    rewrite len_app, len_cons, len_nil in IH.
    rewrite map_app in IH. cbn [map] in IH. rewrite <- !app_assoc in IH.
    cbn [app] in IH.
    rewrite uints_bytes_app, uints_bytes_cons in IH.
    replace (pre ++ (uints_bytes w ds ++ le_bytes w r ++ uints_bytes w rs)
             ++ post)
      with ((pre ++ uints_bytes w ds) ++ le_bytes w r
            ++ (uints_bytes w rs ++ post)) in IH
      by (rewrite <- !app_assoc; reflexivity).
    rewrite len_app, len_uints_bytes.
    replace (len pre + Z.of_nat w * len ds + Z.of_nat w)
      with (len pre + Z.of_nat w * (len ds + (1 + 0))) by lia.
    replace (len ds + 1) with (len ds + (1 + 0)) by lia.
    rewrite IH by lia.
    rewrite len_cons. do 2 f_equal. lia.
Qed.

Lemma makeBasicSliceDecoder_uints (n : Z) (ns : list Z) :
  all_below w (n :: ns) ->
  Z.of_nat w * len (n :: ns) < 2 ^ 64 ->
  makeBasicSliceDecoder (TSlice t) dec (uints_bytes w (n :: ns))
    (VList []) 0
  = Ok (Z.of_nat w * len (n :: ns), VList (map VUint (n :: ns))).
Proof.
  intros Ha Hb. pose proof uint_width_pos as Hw.
  inversion Ha as [|? ? Hn Hns]; subst.
  rewrite len_cons in *. pose proof (len_nonneg ns).
  unfold makeBasicSliceDecoder.
  rewrite grow_one, uint_zero. cbn [SliceItems bind].
  rewrite (elem_at_app [] [] (VUint 0)) by reflexivity. cbn [bind].
  rewrite uints_bytes_cons.
  pose proof (decodeUint_reads t w dec Hin [] (uints_bytes w ns) n 0 Hn)
    as D.
  cbn [app] in D. change (len (@nil byte)) with 0 in D.
  rewrite D by nia. cbn [Errorf bind].
  rewrite (store_app [] [] (VUint 0) (VUint n)) by reflexivity.
  cbn [bind app]. rewrite sub64_small by lia.
  replace (0 + Z.of_nat w - 0 =? 0) with false
    by (symmetry; apply Z.eqb_neq; lia).
  rewrite len_app, len_le_bytes, len_uints_bytes.
  replace ((Z.of_nat w + Z.of_nat w * len ns) / (0 + Z.of_nat w - 0))
    with (1 + len ns)
    by (apply Z.div_unique_exact; lia).
  rewrite (grow_append [VUint n] t _ (len ns))
    by (rewrite ?len_cons, ?len_nil; lia).
  rewrite uint_zero. cbn [SliceItems bind].
  replace (1 + len ns - 1) with (len ns) by lia.
  replace (Z.to_nat (len ns)) with (List.length ns)
    by (unfold len; now rewrite Nat2Z.id).
  pose proof (basicSliceDecoder_rest_uints [] [] ns [n]
                (repeat 0 (List.length ns)) Hns
                (repeat_length _ _)) as R.
  change (len (@nil byte)) with 0 in R. change (len [n]) with 1 in R.
  cbn [app map] in R. rewrite app_nil_r, map_repeat in R.
  rewrite uints_bytes_cons in R.
  replace (0 + Z.of_nat w * 1) with (0 + Z.of_nat w) in R by lia.
  change ([VUint n] ++ repeat (VUint 0) (List.length ns))
    with (VUint n :: repeat (VUint 0) (List.length ns)).
  rewrite R by lia. cbn [bind].
  do 2 f_equal; lia.
Qed.

Lemma basicArrayDecoder_loop_uints (pre post : list byte) :
  forall rs ds slots,
    all_below w rs ->
    List.length slots = List.length rs ->
    len pre + Z.of_nat w * (len ds + len rs) < 2 ^ 64 ->
    basicArrayDecoder_loop dec
      (pre ++ uints_bytes w (ds ++ rs) ++ post) (List.length rs) (len ds)
      (map VUint ds ++ map VUint slots)
      (len pre + Z.of_nat w * len ds)
    = Ok (len pre + Z.of_nat w * (len ds + len rs),
          map VUint (ds ++ rs)).
Proof.
  induction rs as [|r rs IH]; intros ds slots Hr Hl Hb.
  - destruct slots; [|discriminate].
    cbn [basicArrayDecoder_loop map List.length]. rewrite !app_nil_r.
    rewrite len_nil. do 2 f_equal. lia.
  - destruct slots as [|s slots]; [discriminate|].
    injection Hl as Hl. inversion Hr as [|? ? Hr1 Hr2]; subst.
    rewrite len_cons in Hb. pose proof (len_nonneg rs).
    pose proof (len_nonneg ds). pose proof (len_nonneg pre).
    cbn [basicArrayDecoder_loop List.length map].
    rewrite elem_at_app by now rewrite len_map. cbn [bind].
    rewrite uints_bytes_app, uints_bytes_cons.
    replace (pre ++ (uints_bytes w ds ++ le_bytes w r ++ uints_bytes w rs)
             ++ post)
      with ((pre ++ uints_bytes w ds) ++ le_bytes w r
            ++ (uints_bytes w rs ++ post))
      by (rewrite <- !app_assoc; reflexivity).
    replace (len pre + Z.of_nat w * len ds)
      with (len (pre ++ uints_bytes w ds))
      by (rewrite len_app, len_uints_bytes; reflexivity).
    rewrite (decodeUint_reads t w dec Hin)
      by (rewrite ?len_app, ?len_uints_bytes; first [assumption | nia]).
    cbn [Errorf bind].
    rewrite store_app by now rewrite len_map. cbn [bind].
    specialize (IH (ds ++ [r]) slots Hr2 Hl).
    rewrite len_app, len_cons, len_nil in IH.
    rewrite map_app in IH. cbn [map] in IH. rewrite <- !app_assoc in IH.
    cbn [app] in IH.
    rewrite uints_bytes_app, uints_bytes_cons in IH.
    replace (pre ++ (uints_bytes w ds ++ le_bytes w r ++ uints_bytes w rs)
             ++ post)
      with ((pre ++ uints_bytes w ds) ++ le_bytes w r
            ++ (uints_bytes w rs ++ post)) in IH
      by (rewrite <- !app_assoc; reflexivity).
    rewrite len_app, len_uints_bytes.
    replace (len pre + Z.of_nat w * len ds + Z.of_nat w)
      with (len pre + Z.of_nat w * (len ds + (1 + 0))) by lia.
    replace (len ds + 1) with (len ds + (1 + 0)) by lia.
    rewrite IH by lia.
    rewrite len_cons. do 2 f_equal. lia.
Qed.

End UintElements.



(** X10.  The decoder of [makeBasicArrayDecoder] over [decodeUint16],
    [decodeUint32] or [decodeUint64]: it decodes exactly as many elements as
    the destination array has slots, from the offset on, ignores what
    precedes and follows them, and returns the offset after the last
    element (the start offset itself for an array without slots). *)
Theorem makeBasicArrayDecoder_reads_uints (t : type) (w : nat)
  (dec : decoder) (pre post : list byte) (ns slots : list Z) :
  In (t, w, dec) uint_decoders ->
  List.length slots = List.length ns ->
  all_below w ns ->
  len pre + Z.of_nat w * len ns < 2 ^ 64 ->
  makeBasicArrayDecoder dec (pre ++ uints_bytes w ns ++ post)
    (VList (map VUint slots)) (len pre)
  = Ok (len pre + Z.of_nat w * len ns, VList (map VUint ns)).
Proof.
  intros Hin Hl Ha Hb. unfold makeBasicArrayDecoder.
  cbn [SliceItems bind]. rewrite length_map, Hl.
  pose proof (basicArrayDecoder_loop_uints t w dec Hin pre post ns []
                slots Ha Hl) as R.
  change (len (@nil Z)) with 0 in R. cbn [app map] in R.
  replace (len pre + Z.of_nat w * 0) with (len pre) in R by lia.
  rewrite R by lia. cbn [bind]. do 2 f_equal; lia.
Qed.

Lemma makeBasicArrayDecoder_reads_uints_witness :
  makeBasicArrayDecoder decodeUint16
    (bytes_of [9; 2; 1; 7; 0; 9]) (VList [VUint 0; VUint 0]) 1
  = Ok (5, VList [VUint 258; VUint 7]).
Proof.
  exact (makeBasicArrayDecoder_reads_uints TUint16 2 decodeUint16
           (bytes_of [9]) (bytes_of [9]) [258; 7] [0; 0]
           (or_introl eq_refl) eq_refl
           ltac:(repeat constructor; cbn; lia) ltac:(cbn; lia)).
Defined.

Lemma grow_slice_ok (items : list value) (e : type) (n : Z) :
  0 <= n ->
  exists items', growConcreteSliceType (VList items) (TSlice e) n
                 = Ok (VList items').
Proof.
  intros Hn. unfold growConcreteSliceType. cbn [SliceItems bind].
  replace (n <? 0) with false by (symmetry; apply Z.ltb_ge; lia).
  eexists. reflexivity.
Qed.

(** X11.  The decoders of [makeCompositeSliceDecoder] and
    [makeCompositeArrayDecoder] return the offset-out-of-bounds error, before
    any element is decoded, when the first offset of the input lies beyond
    its end. *)
Theorem composite_decoders_offset_out_of_bounds
  (e : type) (dec : decoder) (items : list value) (val : value)
  (o1 : Z) (rest : list byte) :
  len (PutUint32 o1 ++ rest) < o1 < 2 ^ 32 ->
  makeCompositeSliceDecoder (TSlice e) dec (PutUint32 o1 ++ rest)
    (VList items) 0
  = Err "offset out of bounds"
  /\ makeCompositeArrayDecoder dec (PutUint32 o1 ++ rest) val 0
     = Err "offset out of bounds".
Proof.
  intros H. pose proof (len_nonneg (PutUint32 o1 ++ rest)).
  assert (G : (o1 >? len (PutUint32 o1 ++ rest)) = true)
    by (apply Z.gtb_lt; lia).
  split.
  - unfold makeCompositeSliceDecoder.
    destruct (grow_slice_ok items e 1 ltac:(lia)) as [items' ->].
    cbn [bind]. change BytesPerLengthOffset with 4.
    rewrite add64_small by lia.
    rewrite (slice_prefix (PutUint32 o1)) by reflexivity. cbn [bind].
    rewrite Uint32_PutUint32 by lia. cbn [bind].
    rewrite add64_small by lia. cbn [Z.add compositeSliceDecoder_loop].
    replace (0 <? o1) with true by (symmetry; apply Z.ltb_lt; lia).
    now rewrite G.
  - unfold makeCompositeArrayDecoder.
    change BytesPerLengthOffset with 4.
    rewrite add64_small by lia.
    rewrite (slice_prefix (PutUint32 o1)) by reflexivity. cbn [bind].
    rewrite Uint32_PutUint32 by lia. cbn [bind].
    rewrite add64_small by lia. cbn [Z.add compositeArrayDecoder_loop].
    replace (0 <? o1) with true by (symmetry; apply Z.ltb_lt; lia).
    now rewrite G.
Qed.

Lemma composite_decoders_offset_out_of_bounds_witness :
  makeCompositeSliceDecoder byteLists makeByteSliceDecoder
    (bytes_of [9; 0; 0; 0; 1]) (VList []) 0
  = Err "offset out of bounds".
Proof.
  exact (proj1 (composite_decoders_offset_out_of_bounds (TSlice TUint8)
                  makeByteSliceDecoder [] (VList []) 9 (bytes_of [1])
                  ltac:(cbn; lia))).
Defined.

(** X12.  The decoders of [makeCompositeSliceDecoder] and
    [makeCompositeArrayDecoder] return the offsets-must-be-increasing error
    when the second offset of the input is below the first. *)
Theorem composite_decoders_offsets_must_increase
  (e : type) (dec : decoder) (items : list value) (val : value)
  (o1 o2 : Z) (rest : list byte) :
  0 < o1 <= len (PutUint32 o1 ++ PutUint32 o2 ++ rest) ->
  o1 <> 4 ->
  o1 < 2 ^ 32 ->
  0 <= o2 < o1 ->
  makeCompositeSliceDecoder (TSlice e) dec
    (PutUint32 o1 ++ PutUint32 o2 ++ rest) (VList items) 0
  = Err "offsets must be increasing"
  /\ makeCompositeArrayDecoder dec
       (PutUint32 o1 ++ PutUint32 o2 ++ rest) val 0
     = Err "offsets must be increasing".
Proof.
  intros H1 H4 Hb H2.
  set (input := PutUint32 o1 ++ PutUint32 o2 ++ rest) in *.
  assert (G : (o1 >? len input) = false)
    by (rewrite Z.gtb_ltb; apply Z.ltb_ge; lia).
  assert (N : next_offset input 0 o1 (len input) 4 = Ok o2).
  { unfold next_offset.
    replace (4 =? o1) with false by (symmetry; apply Z.eqb_neq; lia).
    change BytesPerLengthOffset with 4. rewrite add64_small by lia.
    unfold input.
    rewrite (slice_app (PutUint32 o1) (PutUint32 o2) rest)
      by reflexivity.
    cbn [bind]. rewrite Uint32_PutUint32 by lia. cbn [bind].
    now rewrite add64_small by lia. }
  assert (D : (o1 >? o2) = true) by (apply Z.gtb_lt; lia).
  assert (S0 : slice input 0 4 = Ok (PutUint32 o1))
    by (unfold input; now rewrite (slice_prefix (PutUint32 o1))).
  split.
  - unfold makeCompositeSliceDecoder.
    destruct (grow_slice_ok items e 1 ltac:(lia)) as [items' ->].
    cbn [bind]. change BytesPerLengthOffset with 4.
    rewrite add64_small by lia. cbn [Z.add].
    rewrite S0. cbn [bind].
    rewrite Uint32_PutUint32 by lia. cbn [bind].
    rewrite add64_small by lia. cbn [Z.add compositeSliceDecoder_loop].
    replace (0 <? o1) with true by (symmetry; apply Z.ltb_lt; lia).
    rewrite G. change BytesPerLengthOffset with 4.
    rewrite add64_small by lia. cbn [Z.add].
    rewrite N. cbn [bind]. now rewrite D.
  - unfold makeCompositeArrayDecoder.
    change BytesPerLengthOffset with 4.
    rewrite add64_small by lia. cbn [Z.add].
    rewrite S0. cbn [bind].
    rewrite Uint32_PutUint32 by lia. cbn [bind].
    rewrite add64_small by lia. cbn [Z.add compositeArrayDecoder_loop].
    replace (0 <? o1) with true by (symmetry; apply Z.ltb_lt; lia).
    rewrite G. change BytesPerLengthOffset with 4.
    rewrite add64_small by lia. cbn [Z.add].
    rewrite N. cbn [bind]. now rewrite D.
Qed.

Lemma composite_decoders_offsets_must_increase_witness :
  makeCompositeArrayDecoder makeByteSliceDecoder decreasing_offsets
    (VList [VList []; VList []]) 0
  = Err "offsets must be increasing".
Proof.
  exact (proj2 (composite_decoders_offsets_must_increase (TSlice TUint8)
                  makeByteSliceDecoder [] (VList [VList []; VList []])
                  8 4 [] ltac:(cbn; lia) ltac:(lia) ltac:(lia)
                  ltac:(lia))).
Defined.

Lemma codec_decoder_ok
  (U : SSZAble -> value -> type -> list byte -> Z -> result (Z * value))
  (e : type) (msg : string) (sub : list byte) (d : value)
  (r : Z * value) :
  Errorf msg (codec_decoder U e sub d 0) = Ok r ->
  exists f, SSZFactory d e = Ok f /\ U f d e sub 0 = Ok r.
Proof.
  unfold codec_decoder. intros H.
  destruct (SSZFactory d e) as [f| |]; cbn [bind Errorf] in H;
    try discriminate.
  exists f. split; [reflexivity|].
  destruct (U f d e sub 0); cbn [Errorf] in H; try discriminate.
  exact H.
Qed.

Lemma compositeSlice_loop_extends
  (U : SSZAble -> value -> type -> list byte -> Z -> result (Z * value))
  (e : type) (input : list byte) (s fo eo : Z) :
  forall fuel i val ci co r,
    compositeSliceDecoder_loop (TSlice e) (codec_decoder U e) input s fo eo
      fuel i val ci co = Ok r ->
    compositeSlice_loop U (TSlice e) e input s fo eo fuel i val ci co
    = Ok r.
Proof.
  induction fuel as [|fuel IH]; intros i val ci co r H.
  - cbn [compositeSliceDecoder_loop compositeSlice_loop] in *.
    destruct (ci <? fo); [discriminate | exact H].
  - cbn [compositeSliceDecoder_loop compositeSlice_loop] in *.
    destruct (ci <? fo); [|exact H].
    destruct (co >? eo); [discriminate|].
    bind_inv H. rename a into nextOffset.
    destruct (co >? nextOffset) eqn:C; [discriminate|].
    replace (nextOffset <? co) with false
      by (rewrite Z.gtb_ltb in C; now rewrite C).
    bind_inv H. bind_inv H. bind_inv H. bind_inv H. bind_inv H.
    destruct a3 as [j d']. bind_inv H. cbn [bind].
    destruct (codec_decoder_ok U e _ _ _ _ E4) as [f [F1 F2]].
    rewrite F1. cbn [bind]. rewrite F2. cbn [bind].
    rewrite E5. cbn [bind]. now apply IH.
Qed.



(* ------------------------------------------------------------------ *)
(** * [types/array_roots.go] *)

Lemma int64_small (z : Z) : - 2 ^ 63 <= z < 2 ^ 63 -> int64 z = z.
Proof.
  intros H. unfold int64. rewrite Z.mod_small by lia. lia.
Qed.

Lemma land_pred_pow2 (k : Z) : 0 <= k -> Z.land (2 ^ k) (2 ^ k - 1) = 0.
Proof.
  intros Hk. replace (2 ^ k - 1) with (Z.ones k)
    by (rewrite Z.ones_equiv; lia).
  rewrite Z.land_ones by assumption. apply Z.mod_same.
  pose proof (Z.pow_pos_nonneg 2 k). lia.
Qed.

Lemma land_pred_zero (n : Z) :
  0 < n -> Z.land n (n - 1) = 0 -> exists k, 0 <= k /\ n = 2 ^ k.
Proof.
  intros Hn Hl. exists (Z.log2 n).
  pose proof (Z.log2_nonneg n) as Hk.
  pose proof (Z.log2_spec n Hn) as [Hlo Hhi].
  split; [assumption|].
  destruct (Z.eq_dec n (2 ^ Z.log2 n)) as [|Hne]; [assumption|].
  exfalso.
  assert (Hp : Z.log2 (n - 1) = Z.log2 n).
  { apply Z.log2_unique; [assumption|].
    replace (Z.succ (Z.log2 n)) with (Z.log2 n + 1) in * by lia. lia. }
  assert (B1 : Z.testbit n (Z.log2 n) = true) by now apply Z.bit_log2.
  assert (B2 : Z.testbit (n - 1) (Z.log2 n) = true).
  { rewrite <- Hp. apply Z.bit_log2. lia. }
  assert (B : Z.testbit (Z.land n (n - 1)) (Z.log2 n) = true)
    by now rewrite Z.land_spec, B1, B2.
  rewrite Hl, Z.bits_0 in B. discriminate.
Qed.

(** X14.  [isPowerOf2] on a 64-bit [int]: it is true exactly for the
    powers of two 2^0 .. 2^62 and for the least [int], -2^63, whose
    predecessor wraps around to 2^63 - 1; it is false for 0 and for every
    other negative number. *)
Theorem isPowerOf2_spec (n : Z) :
  - 2 ^ 63 <= n < 2 ^ 63 ->
  (isPowerOf2 n = true
   <-> (exists k, 0 <= k < 63 /\ n = 2 ^ k) \/ n = - 2 ^ 63).
Proof.
  intros Hr. unfold isPowerOf2.
  destruct (Z.eq_dec n (- 2 ^ 63)) as [->|Hmin].
  { split; [now right | reflexivity]. }
  rewrite int64_small by lia.
  rewrite andb_true_iff, negb_true_iff, Z.eqb_neq, Z.eqb_eq.
  split.
  - intros [H0 Hl]. left.
    destruct (Z_lt_le_dec 0 n) as [Hpos|Hneg].
    + destruct (land_pred_zero n Hpos Hl) as [k [Hk ->]].
      exists k. split; [|reflexivity]. split; [assumption|].
      apply (Z.pow_lt_mono_r_iff 2); lia.
    + exfalso.
      assert (N : Z.land n (n - 1) < 0) by (apply Z.land_neg; lia).
      lia.
  - intros [[k [Hk ->]]|E]; [|contradiction].
    pose proof (Z.pow_pos_nonneg 2 k). split; [lia|].
    apply land_pred_pow2. lia.
Qed.

Lemma isPowerOf2_spec_witness : isPowerOf2 64 = true.
Proof.
  apply (proj2 (isPowerOf2_spec 64 ltac:(lia))).
  left. exists 6. split; [lia | reflexivity].
Defined.

Section MerkleizeProofs.

Variable hash : list byte -> list byte.
Variable BytesPerChunk : Z.
Variable enableCache : bool.

Lemma isPowerOf2_pow2 (k : nat) :
  (k < 63)%nat -> isPowerOf2 (Z.of_nat (2 ^ k)) = true.
Proof.
  intros Hk. rewrite Nat2Z.inj_pow. change (Z.of_nat 2) with 2.
  assert (B : 2 ^ Z.of_nat k < 2 ^ 63)
    by (apply Z.pow_lt_mono_r; lia).
  pose proof (Z.pow_pos_nonneg 2 (Z.of_nat k)).
  apply isPowerOf2_spec; [lia|].
  left. exists (Z.of_nat k). split; [lia | reflexivity].
Qed.

Lemma isPowerOf2_between (k : nat) (n : nat) :
  (k < 63)%nat ->
  (k = 0 \/ 2 ^ (k - 1) < n)%nat -> (n < 2 ^ k)%nat ->
  isPowerOf2 (Z.of_nat n) = false.
Proof.
  intros Hk Hmin Hlt.
  destruct (isPowerOf2 (Z.of_nat n)) eqn:E; [|reflexivity]. exfalso.
  assert (B : Z.of_nat (2 ^ k) < 2 ^ 63).
  { rewrite Nat2Z.inj_pow. apply Z.pow_lt_mono_r; lia. }
  apply isPowerOf2_spec in E; [|lia].
  destruct E as [[j [Hj E]]|E]; [|lia].
  destruct Hmin as [->|Hmin].
  - cbn in Hlt. assert (n = 0%nat) by lia. subst n.
    pose proof (Z.pow_pos_nonneg 2 j). cbn in E. lia.
  - destruct k as [|k']; [cbn in *; lia|].
    replace (S k' - 1)%nat with k' in Hmin by lia.
    assert (E' : n = (2 ^ Z.to_nat j)%nat).
    { apply Nat2Z.inj. rewrite E, Nat2Z.inj_pow, Z2Nat.id by lia.
      reflexivity. }
    subst n.
    apply Nat.pow_lt_mono_r_iff in Hmin; [|lia].
    apply Nat.pow_lt_mono_r_iff in Hlt; [|lia]. lia.
Qed.

Lemma pad_chunks_spec (k : nat) :
  (k < 63)%nat ->
  forall m fuel chunks,
    (m <= fuel)%nat ->
    (List.length chunks + m = 2 ^ k)%nat ->
    (k = 0 \/ 2 ^ (k - 1) < List.length chunks)%nat ->
    pad_chunks BytesPerChunk fuel chunks
    = Ok (chunks ++ repeat (make_bytes BytesPerChunk) m).
Proof.
  intros Hk. induction m as [|m IH]; intros fuel chunks Hf Hl Hmin.
  - cbn [repeat]. rewrite app_nil_r.
    destruct fuel; cbn [pad_chunks]; unfold len;
      replace (List.length chunks) with (2 ^ k)%nat by lia;
      now rewrite isPowerOf2_pow2.
  - destruct fuel as [|fuel]; [lia|]. cbn [pad_chunks]. unfold len.
    rewrite (isPowerOf2_between k) by (first [assumption | lia]).
    rewrite IH.
    + rewrite <- app_assoc. reflexivity.
    + lia.
    + rewrite length_app. cbn [List.length]. lia.
    + rewrite length_app. cbn [List.length].
      destruct Hmin as [->|Hmin]; [now left | right; lia].
Qed.

Lemma hash_pairs_app (a : list (list byte)) :
  forall l1 l2 b,
    hash_pairs hash l1 = Ok a -> hash_pairs hash l2 = Ok b ->
    hash_pairs hash (l1 ++ l2) = Ok (a ++ b).
Proof.
  induction a as [|x a IH]; intros l1 l2 b H1 H2.
  - destruct l1 as [|p [|q rest]]; cbn [hash_pairs] in H1.
    + exact H2.
    + discriminate.
    + destruct (hash_pairs hash rest); discriminate.
  - destruct l1 as [|p [|q rest]]; cbn [hash_pairs] in H1;
      try discriminate.
    destruct (hash_pairs hash rest) as [a'| |] eqn:E; cbn [bind] in H1;
      try discriminate.
    injection H1 as <- <-.
    cbn [app hash_pairs]. rewrite (IH rest l2 b E H2). reflexivity.
Qed.

Lemma hash_pairs_tree (k : nat) :
  forall l,
    List.length l = (2 ^ S k)%nat ->
    exists layer,
      hash_pairs hash l = Ok layer
      /\ List.length layer = (2 ^ k)%nat
      /\ tree_root hash k layer = tree_root hash (S k) l.
Proof.
  induction k as [|k IH]; intros l Hl.
  - destruct l as [|a [|b [|c rest]]]; try discriminate.
    exists [hash (a ++ b)]. repeat split.
  - set (half := (2 ^ S k)%nat).
    assert (Hh : (2 ^ S (S k) = half + half)%nat)
      by (unfold half; cbn [Nat.pow]; lia).
    destruct (IH (firstn half l)) as [a [Ha [La Ta]]].
    { rewrite length_firstn. lia. }
    destruct (IH (skipn half l)) as [b [Hb [Lb Tb]]].
    { rewrite length_skipn. lia. }
    exists (a ++ b). split; [|split].
    + rewrite <- (firstn_skipn half l) at 1.
      now apply hash_pairs_app.
    + rewrite length_app. cbn [Nat.pow] in *. lia.
    + change (tree_root hash (S (S k)) l)
        with (hash (tree_root hash (S k) (firstn half l)
                    ++ tree_root hash (S k) (skipn half l))).
      rewrite <- Ta, <- Tb.
      change (tree_root hash (S k) (a ++ b))
        with (hash (tree_root hash k (firstn (2 ^ k) (a ++ b))
                    ++ tree_root hash k (skipn (2 ^ k) (a ++ b)))).
      rewrite firstn_app, skipn_app, La, Nat.sub_diag.
      cbn [firstn skipn]. rewrite app_nil_r.
      rewrite firstn_all2 by lia.
      rewrite skipn_all2 by lia. reflexivity.
Qed.

Lemma merkleize_layers_spec (fieldName : string) (layers : layers_map) :
  enableCache && negb (String.eqb fieldName "") = false ->
  forall k fuel i hashLayer,
    (k <= fuel)%nat ->
    List.length hashLayer = (2 ^ k)%nat ->
    merkleize_layers hash enableCache fuel fieldName i hashLayer layers
    = Ok ([tree_root hash k hashLayer], layers).
Proof.
  intros Hc. induction k as [|k IH]; intros fuel i hashLayer Hf Hl.
  - destruct hashLayer as [|c [|d rest]]; try discriminate.
    destruct fuel; reflexivity.
  - destruct fuel as [|fuel]; [lia|]. cbn [merkleize_layers].
    assert (G : (len hashLayer >? 1) = true).
    { apply Z.gtb_lt. unfold len. rewrite Hl.
      pose proof (Nat.pow_nonzero 2 k). cbn [Nat.pow]. lia. }
    rewrite G.
    destruct (hash_pairs_tree k hashLayer Hl) as [layer [Hp [Ll Tl]]].
    rewrite Hp. cbn [bind]. rewrite Hc. cbn [bind].
    rewrite (IH fuel (i + 1) layer) by (first [lia | assumption]).
    now rewrite Tl.
Qed.


Lemma merkleize_tree_root (chunks : list (list byte)) (fieldName : string)
  (layers : layers_map) (k : nat) :
  enableCache && negb (String.eqb fieldName "") = false ->
  (k < 63)%nat ->
  (List.length chunks <= 2 ^ k)%nat ->
  (k = 0 \/ 2 ^ (k - 1) < List.length chunks)%nat ->
  merkleize hash BytesPerChunk enableCache chunks fieldName layers
  = Ok (toBytes32
          (tree_root hash k
             (chunks ++ repeat (make_bytes BytesPerChunk)
                          (2 ^ k - List.length chunks))),
        layers).
Proof.
  intros Hc Hk Hle Hmin. unfold merkleize.
  destruct (len chunks =? 1) eqn:E1.
  - apply Z.eqb_eq in E1. unfold len in E1.
    destruct chunks as [|c [|d rest]]; try (cbn in E1; lia).
    assert (k = 0%nat).
    { destruct Hmin as [|Hmin]; [assumption|].
      destruct k as [|k']; [reflexivity|]. exfalso.
      replace (S k' - 1)%nat with k' in Hmin by lia.
      pose proof (Nat.pow_nonzero 2 k'). cbn [List.length] in Hmin. lia. }
    subst k. reflexivity.
  - set (m := (2 ^ k - List.length chunks)%nat).
    assert (Hm : (m <= S (List.length chunks))%nat).
    { unfold m.
      destruct Hmin as [->|Hmin]; [change (2 ^ 0)%nat with 1%nat; lia|].
      destruct k as [|k']; [cbn in *; lia|].
      replace (S k' - 1)%nat with k' in Hmin by lia.
      cbn [Nat.pow]. lia. }
    rewrite (pad_chunks_spec k Hk m)
      by (first [assumption | unfold m; lia]).
    cbn [bind]. rewrite Hc. cbn [bind].
    set (padded := chunks ++ repeat (make_bytes BytesPerChunk) m).
    assert (Lp : List.length padded = (2 ^ k)%nat).
    { unfold padded. rewrite length_app, repeat_length. unfold m. lia. }
    rewrite (merkleize_layers_spec fieldName layers Hc k)
      by (first [assumption | rewrite Lp; apply Nat.lt_le_incl,
                                Nat.pow_gt_lin_r; lia]).
    cbn [bind]. reflexivity.
Qed.


Lemma merkleize_layers_top (fieldName : string) :
  forall k fuel i hashLayer layers top layers',
    List.length hashLayer = (2 ^ k)%nat ->
    merkleize_layers hash enableCache fuel fieldName i hashLayer layers
    = Ok (top, layers') ->
    top = [tree_root hash k hashLayer].
Proof.
  induction k as [|k IH]; intros fuel i hashLayer layers top layers' Hl H.
  - destruct hashLayer as [|c [|d rest]]; try discriminate.
    destruct fuel; cbn in H; now injection H as <- _.
  - assert (G : (len hashLayer >? 1) = true).
    { apply Z.gtb_lt. unfold len. rewrite Hl.
      pose proof (Nat.pow_nonzero 2 k). cbn [Nat.pow]. lia. }
    destruct fuel as [|fuel]; cbn [merkleize_layers] in H; rewrite G in H;
      [discriminate|].
    destruct (hash_pairs_tree k hashLayer Hl) as [layer [Hp [Ll Tl]]].
    rewrite Hp in H. cbn [bind] in H.
    destruct (if enableCache && negb (String.eqb fieldName "")
              then set_layer layers fieldName i layer
              else Ok layers) as [l1| |]; cbn [bind] in H;
      try discriminate.
    rewrite <- Tl. eapply IH; eassumption.
Qed.

Lemma merkleize_root (chunks : list (list byte)) (fieldName : string)
  (layers layers' : layers_map) (k : nat) (root : list byte) :
  (k < 63)%nat ->
  (List.length chunks <= 2 ^ k)%nat ->
  (k = 0 \/ 2 ^ (k - 1) < List.length chunks)%nat ->
  merkleize hash BytesPerChunk enableCache chunks fieldName layers
  = Ok (root, layers') ->
  root = toBytes32
           (tree_root hash k
              (chunks ++ repeat (make_bytes BytesPerChunk)
                           (2 ^ k - List.length chunks))).
Proof.
  intros Hk Hle Hmin H. unfold merkleize in H.
  destruct (len chunks =? 1) eqn:E1.
  - apply Z.eqb_eq in E1. unfold len in E1.
    destruct chunks as [|c [|d rest]]; try (cbn in E1; lia).
    assert (k = 0%nat).
    { destruct Hmin as [|Hmin]; [assumption|].
      destruct k as [|k']; [reflexivity|]. exfalso.
      replace (S k' - 1)%nat with k' in Hmin by lia.
      pose proof (Nat.pow_nonzero 2 k'). cbn [List.length] in Hmin. lia. }
    subst k. cbn in H. now injection H as <- _.
  - set (m := (2 ^ k - List.length chunks)%nat) in *.
    assert (Hm : (m <= S (List.length chunks))%nat).
    { unfold m.
      destruct Hmin as [->|Hmin]; [change (2 ^ 0)%nat with 1%nat; lia|].
      destruct k as [|k']; [cbn in *; lia|].
      replace (S k' - 1)%nat with k' in Hmin by lia.
      cbn [Nat.pow]. lia. }
    rewrite (pad_chunks_spec k Hk m) in H
      by (first [assumption | unfold m; lia]).
    cbn [bind] in H.
    set (padded := chunks ++ repeat (make_bytes BytesPerChunk) m) in *.
    assert (Lp : List.length padded = (2 ^ k)%nat).
    { unfold padded. rewrite length_app, repeat_length. unfold m. lia. }
    destruct (if enableCache && negb (String.eqb fieldName "")
              then set_layer layers fieldName 0 padded
              else Ok layers) as [l0| |]; cbn [bind] in H;
      try discriminate.
    destruct (merkleize_layers hash enableCache (List.length padded)
                fieldName 1 padded l0) as [[top l1]| |] eqn:EL;
      cbn [bind] in H; try discriminate.
    apply (merkleize_layers_top fieldName k) in EL; [|assumption].
    subst top. cbn in H. now injection H as <- _.
Qed.

End MerkleizeProofs.

(** X15.  [merkleize], for any hash function: the chunks are padded
    with zero chunks up to the next power of two [2^k] and the result is the
    root of the full binary tree over them, each node the hash of its two
    children, copied into 32 bytes.  With the cache off the call returns
    this root and leaves the layers as they are; with the cache on, every
    call that returns gives the same root. *)
Theorem merkleize_is_tree_root
  (hash : list byte -> list byte) (BytesPerChunk : Z) (enableCache : bool)
  (chunks : list (list byte)) (fieldName : string) (layers : layers_map)
  (k : nat) :
  (k < 63)%nat ->
  (List.length chunks <= 2 ^ k)%nat ->
  (k = 0 \/ 2 ^ (k - 1) < List.length chunks)%nat ->
  let padded :=
    chunks ++ repeat (make_bytes BytesPerChunk)
                (2 ^ k - List.length chunks) in
  (enableCache && negb (String.eqb fieldName "") = false ->
   merkleize hash BytesPerChunk enableCache chunks fieldName layers
   = Ok (toBytes32 (tree_root hash k padded), layers))
  /\ (forall root layers',
        merkleize hash BytesPerChunk enableCache chunks fieldName layers
        = Ok (root, layers') ->
        root = toBytes32 (tree_root hash k padded)).
Proof.
  intros Hk Hle Hmin padded. split.
  - intros Hc. now apply merkleize_tree_root.
  - intros root layers' H. now apply (merkleize_root _ _ _ _ _ _ _ _ _ Hk Hle Hmin H).
Qed.

Lemma merkleize_is_tree_root_witness :
  merkleize (fun b => rev b) 32 false
    [bytes_of [1]; bytes_of [2]; bytes_of [3]] "" (fun _ => [])
  = Ok (toBytes32
          (tree_root (fun b => rev b) 2
             [bytes_of [1]; bytes_of [2]; bytes_of [3]; make_bytes 32]),
        fun _ => []).
Proof.
  apply (proj1 (merkleize_is_tree_root (fun b => rev b) 32 false
                  [bytes_of [1]; bytes_of [2]; bytes_of [3]] ""
                  (fun _ => []) 2 ltac:(lia) ltac:(cbn; lia)
                  ltac:(right; cbn; lia))).
  reflexivity.
Defined.

Lemma uint8s_of_bytes (bs : list byte) :
  uint8s (map (fun b => VUint (Z_of_byte b)) bs) = Ok bs.
Proof.
  induction bs as [|b bs IH]; [reflexivity|].
  cbn [map uint8s]. rewrite IH. cbn [bind].
  now rewrite byte_of_Z_of_byte.
Qed.

Lemma length_toBytes32 (x : list byte) : List.length (toBytes32 x) = 32%nat.
Proof.
  unfold toBytes32. rewrite length_app, length_firstn, repeat_length. lia.
Qed.

Lemma len_toBytes32 (x : list byte) : len (toBytes32 x) = 32.
Proof. unfold len. now rewrite length_toBytes32. Qed.

Lemma toBytes32_id (x : list byte) :
  List.length x = 32%nat -> toBytes32 x = x.
Proof.
  intros H. unfold toBytes32. rewrite H, Nat.sub_diag. cbn [repeat].
  rewrite app_nil_r. apply firstn_all2. lia.
Qed.

Lemma len_roots_bytes (roots : list (list byte)) :
  len (roots_bytes roots) = 32 * len roots.
Proof.
  unfold roots_bytes. induction roots as [|r roots IH]; [reflexivity|].
  cbn [map List.concat]. rewrite len_app, len_toBytes32, IH, len_cons. lia.
Qed.

Lemma rootsArray_marshal_loop_spec :
  forall roots pre mid post,
    len mid = 32 * len roots ->
    len pre + len mid < 2 ^ 64 ->
    rootsArray_marshal_loop (TSlice TUint8) (map value_of_bytes roots)
      (pre ++ mid ++ post) (len pre)
    = Ok (len pre + 32 * len roots, pre ++ roots_bytes roots ++ post).
Proof.
  induction roots as [|r roots IH]; intros pre mid post Hl Hb.
  - change (len (@nil (list byte))) with 0 in *.
    assert (mid = []) by (apply len_zero_nil; lia).
    subst mid. cbn [map rootsArray_marshal_loop].
    do 2 f_equal. lia.
  - rewrite len_cons in *. pose proof (len_nonneg roots).
    pose proof (len_nonneg pre).
    destruct (split_len mid 32 (32 * len roots)) as [m1 [m2 [-> [L1 L2]]]];
      [lia | lia | lia |].
    cbn [map rootsArray_marshal_loop root_item value_of_bytes value_bytes].
    rewrite uint8s_of_bytes. cbn [bind].
    rewrite <- app_assoc.
    rewrite (copy_at_app pre m1 (m2 ++ post) (toBytes32 r))
      by (rewrite ?len_toBytes32; lia).
    cbn [bind]. rewrite add64_small by lia.
    replace (pre ++ toBytes32 r ++ m2 ++ post)
      with ((pre ++ toBytes32 r) ++ m2 ++ post)
      by (now rewrite <- app_assoc).
    replace (len pre + 32) with (len (pre ++ toBytes32 r))
      by (rewrite len_app, len_toBytes32; reflexivity).
    rewrite IH by (rewrite ?len_app, ?len_toBytes32; lia).
    rewrite len_app, len_toBytes32.
    unfold roots_bytes. cbn [map List.concat].
    rewrite <- !app_assoc. do 2 f_equal. lia.
Qed.

Lemma roots_bytes_app (a b : list (list byte)) :
  roots_bytes (a ++ b) = roots_bytes a ++ roots_bytes b.
Proof.
  unfold roots_bytes. now rewrite map_app, concat_app.
Qed.

Lemma rootsArray_unmarshal_loop_spec (pre post : list byte) :
  forall rs ds slots,
    List.length slots = List.length rs ->
    len pre + 32 * (len ds + len rs) < 2 ^ 64 ->
    rootsArray_unmarshal_loop roots_type
      (pre ++ roots_bytes (ds ++ rs) ++ post) (List.length rs) (len ds)
      (map (fun r => value_of_bytes (toBytes32 r)) ds ++ map VList slots)
      (len pre + 32 * len ds)
    = Ok (len pre + 32 * (len ds + len rs),
          map (fun r => value_of_bytes (toBytes32 r)) (ds ++ rs)).
Proof.
  induction rs as [|r rs IH]; intros ds slots Hl Hb.
  - destruct slots; [|discriminate].
    cbn [rootsArray_unmarshal_loop map List.length]. rewrite !app_nil_r.
    change (len (@nil (list byte))) with 0. do 2 f_equal. lia.
  - destruct slots as [|s slots]; [discriminate|].
    injection Hl as Hl. rewrite len_cons in Hb.
    pose proof (len_nonneg rs). pose proof (len_nonneg ds).
    pose proof (len_nonneg pre).
    cbn [rootsArray_unmarshal_loop List.length map].
    rewrite elem_at_app by now rewrite len_map. cbn [bind].
    rewrite add64_small by lia.
    assert (S1 : slice (pre ++ roots_bytes (ds ++ r :: rs) ++ post)
                   (len pre + 32 * len ds) (len pre + 32 * len ds + 32)
                 = Ok (toBytes32 r)).
    { rewrite roots_bytes_app.
      change (roots_bytes (r :: rs)) with (toBytes32 r ++ roots_bytes rs).
      replace (pre ++ (roots_bytes ds ++ toBytes32 r ++ roots_bytes rs)
               ++ post)
        with ((pre ++ roots_bytes ds) ++ toBytes32 r
              ++ (roots_bytes rs ++ post))
        by (rewrite <- !app_assoc; reflexivity).
      apply slice_app; rewrite len_app, len_roots_bytes, ?len_toBytes32;
        lia. }
    rewrite S1. cbn [bind roots_type Elem SetBytes].
    rewrite store_app by now rewrite len_map. cbn [bind].
    specialize (IH (ds ++ [r]) slots Hl).
    rewrite len_app, len_cons in IH.
    change (len (@nil (list byte))) with 0 in IH.
    rewrite map_app in IH. cbn [map] in IH. rewrite <- !app_assoc in IH.
    cbn [app] in IH.
    replace (len ds + 1) with (len ds + (1 + 0)) by lia.
    replace (len pre + 32 * len ds + 32)
      with (len pre + 32 * (len ds + (1 + 0))) by lia.
    fold (value_of_bytes (toBytes32 r)).
    rewrite IH by lia.
    rewrite len_cons. do 2 f_equal. lia.
Qed.

(** X16.  [rootsArraySSZ] on a [[][]byte]: [Marshal] writes every root
    through [toBytes32], 32 bytes each, in place of [mid] and returns the
    offset after them; [Unmarshal] of what was written, into a destination
    with as many slots, gives the roots cut or zero-padded to 32 bytes: the
    roots themselves when each has 32 bytes. *)
Theorem rootsArraySSZ_round_trip
  (roots : list (list byte)) (slots : list (list value))
  (pre mid post : list byte) :
  List.length slots = List.length roots ->
  len mid = 32 * len roots ->
  len pre + len mid < 2 ^ 64 ->
  rootsArraySSZ_Marshal (VList (map value_of_bytes roots)) roots_type
    (pre ++ mid ++ post) (len pre)
  = Ok (len pre + 32 * len roots, pre ++ roots_bytes roots ++ post)
  /\ rootsArraySSZ_Unmarshal (VList (map VList slots)) roots_type
       (pre ++ roots_bytes roots ++ post) (len pre)
     = Ok (len pre + 32 * len roots,
           VList (map (fun r => value_of_bytes (toBytes32 r)) roots))
  /\ (Forall (fun r => List.length r = 32%nat) roots ->
      map (fun r => value_of_bytes (toBytes32 r)) roots
      = map value_of_bytes roots).
Proof.
  intros Hl Hm Hb. split; [|split].
  - unfold rootsArraySSZ_Marshal. cbn [Items bind]. rewrite len_map.
    destruct roots as [|r roots].
    + change (len (@nil (list byte))) with 0 in *.
      assert (mid = []) by (apply len_zero_nil; lia). subst mid.
      cbn. do 2 f_equal. lia.
    + replace (len (r :: roots) =? 0) with false
        by (symmetry; apply Z.eqb_neq; rewrite len_cons;
            pose proof (len_nonneg roots); lia).
      cbn [roots_type Elem bind].
      now apply rootsArray_marshal_loop_spec.
  - unfold rootsArraySSZ_Unmarshal. cbn [SliceItems bind].
    rewrite length_map, Hl.
    pose proof (rootsArray_unmarshal_loop_spec pre post roots [] slots Hl)
      as R.
    change (len (@nil (list byte))) with 0 in R. cbn [app map] in R.
    replace (len pre + 32 * 0) with (len pre) in R by lia.
    rewrite R by lia. cbn [bind]. do 2 f_equal; lia.
  - intros Hall. apply map_ext_in. intros r Hin.
    rewrite Forall_forall in Hall. now rewrite toBytes32_id by auto.
Qed.

Lemma rootsArraySSZ_round_trip_witness :
  rootsArraySSZ_Unmarshal (VList [VList []; VList []]) roots_type
    (roots_bytes [repeat x01 32; repeat x02 32]) 0
  = Ok (64, VList (map value_of_bytes [repeat x01 32; repeat x02 32])).
Proof.
  destruct (rootsArraySSZ_round_trip [repeat x01 32; repeat x02 32]
              [[]; []] [] (make_bytes 64) [] eq_refl eq_refl eq_refl)
    as [_ [H2 H3]].
  cbn [app] in H2. rewrite app_nil_r in H2.
  rewrite <- H3 by (repeat constructor). exact H2.
Defined.



(* ------------------------------------------------------------------ *)
(** * The struct tags *)

Lemma digit_of_char (d : Z) : 0 <= d <= 9 -> digit_of (digit_char d) = Some d.
Proof.
  intros H.
  assert (C : d = 0 \/ d = 1 \/ d = 2 \/ d = 3 \/ d = 4 \/ d = 5 \/ d = 6
              \/ d = 7 \/ d = 8 \/ d = 9) by lia.
  repeat (destruct C as [->|C]; [reflexivity|]). subst d. reflexivity.
Qed.

Lemma fold_digits_ge (ds : list Z) :
  Forall (fun d => 0 <= d <= 9) ds ->
  forall acc, 0 <= acc ->
    acc <= fold_left (fun acc d => acc * 10 + d) ds acc.
Proof.
  induction 1 as [|d ds Hd _ IH]; intros acc Ha; [cbn; lia|].
  cbn [fold_left]. specialize (IH (acc * 10 + d)). lia.
Qed.

Lemma parse_digits_spec (ds : list Z) :
  Forall (fun d => 0 <= d <= 9) ds ->
  forall acc, 0 <= acc < 2 ^ 64 ->
    parse_digits (string_of_digits ds) acc
    = (let v := fold_left (fun acc d => acc * 10 + d) ds acc in
       if v <? 2 ^ 64 then Some v else None).
Proof.
  induction 1 as [|d ds Hd Hds IH]; intros acc Ha; cbv zeta.
  - cbn [string_of_digits parse_digits fold_left].
    replace (acc <? 2 ^ 64) with true by (symmetry; apply Z.ltb_lt; lia).
    reflexivity.
  - cbn [string_of_digits parse_digits fold_left].
    rewrite digit_of_char by assumption.
    destruct (acc * 10 + d <? 2 ^ 64) eqn:E.
    + apply Z.ltb_lt in E. apply IH. lia.
    + apply Z.ltb_ge in E.
      pose proof (fold_digits_ge ds Hds (acc * 10 + d) ltac:(lia)).
      replace (fold_left (fun acc0 d0 => acc0 * 10 + d0) ds (acc * 10 + d)
               <? 2 ^ 64) with false
        by (symmetry; apply Z.ltb_ge; lia).
      reflexivity.
Qed.

Lemma ParseUint_digits (ds : list Z) :
  is_digits ds ->
  ParseUint (string_of_digits ds)
  = if digits_value ds <? 2 ^ 64 then Some (digits_value ds) else None.
Proof.
  intros [Hne Hd]. unfold ParseUint.
  destruct ds as [|d ds]; [congruence|].
  change (string_of_digits (d :: ds))
    with (String (digit_char d) (string_of_digits ds)).
  change (String (digit_char d) (string_of_digits ds))
    with (string_of_digits (d :: ds)).
  cbv beta iota.
  apply (parse_digits_spec (d :: ds) Hd 0). lia.
Qed.

Lemma parse_digits_non_digit (s : string) :
  has_non_digit s = true -> forall acc, parse_digits s acc = None.
Proof.
  induction s as [|c s IH]; intros H acc; [discriminate|].
  cbn [has_non_digit parse_digits] in *.
  destruct (digit_of c) as [d|]; [|reflexivity].
  destruct (acc * 10 + d <? 2 ^ 64); [now apply IH | reflexivity].
Qed.

Lemma ParseUint_non_digit (s : string) :
  has_non_digit s = true -> ParseUint s = None.
Proof.
  intros H. unfold ParseUint. destruct s; [reflexivity|].
  now apply parse_digits_non_digit.
Qed.

(** X18.  [determineFieldCapacity] on every tag: a non-empty string of
    decimal digits gives the number it writes when that is below 2^64 and 0
    otherwise; a tag with any other character, the empty tag and a missing
    tag give 0. *)
Theorem determineFieldCapacity_decimal (f : StructField) :
  (forall ds,
      Tag_ssz_max f = Some (string_of_digits ds) -> is_digits ds ->
      determineFieldCapacity f
      = if digits_value ds <? 2 ^ 64 then digits_value ds else 0)
  /\ (forall tag,
        Tag_ssz_max f = Some tag -> has_non_digit tag = true ->
        determineFieldCapacity f = 0)
  /\ (Tag_ssz_max f = Some EmptyString \/ Tag_ssz_max f = None ->
      determineFieldCapacity f = 0).
Proof.
  unfold determineFieldCapacity. split; [|split].
  - intros ds -> Hd. rewrite (ParseUint_digits ds Hd).
    destruct (digits_value ds <? 2 ^ 64); reflexivity.
  - intros tag -> Hn. now rewrite (ParseUint_non_digit tag Hn).
  - intros [-> | ->]; reflexivity.
Qed.

Lemma determineFieldCapacity_decimal_witness :
  determineFieldCapacity (mkField "L" byteLists (Some "16"%string)) = 16.
Proof.
  rewrite (proj1 (determineFieldCapacity_decimal
                    (mkField "L" byteLists (Some "16"%string))) [1; 6]).
  - reflexivity.
  - reflexivity.
  - split; [discriminate | repeat constructor; lia].
Defined.

Lemma Split_comma_nonempty (s : string) : Split_comma s <> [].
Proof.
  induction s as [|c s IH]; [discriminate|].
  cbn [Split_comma]. destruct (Ascii.eqb c ","); [discriminate|].
  destruct (Split_comma s); [congruence | discriminate].
Qed.

Lemma no_comma_tail (c : ascii) (s : string) :
  no_comma (String c s) -> c <> ","%char /\ no_comma s.
Proof.
  intros H. split.
  - intros ->. now apply (H O).
  - intros i. apply (H (S i)).
Qed.

Lemma Split_comma_single (s : string) :
  no_comma s -> Split_comma s = [s].
Proof.
  induction s as [|c s IH]; intros H; [reflexivity|].
  apply no_comma_tail in H. destruct H as [Hc Hs].
  cbn [Split_comma].
  replace (Ascii.eqb c ",") with false
    by (symmetry; now apply Ascii.eqb_neq).
  now rewrite IH.
Qed.

Lemma Split_comma_cons (s rest : string) :
  no_comma s ->
  Split_comma (s ++ "," ++ rest) = s :: Split_comma rest.
Proof.
  induction s as [|c s IH]; intros H.
  - reflexivity.
  - apply no_comma_tail in H. destruct H as [Hc Hs].
    cbn [String.append Split_comma].
    replace (Ascii.eqb c ",") with false
      by (symmetry; now apply Ascii.eqb_neq).
    cbn [String.append] in IH. now rewrite IH.
Qed.

Lemma Split_join (items : list string) :
  items <> [] -> Forall no_comma items ->
  Split_comma (join_comma items) = items.
Proof.
  intros Hne H. induction H as [|s rest Hs Hrest IH]; [congruence|].
  destruct rest as [|r rest'].
  - cbn [join_comma]. now apply Split_comma_single.
  - change (join_comma (s :: r :: rest'))
      with (s ++ "," ++ join_comma (r :: rest'))%string.
    rewrite Split_comma_cons by assumption.
    now rewrite IH.
Qed.

Lemma digit_char_not_comma (d : Z) :
  0 <= d <= 9 -> digit_char d <> ","%char /\ digit_char d <> "?"%char.
Proof.
  intros H.
  assert (C : d = 0 \/ d = 1 \/ d = 2 \/ d = 3 \/ d = 4 \/ d = 5 \/ d = 6
              \/ d = 7 \/ d = 8 \/ d = 9) by lia.
  repeat (destruct C as [->|C]; [split; discriminate|]).
  subst d. split; discriminate.
Qed.

Lemma digits_no_comma (ds : list Z) :
  Forall (fun d => 0 <= d <= 9) ds -> no_comma (string_of_digits ds).
Proof.
  induction 1 as [|d ds Hd _ IH]; intros i.
  - destruct i; discriminate.
  - destruct i as [|i]; cbn [string_of_digits String.get].
    + intros E. injection E as E.
      now apply (proj1 (digit_char_not_comma d Hd)).
    + apply IH.
Qed.

Lemma item_no_comma (item : option (list Z)) :
  is_item item -> no_comma (item_string item).
Proof.
  destruct item as [ds|]; cbn [is_item item_string].
  - intros [[_ Hd] _]. now apply digits_no_comma.
  - intros _ [|[|i]]; discriminate.
Qed.

Lemma digits_not_marker (ds : list Z) :
  is_digits ds ->
  String.eqb (string_of_digits ds) UnboundedSSZFieldSizeMarker = false.
Proof.
  intros [Hne Hd]. destruct ds as [|d ds]; [congruence|].
  inversion Hd as [|? ? Hd1 _]; subst.
  apply String.eqb_neq. cbn [string_of_digits]. intros E.
  injection E as E _.
  now apply (proj2 (digit_char_not_comma d Hd1)).
Qed.

Lemma parse_sizes_items (items : list (option (list Z))) :
  Forall is_item items ->
  parse_sizes (map item_string items) = Ok (map item_value items).
Proof.
  induction 1 as [|item items Hi _ IH]; [reflexivity|].
  cbn [map parse_sizes]. rewrite IH. cbn [bind].
  destruct item as [ds|]; cbn [item_string item_value is_item] in *.
  - destruct Hi as [Hd Hv].
    rewrite (digits_not_marker ds Hd), (ParseUint_digits ds Hd).
    replace (digits_value ds <? 2 ^ 64) with true
      by (symmetry; apply Z.ltb_lt; lia).
    reflexivity.
  - reflexivity.
Qed.

Lemma parseSSZFieldTags_parses (field : SizedField)
  (items : list (option (list Z))) :
  items <> [] ->
  Forall is_item items ->
  Tag_ssz_size field = Some (join_comma (map item_string items)) ->
  parseSSZFieldTags field = Ok (Some (map item_value items)).
Proof.
  intros Hne Hi Ht. unfold parseSSZFieldTags. rewrite Ht.
  rewrite Split_join.
  - rewrite (parse_sizes_items items Hi). reflexivity.
  - destruct items; [congruence | discriminate].
  - apply Forall_forall. intros s Hs. apply in_map_iff in Hs.
    destruct Hs as [item [<- Hin]]. apply item_no_comma.
    rewrite Forall_forall in Hi. now apply Hi.
Qed.

Lemma parse_sizes_bad (items : list string) (item : string) :
  In item items -> bad_item item ->
  parse_sizes items = Err "strconv.ParseUint".
Proof.
  intros Hin [Hm Hb]. induction items as [|it rest IH]; [inversion Hin|].
  cbn [parse_sizes]. destruct Hin as [->|Hin].
  - replace (String.eqb item UnboundedSSZFieldSizeMarker) with false
      by (symmetry; now apply String.eqb_neq).
    destruct Hb as [->|Hb]; [reflexivity|].
    now rewrite (ParseUint_non_digit item Hb).
  - rewrite (IH Hin).
    destruct (String.eqb it UnboundedSSZFieldSizeMarker); [reflexivity|].
    destruct (ParseUint it); reflexivity.
Qed.

(** X19.  [parseSSZFieldTags]: a tag made of items separated by commas,
    each the marker [?] or a decimal number below 2^64, gives the sizes in
    order, 0 for the marker; a tag with an item that is empty or has a
    character other than a digit, and is not the marker, gives the error of
    [strconv.ParseUint]; without a tag there are no sizes. *)
Theorem parseSSZFieldTags_items (field : SizedField) :
  (forall items,
      items <> [] ->
      Forall is_item items ->
      Tag_ssz_size field = Some (join_comma (map item_string items)) ->
      parseSSZFieldTags field = Ok (Some (map item_value items)))
  /\ (forall tag item,
        Tag_ssz_size field = Some tag ->
        In item (Split_comma tag) ->
        bad_item item ->
        parseSSZFieldTags field = Err "strconv.ParseUint")
  /\ (Tag_ssz_size field = None -> parseSSZFieldTags field = Ok None).
Proof.
  split; [|split].
  - intros items. apply parseSSZFieldTags_parses.
  - intros tag item Ht Hin Hb. unfold parseSSZFieldTags. rewrite Ht.
    now rewrite (parse_sizes_bad _ item Hin Hb).
  - intros Ht. unfold parseSSZFieldTags. now rewrite Ht.
Qed.

Lemma parseSSZFieldTags_items_witness :
  parseSSZFieldTags
    (mkSized (mkField "Roots" byteLists None) (Some "?,32"%string))
  = Ok (Some [0; 32]).
Proof.
  apply (proj1 (parseSSZFieldTags_items
                  (mkSized (mkField "Roots" byteLists None)
                     (Some "?,32"%string)))
           [None; Some [3; 2]]).
  - discriminate.
  - repeat constructor; first [discriminate | lia].
  - reflexivity.
Defined.

Section InferProofs.

Variable ArrayOf : Z -> type -> result type.

Lemma wrap_sizes_app (l1 l2 : list Z) :
  forall cur,
    wrap_sizes ArrayOf (l1 ++ l2) cur
    = (t <- wrap_sizes ArrayOf l1 cur ;; wrap_sizes ArrayOf l2 t).
Proof.
  induction l1 as [|s l1 IH]; intros cur; [reflexivity|].
  cbn [app wrap_sizes].
  destruct (if s =? 0 then Ok (TSlice cur) else ArrayOf (int64 s) cur);
    cbn [bind]; [apply IH | reflexivity | reflexivity].
Qed.

Lemma wrap_sizes_nest (sizes : list Z) (inner : type) :
  (forall s t, In s sizes -> s <> 0 ->
               ArrayOf (int64 s) t = Ok (TArray (Z.to_nat s) t)) ->
  wrap_sizes ArrayOf (rev sizes) inner = Ok (nest sizes inner).
Proof.
  induction sizes as [|s rest IH]; intros HA; [reflexivity|].
  cbn [rev nest]. rewrite wrap_sizes_app.
  rewrite IH by (intros; apply HA; [now right | assumption]).
  cbn [bind wrap_sizes].
  destruct (s =? 0) eqn:E; [reflexivity|].
  apply Z.eqb_neq in E. rewrite HA by (first [now left | assumption]).
  reflexivity.
Qed.

Lemma inferFieldTypeFromSizeTags_nest (field : SizedField)
  (sizes : list Z) :
  sizes <> [] ->
  (forall s t, In s sizes -> s <> 0 ->
               ArrayOf (int64 s) t = Ok (TArray (Z.to_nat s) t)) ->
  inferFieldTypeFromSizeTags ArrayOf field sizes
  = (inner <- Elem_times (List.length sizes) (FType (sized_field field)) ;;
     Ok (nest sizes inner)).
Proof.
  intros Hne HA. unfold inferFieldTypeFromSizeTags.
  destruct sizes as [|s rest]; [congruence|].
  cbn [List.length Elem_times].
  replace (S (List.length rest) - 1)%nat with (List.length rest) by lia.
  destruct (Elem (FType (sized_field field))) as [e| |]; cbn [bind];
    try reflexivity.
  destruct (Elem_times (List.length rest) e) as [inner| |]; cbn [bind];
    try reflexivity.
  now apply wrap_sizes_nest.
Qed.

End InferProofs.

(** X20.  [determineFieldType] on a field with an [ssz-size] tag of
    [n] items: the declared type loses its [n] outer levels (the panic of
    [Elem] when it has fewer) and gets [n] new ones, a slice for the marker
    [?] or the size 0 and an array of the given length otherwise, provided
    [reflect.ArrayOf] makes these arrays. *)
Theorem determineFieldType_sized_nest
  (ArrayOf : Z -> type -> result type) (field : SizedField)
  (items : list (option (list Z))) :
  items <> [] ->
  Forall is_item items ->
  Tag_ssz_size field = Some (join_comma (map item_string items)) ->
  (forall s t, In s (map item_value items) -> s <> 0 ->
               ArrayOf (int64 s) t = Ok (TArray (Z.to_nat s) t)) ->
  determineFieldType_sized ArrayOf field
  = (inner <- Elem_times (List.length items) (FType (sized_field field)) ;;
     Ok (nest (map item_value items) inner)).
Proof.
  intros Hne Hi Ht HA. unfold determineFieldType_sized.
  rewrite (parseSSZFieldTags_parses field items Hne Hi Ht).
  rewrite inferFieldTypeFromSizeTags_nest.
  - now rewrite length_map.
  - destruct items; [congruence | discriminate].
  - exact HA.
Qed.

Lemma determineFieldType_sized_nest_witness :
  determineFieldType_sized
    (fun n t => if n <? 0 then Panic else Ok (TArray (Z.to_nat n) t))
    (mkSized (mkField "Roots" byteLists None) (Some "?,32"%string))
  = Ok (TSlice (TArray 32 TUint8)).
Proof.
  apply (determineFieldType_sized_nest
           (fun n t => if n <? 0 then Panic else Ok (TArray (Z.to_nat n) t))
           (mkSized (mkField "Roots" byteLists None) (Some "?,32"%string))
           [None; Some [3; 2]]).
  - discriminate.
  - repeat constructor; first [discriminate | lia].
  - reflexivity.
  - intros s t Hin Hs. cbn in Hin.
    destruct Hin as [<-|[<-|[]]]; [now contradiction Hs | reflexivity].
Defined.

(** * A destination that is not fresh *)

Lemma has_type_zero :
  forall t, supported t = true -> has_type t (zero t) = true.
Proof.
  induction t as [t IH] using type_depth_ind. intros Hs.
  destruct t; try (cbn in Hs; discriminate); try reflexivity.
  - cbn [supported] in Hs. apply andb_true_iff in Hs. destruct Hs as [Hs _].
    cbn [zero has_type]. rewrite repeat_length, Nat.eqb_refl. cbn [andb].
    apply forallb_forall. intros x Hx. apply repeat_spec in Hx. subst x.
    apply IH; [cbn; lia | assumption].
  - rewrite supported_struct in Hs. apply andb_true_iff in Hs.
    destruct Hs as [_ Hs]. cbn [zero]. rewrite has_type_struct.
    assert (G : forall f, In f fields -> has_type (FType f) (zero (FType f))
                                         = true).
    { intros f Hin. apply IH; [now apply field_depth|].
      rewrite forallb_forall in Hs. specialize (Hs f Hin).
      unfold supported_field in Hs. apply andb_true_iff in Hs. tauto. }
    clear IH Hs. induction fields as [|f fs IHf]; [reflexivity|].
    cbn [map has_type_fields]. rewrite G by now left.
    apply IHf. intros; apply G; now right.
Qed.

Section IgnoresDestination.

Variable U : SSZAble -> value -> type -> list byte -> Z -> result (Z * value).

Lemma basicArray_decode_indep (e : type) (input : list byte) :
  supported e = true ->
  ignores_destination U e ->
  forall todo done a b index,
    List.length a = todo -> List.length b = todo ->
    forallb (has_type e) a = true ->
    forallb (has_type e) b = true ->
    basicArray_decode U e input todo (len done) (done ++ a) index
    = basicArray_decode U e input todo (len done) (done ++ b) index.
Proof.
  intros Hs HI. induction todo as [|todo IH];
    intros done a b index La Lb Ta Tb.
  - destruct a; [|discriminate]. destruct b; [|discriminate]. reflexivity.
  - destruct a as [|x a]; [discriminate|].
    destruct b as [|y b]; [discriminate|].
    cbn [forallb] in Ta, Tb. apply andb_true_iff in Ta, Tb.
    destruct Ta as [Tx Ta]. destruct Tb as [Ty Tb].
    cbn [basicArray_decode].
    rewrite !elem_at_app by reflexivity. cbn [bind].
    rewrite !(instantiate_if_ptr_supported _ _ Hs). cbn [bind].
    assert (F : forall d, match e with
                          | TPtr ee => SSZFactory d ee
                          | _ => SSZFactory d e
                          end = Ok (factory_of e)).
    { intros d. rewrite <- (SSZFactory_supported e d Hs).
      destruct e; try reflexivity; discriminate. }
    rewrite !F. cbn [bind].
    rewrite (HI x input index Tx), (HI y input index Ty).
    destruct (U (factory_of e) (zero e) e input index) as [[index' d']| |];
      cbn [bind]; try reflexivity.
    rewrite !store_app by reflexivity. cbn [bind].
    replace (done ++ d' :: a) with ((done ++ [d']) ++ a) by reassoc.
    replace (done ++ d' :: b) with ((done ++ [d']) ++ b) by reassoc.
    replace (len done + 1) with (len (done ++ [d']))
      by (rewrite len_app, len_cons, len_nil; lia).
    cbn [List.length] in La, Lb.
    apply IH; first [assumption | lia].
Qed.

Lemma basicArraySSZ_Unmarshal_indep (n : nat) (e : type) :
  supported e = true ->
  ignores_destination U e ->
  ignores_destination (fun _ => basicArraySSZ_Unmarshal U) (TArray n e).
Proof.
  intros Hs HI d input off Hd.
  destruct d; cbn [has_type] in Hd; try discriminate.
  apply andb_true_iff in Hd. destruct Hd as [Hl Hd].
  apply Nat.eqb_eq in Hl.
  unfold basicArraySSZ_Unmarshal. cbn [zero SliceItems bind Elem].
  rewrite len_repeat. unfold len at 1. rewrite Hl.
  destruct (Z.of_nat n =? 0) eqn:E0.
  - (* no slot *)
    apply Z.eqb_eq in E0. assert (n = 0%nat) by lia. subst n.
    destruct items; [reflexivity | discriminate].
  - rewrite repeat_length.
    pose proof (basicArray_decode_indep e input Hs HI n [] items
                  (repeat (zero e) n) off Hl (repeat_length _ _) Hd) as R.
    cbn [app] in R. change (len (@nil value)) with 0 in R.
    rewrite R; [reflexivity|].
    apply forallb_forall. intros x Hx. apply repeat_spec in Hx. subst x.
    now apply has_type_zero.
Qed.

Lemma elem_at_store_same {A} (pre post : list A) (x : A) :
  store (pre ++ x :: post) (len pre) x = Ok (pre ++ x :: post).
Proof. now apply store_app. Qed.

Lemma struct_fixedSizes_typed (fs : list StructField) :
  forall done a,
    forallb supported_field fs = true ->
    List.length a = List.length fs ->
    struct_fixedSizes fs (len done) (done ++ a)
    = Ok (done ++ a, fixedSizes_of fs).
Proof.
  induction fs as [|f fs IH]; intros done a Hs La; [reflexivity|].
  destruct a as [|x a]; [discriminate|]. injection La as La.
  cbn [forallb] in Hs. apply andb_true_iff in Hs. destruct Hs as [Hs1 Hs2].
  unfold supported_field in Hs1. apply andb_true_iff in Hs1.
  destruct Hs1 as [Hs1 _].
  cbn [struct_fixedSizes determineFieldType bind fixedSizes_of map].
  fold (fixedSizes_of fs).
  assert (R : struct_fixedSizes fs (len done + 1) (done ++ x :: a)
              = Ok (done ++ x :: a, fixedSizes_of fs)).
  { replace (done ++ x :: a) with ((done ++ [x]) ++ a) by reassoc.
    replace (len done + 1) with (len (done ++ [x]))
      by (rewrite len_app, len_cons, len_nil; lia).
    now apply IH. }
  destruct (isVariableSizeType (FType f)).
  - rewrite R. reflexivity.
  - rewrite elem_at_app by reflexivity. cbn [bind].
    rewrite (instantiate_if_ptr_supported _ _ Hs1). cbn [bind].
    rewrite store_app by reflexivity. cbn [bind].
    rewrite R. reflexivity.
Qed.

Lemma struct_decode_indep (input : list byte) (offsets : list Z)
  (offsetIndex : Z) :
  forall fs,
    forallb supported_field fs = true ->
    existsb (fun f => isVariableSizeType (FType f)) fs = false ->
    (forall f, In f fs -> ignores_destination U (FType f)) ->
    forall done a b index,
      has_type_fields fs a = true ->
      has_type_fields fs b = true ->
      struct_decode U fs (fixedSizes_of fs) (len done) input offsets
        offsetIndex (done ++ a) index
      = struct_decode U fs (fixedSizes_of fs) (len done) input offsets
          offsetIndex (done ++ b) index.
Proof.
  induction fs as [|f fs IH]; intros Hs Hv HI done a b index Ta Tb.
  - destruct a; [|discriminate]. destruct b; [|discriminate]. reflexivity.
  - destruct a as [|x a]; [discriminate|].
    destruct b as [|y b]; [discriminate|].
    cbn [has_type_fields] in Ta, Tb. apply andb_true_iff in Ta, Tb.
    destruct Ta as [Tx Ta]. destruct Tb as [Ty Tb].
    cbn [forallb] in Hs. apply andb_true_iff in Hs. destruct Hs as [Hs1 Hs2].
    unfold supported_field in Hs1. apply andb_true_iff in Hs1.
    destruct Hs1 as [Hs1 _].
    cbn [existsb] in Hv. apply orb_false_iff in Hv. destruct Hv as [Hv1 Hv2].
    cbn [struct_decode fixedSizes_of map determineFieldType bind].
    fold (fixedSizes_of fs). rewrite Hv1.
    rewrite !elem_at_app by reflexivity. cbn [bind].
    rewrite !(instantiate_if_ptr_supported _ _ Hs1). cbn [bind].
    rewrite !store_app by reflexivity. cbn [bind].
    rewrite !(SSZFactory_supported _ _ Hs1). cbn [bind].
    pose proof (fixed_size_pos (FType f) Hs1 Hv1) as Hp.
    replace (fixed_size (FType f) =? 0) with false
      by (symmetry; apply Z.eqb_neq; lia).
    destruct (slice input index (add64 index (fixed_size (FType f))))
      as [sub| |]; cbn [bind]; try reflexivity.
    rewrite (HI f (or_introl eq_refl) x sub 0 Tx),
      (HI f (or_introl eq_refl) y sub 0 Ty).
    destruct (U (factory_of (FType f)) (zero (FType f)) (FType f) sub 0)
      as [[j d']| |]; cbn [bind]; try reflexivity.
    rewrite !store_app by reflexivity. cbn [bind].
    replace (done ++ d' :: a) with ((done ++ [d']) ++ a) by reassoc.
    replace (done ++ d' :: b) with ((done ++ [d']) ++ b) by reassoc.
    replace (len done + 1) with (len (done ++ [d']))
      by (rewrite len_app, len_cons, len_nil; lia).
    apply IH; try assumption.
    intros g Hg. apply HI. now right.
Qed.

Lemma has_type_fields_zero (fs : list StructField) :
  forallb supported_field fs = true ->
  has_type_fields fs (zero_fields fs) = true.
Proof.
  induction fs as [|f fs IH]; intros Hs; [reflexivity|].
  cbn [forallb] in Hs. apply andb_true_iff in Hs. destruct Hs as [Hs1 Hs2].
  unfold supported_field in Hs1. apply andb_true_iff in Hs1.
  destruct Hs1 as [Hs1 _].
  cbn [zero_fields map has_type_fields].
  rewrite (has_type_zero _ Hs1). now apply IH.
Qed.

Lemma structSSZ_Unmarshal_indep (fs : list StructField) :
  supported (TStruct fs) = true ->
  isVariableSizeType (TStruct fs) = false ->
  (forall f, In f fs -> ignores_destination U (FType f)) ->
  ignores_destination (fun _ => structSSZ_Unmarshal U) (TStruct fs).
Proof.
  intros Hs Hv HI d input off Hd.
  rewrite supported_struct in Hs. apply andb_true_iff in Hs.
  destruct Hs as [_ Hs]. cbn [isVariableSizeType] in Hv.
  destruct d; try discriminate. rename fields into vs.
  rewrite has_type_struct in Hd.
  unfold structSSZ_Unmarshal. cbn [Fields bind zero FieldValues]. cbv zeta.
  rewrite (countFields_supported fs Hs), firstn_all.
  fold (zero_fields fs).
  pose proof (has_type_fields_zero fs Hs) as Hz.
  pose proof (struct_fixedSizes_typed fs [] vs Hs
                (has_type_fields_length fs vs Hd)) as F1.
  pose proof (struct_fixedSizes_typed fs [] (zero_fields fs) Hs
                (has_type_fields_length fs _ Hz)) as F2.
  cbn [app] in F1, F2. change (len (@nil value)) with 0 in F1, F2.
  rewrite F1, F2. cbn [bind].
  destruct (struct_offsets (fixedSizes_of fs) input off off [])
    as [offsets| |]; cbn [bind]; try reflexivity.
  pose proof (struct_decode_indep input (offsets ++ [len input]) 0 fs Hs Hv
                HI [] vs (zero_fields fs) off Hd Hz) as D.
  cbn [app] in D. change (len (@nil value)) with 0 in D.
  now rewrite D.
Qed.

End IgnoresDestination.

Lemma SSZAble_Unmarshal_indep :
  forall fuel t,
    (type_depth t < fuel)%nat ->
    supported t = true ->
    isVariableSizeType t = false ->
    ignores_destination (SSZAble_Unmarshal fuel) t.
Proof.
  induction fuel as [|fuel IH]; intros t Hd Hs Hv; [lia|].
  destruct t; try (cbn in Hs; discriminate); try (cbn in Hv; discriminate).
  - intros d input off _. reflexivity.
  - intros d input off _. reflexivity.
  - intros d input off _. reflexivity.
  - intros d input off _. reflexivity.
  - intros d input off _. reflexivity.
  - (* TArray *)
    cbn [supported] in Hs. apply andb_true_iff in Hs.
    destruct Hs as [Hs Hn]. cbn [isVariableSizeType] in Hv.
    intros d input off Ht.
    unfold factory_of. rewrite Hv. cbn [SSZAble_Unmarshal].
    apply (basicArraySSZ_Unmarshal_indep (SSZAble_Unmarshal fuel) n t Hs);
      [|exact Ht].
    apply IH; [cbn in Hd; lia | assumption | assumption].
  - (* TStruct *)
    intros d input off Ht. cbn [factory_of SSZAble_Unmarshal].
    apply (structSSZ_Unmarshal_indep (SSZAble_Unmarshal fuel) fields Hs Hv);
      [|exact Ht].
    intros f Hin. apply IH.
    + pose proof (field_depth fields f Hin). lia.
    + rewrite supported_struct in Hs. apply andb_true_iff in Hs.
      destruct Hs as [_ Hs]. rewrite forallb_forall in Hs.
      specialize (Hs f Hin). unfold supported_field in Hs.
      apply andb_true_iff in Hs. tauto.
    + cbn [isVariableSizeType] in Hv.
      destruct (isVariableSizeType (FType f)) eqn:E; [|reflexivity].
      exfalso. assert (X : existsb (fun f => isVariableSizeType (FType f))
                             fields = true)
        by (apply existsb_exists; exists f; tauto).
      congruence.
Qed.



(** * The cached layers of [types/array_roots.go] *)

Lemma lxor_1 (p : Z) :
  0 <= p -> Z.lxor p 1 = if p mod 2 =? 0 then p + 1 else p - 1.
Proof.
  intros Hp. destruct p as [|[q|q|]|]; try reflexivity; try lia.
  - rewrite Pos2Z.inj_xI.
    replace ((2 * Z.pos q + 1) mod 2 =? 0) with false.
    + cbn. lia.
    + symmetry. apply Z.eqb_neq.
      rewrite Z.add_comm, Z.mul_comm, Z.mod_add by lia. discriminate.
  - rewrite Pos2Z.inj_xO.
    replace ((2 * Z.pos q) mod 2 =? 0) with true.
    + cbn. lia.
    + symmetry. apply Z.eqb_eq. rewrite Z.mul_comm.
      now apply Z.mod_mul.
Qed.

Lemma shl1_small (i : Z) : 0 <= i < 64 -> shl1 i = 2 ^ i.
Proof.
  intros H. unfold shl1. apply u64_small.
  split; [apply Z.pow_nonneg; lia | apply Z.pow_lt_mono_r; lia].
Qed.

Section RecomputeProofs.

Variable hash : list byte -> list byte.

Lemma hash_pairs_pairs (layer : list (list byte)) :
  forall l, hash_pairs hash l = Ok layer -> layer = pairs hash l.
Proof.
  induction layer as [|x layer IH]; intros l H.
  - destruct l as [|a [|b rest]]; cbn [hash_pairs pairs] in *;
      try reflexivity; try discriminate.
    destruct (hash_pairs hash rest); discriminate.
  - destruct l as [|a [|b rest]]; cbn [hash_pairs pairs] in *;
      try discriminate.
    destruct (hash_pairs hash rest) as [r| |] eqn:E; cbn [bind] in H;
      try discriminate.
    injection H as <- <-. f_equal. now apply IH.
Qed.

Lemma pairs_length (k : nat) (l : list (list byte)) :
  List.length l = (2 ^ S k)%nat ->
  List.length (pairs hash l) = (2 ^ k)%nat
  /\ tree_root hash k (pairs hash l) = tree_root hash (S k) l.
Proof.
  intros Hl. destruct (hash_pairs_tree hash k l Hl) as [layer [H [L T]]].
  apply hash_pairs_pairs in H. subst layer. now split.
Qed.

End RecomputeProofs.

Lemma elem_at_nat {A} (l : list A) (i : nat) (d : A) :
  (i < List.length l)%nat -> elem_at l (Z.of_nat i) = Ok (nth i l d).
Proof.
  intros H. unfold elem_at, len.
  replace ((0 <=? Z.of_nat i) && (Z.of_nat i <? Z.of_nat (List.length l)))
    with true
    by (symmetry; rewrite andb_true_iff, Z.leb_le, Z.ltb_lt; lia).
  rewrite Nat2Z.id.
  destruct (nth_error l i) as [x|] eqn:E.
  - cbn [of_option]. f_equal. symmetry. now apply nth_error_nth.
  - apply nth_error_None in E. lia.
Qed.

Lemma store_nat {A} (l : list A) (i : nat) (x : A) :
  (i < List.length l)%nat ->
  store l (Z.of_nat i) x = Ok (replace_at l i x).
Proof.
  intros H. unfold store, len, replace_at.
  replace ((0 <=? Z.of_nat i) && (Z.of_nat i <? Z.of_nat (List.length l)))
    with true
    by (symmetry; rewrite andb_true_iff, Z.leb_le, Z.ltb_lt; lia).
  now rewrite Nat2Z.id.
Qed.

Lemma replace_at_length {A} (l : list A) (i : nat) (x : A) :
  (i < List.length l)%nat ->
  List.length (replace_at l i x) = List.length l.
Proof.
  intros H. unfold replace_at.
  rewrite length_app, length_firstn. cbn [List.length].
  rewrite length_skipn. lia.
Qed.

Lemma replace_at_cons {A} (a : A) (l : list A) (i : nat) (x : A) :
  replace_at (a :: l) (S i) x = a :: replace_at l i x.
Proof. reflexivity. Qed.

Lemma nth_replace_at_other {A} (l : list A) (i j : nat) (x d : A) :
  (i < List.length l)%nat -> i <> j ->
  nth j (replace_at l i x) d = nth j l d.
Proof.
  revert i j. induction l as [|a l IH]; intros i j Hi Hij.
  - cbn in Hi. lia.
  - destruct i as [|i].
    + destruct j as [|j]; [congruence|]. reflexivity.
    + rewrite replace_at_cons. destruct j as [|j]; [reflexivity|].
      cbn [nth]. apply IH; [cbn in Hi; lia | congruence].
Qed.

Section RecomputeProofs2.

Variable hash : list byte -> list byte.

Lemma pairs_replace_at :
  forall n l p x,
    List.length l = (2 * n)%nat -> (p < List.length l)%nat ->
    pairs hash (replace_at l p x)
    = replace_at (pairs hash l) (p / 2) (parent_hash hash l p x).
Proof.
  induction n as [|n IH]; intros l p x Hl Hp.
  - destruct l; [cbn in Hp; lia | discriminate].
  - destruct l as [|a [|b rest]]; try (cbn in Hl; lia).
    destruct p as [|[|p]].
    + reflexivity.
    + reflexivity.
    + rewrite !replace_at_cons. cbn [pairs].
      cbn [List.length] in Hl, Hp.
      rewrite (IH rest p x) by lia.
      replace (S (S p) / 2)%nat with (S (p / 2))
        by (change (S (S p)) with (2 + p)%nat;
            rewrite (Nat.add_comm 2 p);
            replace (p + 2)%nat with (p + 1 * 2)%nat by lia;
            rewrite Nat.div_add by lia; lia).
      rewrite replace_at_cons. f_equal. f_equal.
      unfold parent_hash. cbn [Nat.even nth pred].
      destruct (Nat.even p) eqn:E; [reflexivity|].
      destruct p as [|p']; [discriminate | reflexivity].
Qed.

Lemma tree_layers_head (k : nat) (l : list (list byte)) :
  tree_layers hash k l = l :: tl (tree_layers hash k l).
Proof. destruct k; reflexivity. Qed.

Lemma sibling_lt (k : nat) (p : nat) :
  (p < 2 ^ S k)%nat -> (sibling p < 2 ^ S k)%nat /\ sibling p <> p.
Proof.
  intros H. unfold sibling. cbn [Nat.pow] in *.
  destruct (Nat.even p) eqn:E.
  - apply Nat.even_spec in E. destruct E as [q ->]. lia.
  - destruct p as [|p]; [discriminate|]. cbn [pred]. lia.
Qed.

Lemma lxor_sibling (p : nat) :
  Z.lxor (Z.of_nat p) 1 = Z.of_nat (sibling p)
  /\ (negb (Z.of_nat p mod 2 =? 0)) = negb (Nat.even p).
Proof.
  rewrite lxor_1 by lia. unfold sibling.
  destruct (Nat.even p) eqn:E.
  - apply Nat.even_spec in E. destruct E as [q ->].
    rewrite Nat2Z.inj_mul. change (Z.of_nat 2) with 2.
    rewrite Z.mul_comm, Z.mod_mul by lia. cbn [Z.eqb negb]. split; lia.
  - assert (O : Nat.odd p = true)
      by (rewrite <- Nat.negb_even, E; reflexivity).
    apply Nat.odd_spec in O. destruct O as [q ->].
    rewrite Nat2Z.inj_add, Nat2Z.inj_mul. change (Z.of_nat 2) with 2.
    change (Z.of_nat 1) with 1.
    rewrite Z.add_comm, Z.mul_comm, Z.mod_add by lia.
    cbn [Z.eqb negb Z.modulo Z.div_eucl]. 
    replace (2 * q + 1)%nat with (S (2 * q)) by lia. cbn [pred].
    split; [|reflexivity].
    change (1 mod 2 =? 0) with false. cbv iota. lia.
Qed.

End RecomputeProofs2.

Section RecomputeProofs3.

Variable hash : list byte -> list byte.

Lemma parent_hash_root' (first old : list (list byte)) (k : nat) (p : nat)
  (root : list byte) :
  (p < 2 ^ S k)%nat ->
  (forall j, j <> p -> nth j first [] = nth j old []) ->
  (if negb (Nat.even p)
   then hash (nth (sibling p) first [] ++ root)
   else hash (root ++ nth (sibling p) first []))
  = parent_hash hash old p root.
Proof.
  intros Hp Hsame. destruct (sibling_lt k p Hp) as [_ Hne].
  rewrite (Hsame _ Hne). unfold parent_hash, sibling.
  now destruct (Nat.even p).
Qed.

Lemma div2_lt (k p : nat) : (p < 2 ^ S k)%nat -> (p / 2 < 2 ^ k)%nat.
Proof.
  intros H. apply Nat.Div0.div_lt_upper_bound. cbn [Nat.pow] in H. lia.
Qed.

Lemma recomputeRoot_loop_spec (fieldName : string) (idx : Z) :
  0 <= idx < 2 ^ 64 ->
  forall (k : nat) (i : Z) (done : list (list (list byte)))
         (old first : list (list byte)) (p : nat) (root : list byte)
         (layers : layers_map),
    i = len done -> i + Z.of_nat k < 64 ->
    idx / 2 ^ i = Z.of_nat p ->
    List.length old = (2 ^ k)%nat -> (p < 2 ^ k)%nat ->
    List.length first = (2 ^ k)%nat ->
    (forall j, j <> p -> nth j first [] = nth j old []) ->
    layers fieldName = done ++ first :: tl (tree_layers hash k old) ->
    exists layers',
      recomputeRoot_loop hash fieldName idx k i root layers
      = Ok (tree_root hash k (replace_at old p root), layers')
      /\ layers' fieldName
         = done ++ first :: tl (tree_layers hash k (replace_at old p root))
      /\ forall other, other <> fieldName -> layers' other = layers other.
Proof.
  intros Hidx.
  induction k as [|k IH];
    intros i done old first p root layers Hi Hk Hdiv Hold Hp Hfirst Hsame Hl.
  - exists layers. cbn [recomputeRoot_loop tree_layers tl tree_root] in *.
    change (2 ^ 0)%nat with 1%nat in *.
    assert (p = 0%nat) as -> by lia.
    destruct old as [|o [|? ?]]; try discriminate.
    repeat split. exact Hl.
  - pose proof (len_nonneg done) as Hd.
    cbn [recomputeRoot_loop].
    rewrite !shl1_small by lia.
    assert (P0 : 0 < 2 ^ i) by (apply Z.pow_pos_nonneg; lia).
    assert (P1 : 0 < 2 ^ (i + 1)) by (apply Z.pow_pos_nonneg; lia).
    replace (2 ^ i =? 0) with false by (symmetry; apply Z.eqb_neq; lia).
    replace (2 ^ (i + 1) =? 0) with false
      by (symmetry; apply Z.eqb_neq; lia).
    rewrite (u64_small idx) by lia.
    rewrite Hdiv.
    assert (Hdiv' : idx / 2 ^ (i + 1) = Z.of_nat (p / 2)).
    { rewrite Z.pow_add_r by lia. rewrite <- Z.div_div by lia.
      rewrite Hdiv. change (2 ^ 1) with (Z.of_nat 2).
      now rewrite <- Nat2Z.inj_div. }
    rewrite Hdiv'.
    destruct (lxor_sibling p) as [-> ->].
    destruct (sibling_lt k p Hp) as [Hs _].
    pose proof (pairs_length hash k old Hold) as [Lp Tp].
    rewrite Hl. rewrite (elem_at_app done _ first i Hi). cbn [bind].
    rewrite (elem_at_nat first (sibling p) []) by lia. cbn [bind].
    rewrite (parent_hash_root' first old k p root Hp Hsame).
    cbn [tree_layers tl].
    rewrite (tree_layers_head hash k (pairs hash old)).
    replace (done ++ first :: pairs hash old
                     :: tl (tree_layers hash k (pairs hash old)))
      with ((done ++ [first]) ++ pairs hash old
                     :: tl (tree_layers hash k (pairs hash old)))
      by (now rewrite <- app_assoc).
    assert (Hi' : i + 1 = len (done ++ [first]))
      by (rewrite len_app, len_cons, len_nil; lia).
    rewrite (elem_at_app (done ++ [first]) _ (pairs hash old) (i + 1) Hi').
    cbn [bind].
    pose proof (div2_lt k p Hp) as Hp2.
    rewrite (store_nat (pairs hash old) (p / 2)) by lia. cbn [bind].
    unfold set_layer. rewrite Hl. cbn [tree_layers tl].
    rewrite (tree_layers_head hash k (pairs hash old)).
    replace (done ++ first :: pairs hash old
                     :: tl (tree_layers hash k (pairs hash old)))
      with ((done ++ [first]) ++ pairs hash old
                     :: tl (tree_layers hash k (pairs hash old)))
      by (now rewrite <- app_assoc).
    rewrite (store_app (done ++ [first]) _ (pairs hash old) _ (i + 1) Hi').
    cbn [bind].
    set (parents' := replace_at (pairs hash old) (p / 2)
                       (parent_hash hash old p root)).
    assert (Hrep : pairs hash (replace_at old p root) = parents').
    { apply (pairs_replace_at hash (2 ^ k)); [|lia].
      rewrite Hold. cbn [Nat.pow]. lia. }
    set (layers1 := fun name : string =>
           if String.eqb name fieldName
           then (done ++ [first]) ++ parents'
                  :: tl (tree_layers hash k (pairs hash old))
           else layers name).
    destruct (IH (i + 1) (done ++ [first]) (pairs hash old) parents'
                 (p / 2)%nat (parent_hash hash old p root) layers1)
      as [layers' [R [L O]]]; try assumption; try lia.
    + unfold parents'. rewrite replace_at_length; lia.
    + intros j Hj. unfold parents'. apply nth_replace_at_other; lia.
    + unfold layers1. now rewrite String.eqb_refl.
    + exists layers'. fold parents' in R, L.
      assert (Lrep : List.length (replace_at old p root) = (2 ^ S k)%nat)
        by (rewrite replace_at_length; lia).
      pose proof (pairs_length hash k _ Lrep) as [_ Tr].
      rewrite Hrep in Tr.
      split; [|split].
      * rewrite R. now rewrite Tr.
      * rewrite L. rewrite <- app_assoc. cbn [app tree_layers tl].
        rewrite Hrep.
        now rewrite <- (tree_layers_head hash k parents').
      * intros other Hne. rewrite (O other Hne). unfold layers1.
        apply String.eqb_neq in Hne. now rewrite Hne.
Qed.

End RecomputeProofs3.

Section MerkleizeCache.

Variable hash : list byte -> list byte.
Variable BytesPerChunk : Z.

Lemma tree_layers_length (k : nat) :
  forall l, List.length (tree_layers hash k l) = S k.
Proof.
  induction k as [|k IH]; intros l; [reflexivity|].
  cbn [tree_layers List.length]. now rewrite IH.
Qed.

Lemma merkleize_layers_cache (fieldName : string) :
  String.eqb fieldName "" = false ->
  forall k fuel i done rest hashLayer layers,
    (k <= fuel)%nat ->
    List.length hashLayer = (2 ^ k)%nat ->
    i = len done ->
    layers fieldName = done ++ rest ->
    ((k <= List.length rest)%nat ->
     exists layers',
       merkleize_layers hash true fuel fieldName i hashLayer layers
       = Ok ([tree_root hash k hashLayer], layers')
       /\ layers' fieldName
          = done ++ tl (tree_layers hash k hashLayer) ++ skipn k rest
       /\ forall other, other <> fieldName -> layers' other = layers other)
    /\ ((List.length rest < k)%nat ->
        merkleize_layers hash true fuel fieldName i hashLayer layers
        = Panic).
Proof.
  intros Hname.
  induction k as [|k IH];
    intros fuel i done rest hashLayer layers Hf Hl Hi Hlay.
  - split; [|lia]. intros _. exists layers.
    destruct hashLayer as [|c [|d r]]; try discriminate.
    destruct fuel; cbn [merkleize_layers tree_layers tl skipn app];
      repeat split; assumption.
  - destruct fuel as [|fuel]; [lia|]. cbn [merkleize_layers].
    assert (G : (len hashLayer >? 1) = true).
    { apply Z.gtb_lt. unfold len. rewrite Hl.
      pose proof (Nat.pow_nonzero 2 k). cbn [Nat.pow]. lia. }
    rewrite G.
    destruct (hash_pairs_tree hash k hashLayer Hl) as [layer [Hp [Ll Tl]]].
    rewrite Hp. cbn [bind]. rewrite Hname. cbn [andb negb].
    pose proof (hash_pairs_pairs hash layer hashLayer Hp) as Epairs.
    unfold set_layer. rewrite Hlay.
    destruct rest as [|r rest].
    + split; [cbn [List.length]; lia|]. intros _.
      rewrite app_nil_r. unfold store. subst i.
      rewrite Z.ltb_irrefl, andb_false_r. reflexivity.
    + rewrite (store_app done rest r layer i Hi). cbn [bind].
      set (layers1 := fun name : string =>
             if String.eqb name fieldName then done ++ layer :: rest
             else layers name).
      assert (Hi' : i + 1 = len (done ++ [layer]))
        by (rewrite len_app, len_cons, len_nil; lia).
      assert (Hlay1 : layers1 fieldName = (done ++ [layer]) ++ rest).
      { unfold layers1. rewrite String.eqb_refl.
        now rewrite <- app_assoc. }
      destruct (IH fuel (i + 1) (done ++ [layer]) rest layer layers1)
        as [IHok IHpanic]; try assumption; try lia.
      split.
      * intros Hle. cbn [List.length] in Hle.
        destruct IHok as [layers' [R [L O]]]; [lia|].
        exists layers'. split; [|split].
        -- rewrite R. now rewrite Tl.
        -- rewrite L. rewrite <- app_assoc. cbn [app tree_layers tl skipn].
           rewrite <- Epairs.
           now rewrite (tree_layers_head hash k layer).
        -- intros other Hne. rewrite (O other Hne). unfold layers1.
           apply String.eqb_neq in Hne. now rewrite Hne.
      * intros Hlt. cbn [List.length] in Hlt. apply IHpanic. lia.
Qed.

End MerkleizeCache.

(** X22.  [merkleize] with the cache on and a field name, for more or
    fewer than one chunk and any hash function: when the entry of the
    field has at least [k+1] layers, the call returns the root of the tree
    over the chunks padded to [2^k] and stores the [k+1] layers of that tree,
    the padded chunks first and the root last, over the first [k+1] layers
    of the entry; the layers beyond and the entries of other fields stay.
    When the entry has fewer layers (none, for a field never seen) the call
    panics on an index out of range. *)
Theorem merkleize_fills_cache
  (hash : list byte -> list byte) (BytesPerChunk : Z)
  (chunks : list (list byte)) (fieldName : string) (layers : layers_map)
  (k : nat) :
  fieldName <> ""%string ->
  (k < 63)%nat ->
  (List.length chunks <= 2 ^ k)%nat ->
  (k = 0 \/ 2 ^ (k - 1) < List.length chunks)%nat ->
  List.length chunks <> 1%nat ->
  let padded :=
    chunks ++ repeat (make_bytes BytesPerChunk)
                (2 ^ k - List.length chunks) in
  ((S k <= List.length (layers fieldName))%nat ->
   exists layers',
     merkleize hash BytesPerChunk true chunks fieldName layers
     = Ok (toBytes32 (tree_root hash k padded), layers')
     /\ layers' fieldName
        = tree_layers hash k padded ++ skipn (S k) (layers fieldName)
     /\ forall other, other <> fieldName -> layers' other = layers other)
  /\ ((List.length (layers fieldName) < S k)%nat ->
      merkleize hash BytesPerChunk true chunks fieldName layers = Panic).
Proof.
  intros Hname Hk Hle Hmin H1 padded.
  apply String.eqb_neq in Hname.
  unfold merkleize.
  replace (len chunks =? 1) with false
    by (symmetry; apply Z.eqb_neq; unfold len; lia).
  set (m := (2 ^ k - List.length chunks)%nat).
  assert (Hm : (m <= S (List.length chunks))%nat).
  { unfold m.
    destruct Hmin as [->|Hmin]; [change (2 ^ 0)%nat with 1%nat; lia|].
    destruct k as [|k']; [cbn in *; lia|].
    replace (S k' - 1)%nat with k' in Hmin by lia.
    cbn [Nat.pow]. lia. }
  rewrite (pad_chunks_spec BytesPerChunk k Hk m)
    by (first [assumption | unfold m; lia]).
  cbn [bind]. unfold m. fold padded.
  assert (Lp : List.length padded = (2 ^ k)%nat).
  { unfold padded. rewrite length_app, repeat_length. lia. }
  rewrite Hname. cbn [andb negb]. unfold set_layer.
  destruct (layers fieldName) as [|l0 rest] eqn:Elay.
  - split; [cbn [List.length]; lia|]. intros _. reflexivity.
  - pose proof (store_app [] rest l0 padded 0 eq_refl) as St.
    cbn [app] in St. rewrite St. clear St. cbn [bind].
    set (layers1 := fun name : string =>
           if String.eqb name fieldName then padded :: rest
           else layers name).
    assert (Hlay1 : layers1 fieldName = [padded] ++ rest).
    { unfold layers1. now rewrite String.eqb_refl. }
    assert (Hfuel : (k <= List.length padded)%nat).
    { rewrite Lp. apply Nat.lt_le_incl, Nat.pow_gt_lin_r. lia. }
    destruct (merkleize_layers_cache hash fieldName Hname k
                (List.length padded) 1 [padded] rest padded layers1
                Hfuel Lp eq_refl Hlay1) as [Hok Hpanic].
    cbn [List.length]. split.
    + intros Hlen. destruct Hok as [layers' [R [L O]]]; [lia|].
      exists layers'. rewrite R. cbn [bind elem_at]. split; [|split].
      * reflexivity.
      * rewrite L. cbn [app skipn].
        now rewrite (tree_layers_head hash k padded) at 2.
      * intros other Hne. rewrite (O other Hne). unfold layers1.
        apply String.eqb_neq in Hne. now rewrite Hne.
    + intros Hlen. rewrite Hpanic by lia. reflexivity.
Qed.

Lemma merkleize_fills_cache_witness :
  exists layers',
    merkleize (fun b => rev b) 32 true
      [bytes_of [1]; bytes_of [2]; bytes_of [3]] "roots"
      (fun _ => [[]; []; []])
    = Ok (toBytes32
            (tree_root (fun b => rev b) 2
               [bytes_of [1]; bytes_of [2]; bytes_of [3]; make_bytes 32]),
          layers')
    /\ layers' "roots"%string
       = tree_layers (fun b => rev b) 2
           [bytes_of [1]; bytes_of [2]; bytes_of [3]; make_bytes 32].
Proof.
  destruct (merkleize_fills_cache (fun b => rev b) 32
              [bytes_of [1]; bytes_of [2]; bytes_of [3]] "roots"
              (fun _ => [[]; []; []]) 2) as [H _].
  - discriminate.
  - lia.
  - cbn. lia.
  - right. cbn. lia.
  - cbn. lia.
  - destruct H as [layers' [R [L _]]].
    + cbn. lia.
    + exists layers'. split; [exact R|].
      rewrite L. apply app_nil_r.
Defined.

(** X23.  [recomputeRoot] after the chunk [idx] changed to [c], for any
    hash function: when the cached layers above the bottom one are those of
    the tree over [old], and the cached bottom layer is [old] but possibly
    at [idx], the call returns the root of the tree over [old] with [c] at
    [idx], and replaces the cached layers above the bottom one by those of
    that tree.  The cached bottom layer and the entries of other fields are
    not written. *)
Theorem recomputeRoot_is_tree_root
  (hash : list byte -> list byte) (k : nat) (idx : Z)
  (chunks old first : list (list byte)) (c : list byte)
  (fieldName : string) (layers : layers_map) :
  (k < 63)%nat ->
  0 <= idx < 2 ^ Z.of_nat k ->
  List.length old = (2 ^ k)%nat ->
  List.length first = (2 ^ k)%nat ->
  (forall j, j <> Z.to_nat idx -> nth j first [] = nth j old []) ->
  layers fieldName = first :: tl (tree_layers hash k old) ->
  elem_at chunks idx = Ok c ->
  let leaves := replace_at old (Z.to_nat idx) c in
  exists layers',
    recomputeRoot hash idx chunks fieldName layers
    = Ok (toBytes32 (tree_root hash k leaves), layers')
    /\ layers' fieldName = first :: tl (tree_layers hash k leaves)
    /\ forall other, other <> fieldName -> layers' other = layers other.
Proof.
  intros Hk Hidx Hl Hf Hsame Hlay Hc leaves. unfold recomputeRoot.
  rewrite Hc. cbn [bind].
  assert (Hlen : len (layers fieldName) = Z.of_nat (S k)).
  { rewrite Hlay. unfold len. f_equal.
    rewrite <- (tree_layers_length hash k old).
    now rewrite (tree_layers_head hash k old) at 2. }
  rewrite Hlen.
  replace (Z.to_nat (Z.of_nat (S k) - 1)) with k by lia.
  assert (Hpow : 2 ^ Z.of_nat k = Z.of_nat (2 ^ k)).
  { rewrite Nat2Z.inj_pow. reflexivity. }
  assert (H64 : 2 ^ Z.of_nat k < 2 ^ 64)
    by (apply Z.pow_lt_mono_r; lia).
  destruct (recomputeRoot_loop_spec hash fieldName idx
              ltac:(lia) k 0 [] old first (Z.to_nat idx) c layers)
    as [layers' [R [L O]]]; try reflexivity; try assumption; try lia.
  - change (2 ^ 0) with 1. rewrite Z.div_1_r. lia.
  - exists layers'. fold leaves in R, L. rewrite R. cbn [bind].
    repeat split; assumption.
Qed.

Lemma recomputeRoot_is_tree_root_witness :
  exists layers',
    recomputeRoot (fun b => rev b) 1 [bytes_of [1]; bytes_of [9]] "roots"
      (fun _ => tree_layers (fun b => rev b) 1 [bytes_of [1]; bytes_of [2]])
    = Ok (toBytes32
            (tree_root (fun b => rev b) 1 [bytes_of [1]; bytes_of [9]]),
          layers')
    /\ layers' "roots"%string
       = [[bytes_of [1]; bytes_of [2]]; [bytes_of [9; 1]]].
Proof.
  destruct (recomputeRoot_is_tree_root (fun b => rev b) 1 1
              [bytes_of [1]; bytes_of [9]]
              [bytes_of [1]; bytes_of [2]] [bytes_of [1]; bytes_of [2]]
              (bytes_of [9]) "roots"
              (fun _ => tree_layers (fun b => rev b) 1
                          [bytes_of [1]; bytes_of [2]]))
    as [layers' [R [L _]]].
  - lia.
  - cbn. lia.
  - reflexivity.
  - reflexivity.
  - reflexivity.
  - reflexivity.
  - reflexivity.
  - exists layers'. split; [exact R | exact L].
Defined.

